(** * Portfolio tour: the tour orchestrator and the sound manager

    A shallow embedding of the guided-tour state machine (the multi-page
    form of the tour script, with [navigateTo] chaining and the cross-page
    flag) and of the sound manager, together with the browser facilities
    they use: [localStorage], [window.location], [history.replaceState],
    [setTimeout]/[clearTimeout], and the three presentation collaborators
    ([window.catGuide], [window.tourSpotlight], [window.speechBubble]).
    The single-page form of the script, [src/scripts/tour.ts], is embedded
    next to it where the two differ.

    Calls into the collaborators and audible emissions are recorded, in
    order, in a trace of events.  An [async] function is embedded as its
    synchronous prefix; the only real suspension point of the program, the
    character-by-character reveal [speechBubble.typeMessage], is resumed by
    an explicit action of the page.

    The file has two parts: the embedding and the vocabulary of the
    statements first, then a small program logic, the invariants of a page,
    and the properties of the operations. *)

From Stdlib Require Import ZArith.
From Stdlib Require QArith Qminmax Lqa.
From stdpp Require Import base option gmap strings list.

(** ** Data model *)

Inductive Animation := idle | waving | typing | pointing | celebrating.

#[global] Instance Animation_eq_dec : EqDecision Animation.
Proof. solve_decision. Defined.

(** [interface TourStep].  Optional members ([welcomeMode?], [navigateTo?],
    [page?]) are [option]s, [None] standing for [undefined]; [target] is
    [string | null].  The member [id] is named [stepId] here. *)
Record TourStep := mkStep {
  stepId : string;
  target : option string;
  animation : Animation;
  message : string;
  welcomeMode : option bool;
  navigateTo : option string;
  page : option string
}.

(** [interface TourState]. *)
Record TourState := mkState {
  currentStep : Z;
  isActive : bool;
  isTyping : bool;
  hasCompleted : bool
}.

(** The fields of the [soundManager] object.  [audioContext] records whether
    an [AudioContext] has been constructed; [purrInterval] is the handle
    returned by [setTimeout] (browsers hand out strictly positive handles, so
    the truthiness test [if (this.purrInterval)] is a test for [Some]). *)
Record SoundManager := mkSound {
  audioContext : bool;
  isEnabled : bool;
  volume : QArith_base.Q;
  purrInterval : option positive
}.

(** How [localStorage] answers: normally, with every write refused (quota
    exhausted, some private modes), or with every access refused. *)
Inductive StorageMode := StorageOk | StorageFull | StorageDenied.

(** [localStorage]: what the browser keeps for the site, across pages. *)
Record Storage := mkStorage {
  mode : StorageMode;
  items : gmap string string
}.

(** What the page provides to the scripts: which collaborators are mounted
    on [window], whether an [AudioContext] can be constructed, and how the
    browser resolves, against the URL of the document, a reference that is
    not a plain absolute path (one that starts with [//] is
    scheme-relative and names a host): [sameOriginPath r] is the path of the
    URL that [r] resolves to when that URL has the origin of the document,
    and [None] when it has another origin or [r] does not parse. *)
Record Env := mkEnv {
  hasCatGuide : bool;
  hasSpeechBubble : bool;
  hasTourSpotlight : bool;
  hasSoundManager : bool;
  audioSupported : bool;
  sameOriginPath : string → option string
}.

(** [window.location], with the query string in its parsed form (the list
    of name/value pairs that [URLSearchParams] iterates over) and the
    fragment without its leading hash sign. *)
Record Location := mkLocation {
  origin : string;
  pathname : string;
  search : list (string * string);
  hash : string
}.

(** The functions handed to [setTimeout]. *)
Inductive Callback :=
| CbInitSettled   (* the 100 ms callback of [initTour] *)
| CbResumeTour    (* the 500 ms callback of the cross-page branch *)
| CbStartTour     (* [() => startTour()], after 500 or 1000 ms *)
| CbRandomPurr.   (* [playRandomPurr] of [startAmbientPurr] *)

#[global] Instance Callback_eq_dec : EqDecision Callback.
Proof. solve_decision. Defined.

Record Timer := mkTimer {
  handle : positive;
  delay : QArith_base.Q;
  callback : Callback
}.

(** Calls that leave the scripts: methods of the collaborators, sounds that
    are actually synthesised, console output and changes of the URL. *)
Inductive Event :=
| CatSetAnimation (a : Animation)
| CatShow
| SpotlightSetWelcomeMode (enabled : bool)
| SpotlightShow (welcome : option bool)
| SpotlightHide
| SpotlightHighlight (selector : option string)
| BubbleSetStep (current total : Z)
| BubbleShow (welcome : option bool)
| BubbleHide
| BubbleTypeMessage (msg : string) (speed : Z)
| BubbleSkipTyping (fullMessage : string)
| SoundTyping
| SoundMeow
| SoundPurr
| SoundSuccess
| ConsoleWarn (msg : string)
| Navigate (href : string)
| ReplaceState (url : string).

#[global] Instance Event_eq_dec : EqDecision Event.
Proof. solve_decision. Defined.

(** The whole page: module-level variables of the tour script, the sound
    manager object, and the part of the browser the scripts act on. *)
Record World := mkWorld {
  env : Env;
  (* tour script *)
  tourSteps : list TourStep;
  state : TourState;
  soundsInitialized : bool;
  (* sound manager *)
  sound : SoundManager;
  (* browser *)
  localStorage : Storage;
  location : Location;
  pendingNav : option string;
  timers : list Timer;
  nextHandle : positive;
  navListeners : bool;
  soundInitListeners : bool;
  pendingReveals : nat;
  trace : list Event
}.

(** The stored items. *)
Definition storage (w : World) : gmap string string := items (localStorage w).

(** *** Field updates *)

Definition set_currentStep (i : Z) (s : TourState) : TourState :=
  mkState i (isActive s) (isTyping s) (hasCompleted s).
Definition set_isActive (b : bool) (s : TourState) : TourState :=
  mkState (currentStep s) b (isTyping s) (hasCompleted s).
Definition set_isTyping (b : bool) (s : TourState) : TourState :=
  mkState (currentStep s) (isActive s) b (hasCompleted s).
Definition set_hasCompleted (b : bool) (s : TourState) : TourState :=
  mkState (currentStep s) (isActive s) (isTyping s) b.

Definition set_audioContext (b : bool) (s : SoundManager) : SoundManager :=
  mkSound b (isEnabled s) (volume s) (purrInterval s).
Definition set_isEnabled (b : bool) (s : SoundManager) : SoundManager :=
  mkSound (audioContext s) b (volume s) (purrInterval s).
Definition set_volume (v : QArith_base.Q) (s : SoundManager) : SoundManager :=
  mkSound (audioContext s) (isEnabled s) v (purrInterval s).
Definition set_purrInterval (h : option positive) (s : SoundManager) : SoundManager :=
  mkSound (audioContext s) (isEnabled s) (volume s) h.

Definition with_tourSteps (f : list TourStep → list TourStep) (w : World) : World :=
  mkWorld (env w) (f (tourSteps w)) (state w) (soundsInitialized w) (sound w)
    (localStorage w) (location w) (pendingNav w) (timers w) (nextHandle w)
    (navListeners w) (soundInitListeners w) (pendingReveals w) (trace w).
Definition with_state (f : TourState → TourState) (w : World) : World :=
  mkWorld (env w) (tourSteps w) (f (state w)) (soundsInitialized w) (sound w)
    (localStorage w) (location w) (pendingNav w) (timers w) (nextHandle w)
    (navListeners w) (soundInitListeners w) (pendingReveals w) (trace w).
Definition with_soundsInitialized (f : bool → bool) (w : World) : World :=
  mkWorld (env w) (tourSteps w) (state w) (f (soundsInitialized w)) (sound w)
    (localStorage w) (location w) (pendingNav w) (timers w) (nextHandle w)
    (navListeners w) (soundInitListeners w) (pendingReveals w) (trace w).
Definition with_sound (f : SoundManager → SoundManager) (w : World) : World :=
  mkWorld (env w) (tourSteps w) (state w) (soundsInitialized w) (f (sound w))
    (localStorage w) (location w) (pendingNav w) (timers w) (nextHandle w)
    (navListeners w) (soundInitListeners w) (pendingReveals w) (trace w).
Definition with_storage (f : gmap string string → gmap string string) (w : World) : World :=
  mkWorld (env w) (tourSteps w) (state w) (soundsInitialized w) (sound w)
    (mkStorage (mode (localStorage w)) (f (items (localStorage w)))) (location w) (pendingNav w) (timers w) (nextHandle w)
    (navListeners w) (soundInitListeners w) (pendingReveals w) (trace w).
Definition with_location (f : Location → Location) (w : World) : World :=
  mkWorld (env w) (tourSteps w) (state w) (soundsInitialized w) (sound w)
    (localStorage w) (f (location w)) (pendingNav w) (timers w) (nextHandle w)
    (navListeners w) (soundInitListeners w) (pendingReveals w) (trace w).
Definition with_pendingNav (f : option string → option string) (w : World) : World :=
  mkWorld (env w) (tourSteps w) (state w) (soundsInitialized w) (sound w)
    (localStorage w) (location w) (f (pendingNav w)) (timers w) (nextHandle w)
    (navListeners w) (soundInitListeners w) (pendingReveals w) (trace w).
Definition with_timers (f : list Timer → list Timer) (w : World) : World :=
  mkWorld (env w) (tourSteps w) (state w) (soundsInitialized w) (sound w)
    (localStorage w) (location w) (pendingNav w) (f (timers w)) (nextHandle w)
    (navListeners w) (soundInitListeners w) (pendingReveals w) (trace w).
Definition with_nextHandle (f : positive → positive) (w : World) : World :=
  mkWorld (env w) (tourSteps w) (state w) (soundsInitialized w) (sound w)
    (localStorage w) (location w) (pendingNav w) (timers w) (f (nextHandle w))
    (navListeners w) (soundInitListeners w) (pendingReveals w) (trace w).
Definition with_navListeners (f : bool → bool) (w : World) : World :=
  mkWorld (env w) (tourSteps w) (state w) (soundsInitialized w) (sound w)
    (localStorage w) (location w) (pendingNav w) (timers w) (nextHandle w)
    (f (navListeners w)) (soundInitListeners w) (pendingReveals w) (trace w).
Definition with_soundInitListeners (f : bool → bool) (w : World) : World :=
  mkWorld (env w) (tourSteps w) (state w) (soundsInitialized w) (sound w)
    (localStorage w) (location w) (pendingNav w) (timers w) (nextHandle w)
    (navListeners w) (f (soundInitListeners w)) (pendingReveals w) (trace w).
Definition with_pendingReveals (f : nat → nat) (w : World) : World :=
  mkWorld (env w) (tourSteps w) (state w) (soundsInitialized w) (sound w)
    (localStorage w) (location w) (pendingNav w) (timers w) (nextHandle w)
    (navListeners w) (soundInitListeners w) (f (pendingReveals w)) (trace w).
Definition with_trace (f : list Event → list Event) (w : World) : World :=
  mkWorld (env w) (tourSteps w) (state w) (soundsInitialized w) (sound w)
    (localStorage w) (location w) (pendingNav w) (timers w) (nextHandle w)
    (navListeners w) (soundInitListeners w) (pendingReveals w) (f (trace w)).

(** ** Effects: a state monad over [World] with JavaScript exceptions *)

Inductive Res (A : Type) :=
| Ok (a : A) (w : World)
| Throw (w : World).
Arguments Ok {A} a w.
Arguments Throw {A} w.

Definition Exec (A : Type) : Type := World → Res A.

#[global] Instance Exec_ret : MRet Exec := λ A a w, Ok a w.
#[global] Instance Exec_bind : MBind Exec := λ A B f m w,
  match m w with
  | Ok a w' => f a w'
  | Throw w' => Throw w'
  end.

(** The world an execution leaves behind, whether it returned or threw (an
    exception that escapes an event handler or rejects an unobserved promise
    does not undo the assignments made before it). *)
Definition final {A} (r : Res A) : World :=
  match r with
  | Ok _ w => w
  | Throw w => w
  end.

Definition returned {A} (r : Res A) : bool :=
  match r with
  | Ok _ _ => true
  | Throw _ => false
  end.

Definition gets {A} (f : World → A) : Exec A := λ w, Ok (f w) w.
Definition modify (f : World → World) : Exec unit := λ w, Ok tt (f w).
Definition throw {A} : Exec A := λ w, Throw w.
Definition emit (e : Event) : Exec unit := modify (with_trace (λ t, t ++ [e])).
Definition when (b : bool) (m : Exec unit) : Exec unit :=
  if b then m else mret tt.

(** [try { m } catch { h }]. *)
Definition try_catch {A} (m h : Exec A) : Exec A := λ w,
  match m w with
  | Ok a w' => Ok a w'
  | Throw w' => h w'
  end.

(** Reading a member of a value that may be [undefined]: a [TypeError] when
    it is. *)
Definition member {A B} (o : option A) (f : A → B) : Exec B :=
  match o with
  | Some a => mret (f a)
  | None => throw
  end.

(** ** Constants *)

Definition STORAGE_KEY : string := "portfolio_tour_v1".
Definition TOUR_STEP_KEY : string := "portfolio_tour_step".
Definition TOUR_ACTIVE_KEY : string := "portfolio_tour_active".
Definition TYPING_SPEED : Z := 25.
Definition HOME_PATH : string := "/".
Definition TOUR_PARAM : string := "start-tour".

(** ** The script registry [pageTours] *)

(** The double-quote character, for the attribute selectors. *)
Definition dq : string :=
  String (Ascii.Ascii false true false false false true false false) EmptyString.

(** The selector [[data-tour-id=...]] with the name between double quotes. *)
Definition data_tour_id (name : string) : string :=
  "[data-tour-id=" +:+ dq +:+ name +:+ dq +:+ "]".

Definition page_content : string := data_tour_id "page-content".

Definition homeTour : list TourStep := [
  mkStep "welcome" None waving
    "Meow! I'm Neko, your guide on this homepage. Let me show you around!"
    (Some true) None (Some "/");
  mkStep "ascii-art" (Some (data_tour_id "ascii-art")) pointing
    "This is Ade's digital signature. Pretty cool ASCII art, right?"
    None None (Some "/");
  mkStep "intro-terminal" (Some (data_tour_id "intro-terminal")) typing
    "Here's the quick intro - a fullstack engineer with 5+ years of experience!"
    None None (Some "/");
  mkStep "nav-cards" (Some (data_tour_id "nav-cards")) pointing
    "These cards are shortcuts to explore different sections."
    None None (Some "/");
  mkStep "matrix-toggle" (Some "#matrix-toggle") pointing
    "Psst... try this button for a cool Matrix rain effect!"
    None None (Some "/");
  mkStep "complete" None celebrating
    "That's my tour! Click Next to meet Mochi on the About page!"
    (Some true) (Some "/about") (Some "/")
].

Definition aboutTour : list TourStep := [
  mkStep "welcome" None waving
    "Hey there! I'm Mochi, the orange cat! Neko sent you? Let me tell you about Ade!"
    (Some true) None (Some "/about");
  mkStep "bio" (Some (page_content +:+ " .terminal-window")) typing
    "Here's the bio - a self-taught fullstack engineer who's been coding for 5+ years!"
    None None (Some "/about");
  mkStep "stats" (Some (page_content +:+ " .grid")) pointing
    "5+ years, 5 companies, 15+ technologies, 5 industries - impressive numbers!"
    None None (Some "/about");
  mkStep "complete" None celebrating
    "That's all about Ade! Click Next to meet Yuki on the Skills page!"
    (Some true) (Some "/skills") (Some "/about")
].

Definition skillsTour : list TourStep := [
  mkStep "welcome" None waving
    "Purr! I'm Yuki, the white cat! Mochi told me you're coming! Let me show you Ade's skills!"
    (Some true) None (Some "/skills");
  mkStep "skills-list" (Some page_content) typing
    "Frontend, Backend, Database, DevOps - full stack expertise with beautiful progress bars!"
    None None (Some "/skills");
  mkStep "complete" None celebrating
    "So many skills! Click Next to meet Shadow on the Projects page!"
    (Some true) (Some "/projects") (Some "/skills")
].

Definition projectsTour : list TourStep := [
  mkStep "welcome" None waving
    "*emerges from shadows* I'm Shadow. Yuki mentioned you... Let me show you the projects."
    (Some true) None (Some "/projects");
  mkStep "projects-list" (Some page_content) pointing
    "Healthcare, Fintech, Banking, Education, Gaming - diverse industries, real impact."
    None None (Some "/projects");
  mkStep "complete" None celebrating
    "Impressive work... Click Next to meet Patches on the Experience page..."
    (Some true) (Some "/experience") (Some "/projects")
].

Definition experienceTour : list TourStep := [
  mkStep "welcome" None waving
    "Meow meow! I'm Patches the calico! Shadow said you're on a tour! Let's see the career journey!"
    (Some true) None (Some "/experience");
  mkStep "timeline" (Some page_content) typing
    "5 companies, 5+ years of growth - from junior developer to leading teams!"
    None None (Some "/experience");
  mkStep "complete" None celebrating
    "What a journey! Click Next to meet Splash on the Contact page!"
    (Some true) (Some "/contact") (Some "/experience")
].

Definition contactTour : list TourStep := [
  mkStep "welcome" None waving
    "Splashy hello! I'm Splash! Patches told me you've met everyone! Ready to connect with Ade?"
    (Some true) None (Some "/contact");
  mkStep "contact-info" (Some page_content) pointing
    "Email, WhatsApp, LinkedIn, GitHub - so many ways to reach out!"
    None None (Some "/contact");
  mkStep "complete" None celebrating
    "Almost done! Click Next to meet Pixel on the Blog page!"
    (Some true) (Some "/blog") (Some "/contact")
].

Definition blogTour : list TourStep := [
  mkStep "welcome" None waving
    "Nyaa~! I'm Pixel, the last cat! You've met everyone! Welcome to the blog!"
    (Some true) None (Some "/blog");
  mkStep "blog-posts" (Some page_content) typing
    "Here you'll find technical articles, tutorials, and dev stories!"
    None None (Some "/blog");
  mkStep "complete" None celebrating
    "Tour complete! You've met all 7 cats! Feel free to explore anytime! 🐱"
    (Some true) None (Some "/blog")
].

(** The entries of the object literal [pageTours], in source order. *)
Definition pageTours_entries : list (string * list TourStep) := [
  ("/", homeTour);
  ("/about", aboutTour);
  ("/skills", skillsTour);
  ("/projects", projectsTour);
  ("/experience", experienceTour);
  ("/contact", contactTour);
  ("/blog", blogTour)
].

(** A page is named by a URL path, which starts with a slash. *)
Definition isPath (page : string) : bool :=
  match page with
  | String c _ => bool_decide (String c EmptyString = "/")
  | EmptyString => false
  end.

(** The names an object literal inherits from [Object.prototype].  A
    lookup of one of them in [pageTours] answers the inherited member, not
    a script; none of them is a path. *)
Definition Object_prototype_names : list string :=
  ["constructor"; "__proto__"; "hasOwnProperty"; "isPrototypeOf";
   "propertyIsEnumerable"; "toLocaleString"; "toString"; "valueOf";
   "__defineGetter__"; "__defineSetter__"; "__lookupGetter__";
   "__lookupSetter__"].

(** [pageTours], used as a map from page paths to scripts: the object
    literal by its own properties.  This is the object for every key that
    is a path ([isPath]), which is what every caller passes; for the
    inherited names it is not. *)
Definition pageTours : gmap string (list TourStep) :=
  list_to_map pageTours_entries.

(** [pageTours[page] || pageTours['/']] for a [page] that is a path: an
    array is always truthy, so the right operand is taken exactly when the
    property is missing.  The home entry is in the literal, so the second
    lookup always finds it. *)
Definition getTourStepsForPage (page : string) : list TourStep :=
  match pageTours !! page with
  | Some steps => steps
  | None => default [] (pageTours !! "/")
  end.

(** ** Persistence: [localStorage] behind [try]/[catch] *)

Definition localStorage_getItem (k : string) : Exec (option string) := λ w,
  match mode (localStorage w) with
  | StorageDenied => Throw w
  | _ => Ok (storage w !! k) w
  end.

Definition localStorage_setItem (k v : string) : Exec unit := λ w,
  match mode (localStorage w) with
  | StorageOk => Ok tt (with_storage (λ m, <[k := v]> m) w)
  | _ => Throw w
  end.

Definition localStorage_removeItem (k : string) : Exec unit := λ w,
  match mode (localStorage w) with
  | StorageDenied => Throw w
  | _ => Ok tt (with_storage (λ m, delete k m) w)
  end.

Definition setTourActive (active : bool) : Exec unit :=
  try_catch
    (if active then localStorage_setItem TOUR_ACTIVE_KEY "true"
     else localStorage_removeItem TOUR_ACTIVE_KEY)
    (mret tt).

Definition isTourActive : Exec bool :=
  try_catch
    (v ← localStorage_getItem TOUR_ACTIVE_KEY;
     mret (bool_decide (v = Some "true")))
    (mret false).

Definition hasCompletedTour : Exec bool :=
  try_catch
    (v ← localStorage_getItem STORAGE_KEY;
     mret (bool_decide (v = Some "true")))
    (mret false).

Definition markTourCompleted : Exec unit :=
  try_catch (localStorage_setItem STORAGE_KEY "true") (mret tt).

Definition clearTourCompletion : Exec unit :=
  try_catch (localStorage_removeItem STORAGE_KEY) (mret tt).

Definition clearSavedTourStep : Exec unit :=
  try_catch (localStorage_removeItem TOUR_STEP_KEY) (mret tt).

(** ** The page URL *)

Fixpoint endsWithSlash (s : string) : bool :=
  match s with
  | EmptyString => false
  | String c EmptyString => bool_decide (String c EmptyString = "/")
  | String _ s' => endsWithSlash s'
  end.

(** [s.slice(0, -1)]. *)
Fixpoint dropLast (s : string) : string :=
  match s with
  | EmptyString => EmptyString
  | String _ EmptyString => EmptyString
  | String c s' => String c (dropLast s')
  end.

Definition isHomePage : Exec bool :=
  gets (λ w, bool_decide (pathname (location w) = HOME_PATH)
             || bool_decide (pathname (location w) = "/index.html")).

Definition getCurrentPage : Exec string :=
  path ← gets (λ w, pathname (location w));
  if endsWithSlash path && negb (bool_decide (path = "/"))
  then mret (dropLast path)
  else mret path.

(** [URLSearchParams.has] and [URLSearchParams.delete] on the parsed query. *)
Definition searchParams_has (name : string) (ps : list (string * string)) : bool :=
  existsb (λ p, bool_decide (p.1 = name)) ps.

Definition searchParams_delete (name : string) (ps : list (string * string))
  : list (string * string) :=
  filter (λ p, p.1 ≠ name) ps.

Definition shouldStartFromUrl : Exec bool :=
  gets (λ w, searchParams_has TOUR_PARAM (search (location w))).

(** A reference that starts with one slash and not with two.  The
    [pathname] of a document is such a reference unless its first segment
    is empty. *)
Definition isAbsolutePath (url : string) : bool :=
  match url with
  | String c rest =>
      bool_decide (String c EmptyString = "/")
      && match rest with
         | String c' _ => negb (bool_decide (String c' EmptyString = "/"))
         | EmptyString => true
         end
  | EmptyString => false
  end.

(** The path of the URL that [url], the [pathname] of a document, resolves
    to against the URL of that document, if that URL has the origin of the
    document.  An absolute path resolves to itself: the parser keeps the
    host of the base and parses the path again, which changes nothing in a
    path it has serialised.  Any other reference is the browser's to
    resolve. *)
Definition resolveReference (e : Env) (url : string) : option string :=
  if isAbsolutePath url then Some url else sameOriginPath e url.

(** [history.replaceState({}, '', url)] for a [url] that is the [pathname]
    of a document.  The reference is resolved against the URL of the
    document; if the result has another origin, or there is none, the call
    throws a [SecurityError] and changes nothing.  Otherwise the URL of the
    document becomes the result: its path, no query and no fragment.
    Nothing is loaded. *)
Definition history_replaceState (url : string) : Exec unit :=
  e ← gets env;
  match resolveReference e url with
  | Some path =>
      modify (with_location (λ l, mkLocation (origin l) path [] EmptyString));;
      emit (ReplaceState url)
  | None => throw
  end.

(** [url] is a private copy of the location; deleting the parameter changes
    that copy only, and only its [pathname] is handed to [replaceState]. *)
Definition clearTourParam : Exec unit :=
  here ← gets location;
  let url := mkLocation (origin here) (pathname here)
               (searchParams_delete TOUR_PARAM (search here)) (hash here) in
  history_replaceState (pathname url).

(** [window.location.href = url]: a navigation is requested; the script
    keeps running until the page is replaced. *)
Definition location_assign (url : string) : Exec unit :=
  modify (with_pendingNav (λ _, Some url));;
  emit (Navigate url).

(** ** Timers *)

(** [window.setTimeout(cb, ms)] returns a fresh handle. *)
Definition setTimeout (cb : Callback) (ms : QArith_base.Q) : Exec positive := λ w,
  let h := nextHandle w in
  Ok h (with_nextHandle Pos.succ
          (with_timers (λ ts, ts ++ [mkTimer h ms cb]) w)).

Definition clearTimeout (h : positive) : Exec unit :=
  modify (with_timers (filter (λ t, handle t ≠ h))).

(** A call of [setTimeout] whose handle is dropped. *)
Definition setTimeout_ (cb : Callback) (ms : QArith_base.Q) : Exec unit :=
  _ ← setTimeout cb ms; mret tt.

Definition ms (n : Z) : QArith_base.Q := QArith_base.inject_Z n.

(** ** The sound manager *)

Module soundManager.

Definition init : Exec unit :=
  s ← gets sound;
  if audioContext s then mret tt
  else
    e ← gets env;
    if audioSupported e
    then modify (with_sound (set_audioContext true))
    else
      emit (ConsoleWarn "Web Audio API not supported");;
      modify (with_sound (set_isEnabled false)).

(** The four sounds.  Each starts with the guard
    [if (!this.isEnabled || !this.audioContext) return;] and then builds
    and starts an oscillator or noise graph; the graph itself (floating
    point gains and frequencies) is summarised by one event. *)
Definition audible (e : Event) : Exec unit :=
  s ← gets sound;
  if negb (isEnabled s) || negb (audioContext s) then mret tt
  else emit e.

Definition playTypingSound : Exec unit := audible SoundTyping.
Definition playMeow : Exec unit := audible SoundMeow.
Definition playPurr : Exec unit := audible SoundPurr.
Definition playSuccess : Exec unit := audible SoundSuccess.

(** The closure [playRandomPurr]; [rnd] is the value [Math.random()]
    returns in this call. *)
Definition playRandomPurr (rnd : QArith_base.Q) : Exec unit :=
  s ← gets sound;
  when (isEnabled s && audioContext s) playPurr;;
  let nextDelay := QArith_base.Qplus (ms 5000) (QArith_base.Qmult rnd (ms 5000)) in
  h ← setTimeout CbRandomPurr nextDelay;
  modify (with_sound (set_purrInterval (Some h))).

Definition startAmbientPurr : Exec unit :=
  s ← gets sound;
  match purrInterval s with
  | Some _ => mret tt
  | None =>
      h ← setTimeout CbRandomPurr (ms 2000);
      modify (with_sound (set_purrInterval (Some h)))
  end.

Definition stopAmbientPurr : Exec unit :=
  s ← gets sound;
  match purrInterval s with
  | Some h =>
      clearTimeout h;;
      modify (with_sound (set_purrInterval None))
  | None => mret tt
  end.

Definition setEnabled (enabled : bool) : Exec unit :=
  modify (with_sound (set_isEnabled enabled));;
  when (negb enabled) stopAmbientPurr.

Definition setVolume (v : QArith_base.Q) : Exec unit :=
  modify (with_sound (set_volume
    (Qminmax.Qmax (ms 0) (Qminmax.Qmin (ms 1) v)))).

End soundManager.

(** ** The tour orchestrator *)

(** [tourSteps[state.currentStep]]; [undefined] outside the array. *)
Definition getCurrentStep : Exec (option TourStep) :=
  gets (λ w,
    let i := currentStep (state w) in
    if (i <? 0)%Z then None else tourSteps w !! Z.to_nat i).

Definition loadTourForCurrentPage : Exec unit :=
  page ← getCurrentPage;
  modify (with_tourSteps (λ _, getTourStepsForPage page)).

(** Truthiness of an optional boolean and of an optional string. *)
Definition truthy_bool (b : option bool) : bool := default false b.
Definition truthy_string (s : option string) : option string :=
  match s with
  | Some EmptyString => None
  | other => other
  end.

(** [renderStep], up to the point where it suspends on the promise returned
    by [typeMessage].  The assignment [state.isTyping = false] that follows
    the [await] is the action [RevealDone] below. *)
Definition renderStep : Exec unit :=
  step ← getCurrentStep;
  e ← gets env;
  when (hasCatGuide e)
    (a ← member step animation; emit (CatSetAnimation a));;
  a ← member step animation;
  when (bool_decide (a = celebrating) && hasSoundManager e)
    soundManager.playPurr;;
  when (hasTourSpotlight e)
    (wm ← member step welcomeMode;
     if truthy_bool wm then
       emit (SpotlightSetWelcomeMode true);;
       emit (SpotlightShow (Some true))
     else
       emit (SpotlightSetWelcomeMode false);;
       emit (SpotlightShow None);;
       t ← member step target;
       emit (SpotlightHighlight t));;
  when (hasSpeechBubble e)
    (i ← gets (λ w, currentStep (state w));
     n ← gets (λ w, Z.of_nat (length (tourSteps w)));
     emit (BubbleSetStep (i + 1) n);;
     wm ← member step welcomeMode;
     emit (BubbleShow wm);;
     modify (with_state (set_isTyping true));;
     msg ← member step message;
     emit (BubbleTypeMessage msg TYPING_SPEED);;
     modify (with_pendingReveals S)).

Definition completeTour : Exec unit :=
  modify (with_state (set_isActive false));;
  modify (with_state (set_hasCompleted true));;
  markTourCompleted;;
  clearSavedTourStep;;
  setTourActive false;;
  e ← gets env;
  when (hasSoundManager e) soundManager.playSuccess;;
  when (hasTourSpotlight e) (emit SpotlightHide);;
  when (hasSpeechBubble e) (emit BubbleHide);;
  when (hasCatGuide e) (emit (CatSetAnimation idle)).

Definition nextStep : Exec unit :=
  st ← gets state;
  e ← gets env;
  if negb (isActive st) then mret tt
  else if isTyping st && hasSpeechBubble e then
    step ← getCurrentStep;
    msg ← member step message;
    emit (BubbleSkipTyping msg);;
    modify (with_state (set_isTyping false))
  else
    n ← gets (λ w, Z.of_nat (length (tourSteps w)));
    if (currentStep st <? n - 1)%Z then
      modify (with_state (λ s, set_currentStep (currentStep s + 1) s));;
      i ← gets (λ w, currentStep (state w));
      when (hasSoundManager e && (Z.rem i 2 =? 0)%Z) soundManager.playMeow;;
      renderStep
    else
      step ← getCurrentStep;
      nav ← member step navigateTo;
      match truthy_string nav with
      | Some url =>
          setTourActive true;;
          location_assign url
      | None => completeTour
      end.

Definition prevStep : Exec unit :=
  st ← gets state;
  if negb (isActive st) then mret tt
  else if (0 <? currentStep st)%Z then
    modify (with_state (λ s, set_currentStep (currentStep s - 1) s));;
    renderStep
  else mret tt.

Definition skipTour : Exec unit :=
  setTourActive false;;
  completeTour.

Definition startTour : Exec unit :=
  e ← gets env;
  when (hasSoundManager e)
    (soundManager.init;;
     soundManager.playMeow;;
     soundManager.startAmbientPurr);;
  loadTourForCurrentPage;;
  modify (with_state (set_currentStep 0));;
  modify (with_state (set_isActive true));;
  modify (with_state (set_hasCompleted false));;
  setTourActive true;;
  when (hasCatGuide e) (emit CatShow);;
  renderStep.

Definition restartTour : Exec unit := startTour.

(** ** Input handling and initialisation *)

(** The [keydown] listener installed by [setupKeyboardNav]. *)
Definition onKeydown (key : string) : Exec unit :=
  st ← gets state;
  if negb (isActive st) then mret tt
  else if bool_decide (key = "Enter") || bool_decide (key = "ArrowRight")
          || bool_decide (key = " ") then nextStep
  else if bool_decide (key = "ArrowLeft") then prevStep
  else if bool_decide (key = "Escape") then skipTour
  else mret tt.

(** An event target that is an [Element]: what [target.closest(selector)]
    answers, for the five selectors the [click] listener asks about. *)
Record ClickTarget := mkClick {
  inTourNext : bool;
  inTourPrev : bool;
  inTourSkip : bool;
  inCatGuide : bool;
  inRestartTour : bool
}.

(** The [click] listener installed by [setupButtonControls], for a click
    whose target is an element (as the target of every click of a visitor
    is). *)
Definition onClick (t : ClickTarget) : Exec unit :=
  st ← gets state;
  e ← gets env;
  if inTourNext t then nextStep
  else if inTourPrev t then prevStep
  else if inTourSkip t then skipTour
  else if inCatGuide t && negb (isActive st) then
    when (hasSoundManager e)
      (soundManager.init;; soundManager.playPurr);;
    restartTour
  else if inRestartTour t then restartTour
  else mret tt.

(** The same listener for any event target: a target that is not an
    [Element] (the document itself, say, for a click dispatched by a
    script) has no [closest], and the first test throws a [TypeError]
    before anything is done. *)
Definition clickListener (target : option ClickTarget) : Exec unit :=
  match target with
  | Some t => onClick t
  | None => throw
  end.

Definition setupKeyboardNav : Exec unit :=
  modify (with_navListeners (λ _, true)).
Definition setupButtonControls : Exec unit :=
  modify (with_navListeners (λ _, true)).

(** [initTour]: load the script of the page and let the components settle. *)
Definition initTour : Exec unit :=
  loadTourForCurrentPage;;
  setTimeout_ CbInitSettled (ms 100).

(** The body of the 100 ms callback of [initTour]. *)
Definition initTour_settled : Exec unit :=
  setupKeyboardNav;;
  setupButtonControls;;
  active ← isTourActive;
  if (active : bool) then
    setTimeout_ CbResumeTour (ms 500)
  else
    fromUrl ← shouldStartFromUrl;
    if (fromUrl : bool) then
      clearTourParam;;
      setTimeout_ CbStartTour (ms 500)
    else
      home ← isHomePage;
      completed ← hasCompletedTour;
      if (home : bool) && negb completed then
        setTimeout_ CbStartTour (ms 1000)
      else
        e ← gets env;
        when (hasCatGuide e) (emit CatShow).

(** The 500 ms callback of the cross-page branch. *)
Definition resumeTour : Exec unit :=
  e ← gets env;
  when (hasSoundManager e)
    (soundManager.init;;
     soundManager.playMeow;;
     soundManager.startAmbientPurr);;
  startTour.

Definition initSoundsOnInteraction : Exec unit :=
  done ← gets soundsInitialized;
  if (done : bool) then mret tt
  else
    modify (with_soundsInitialized (λ _, true));;
    e ← gets env;
    when (hasSoundManager e)
      (soundManager.init;; soundManager.startAmbientPurr);;
    modify (with_soundInitListeners (λ _, false)).

Definition runCallback (cb : Callback) (rnd : QArith_base.Q) : Exec unit :=
  match cb with
  | CbInitSettled => initTour_settled
  | CbResumeTour => resumeTour
  | CbStartTour => startTour
  | CbRandomPurr => soundManager.playRandomPurr rnd
  end.

(** ** Pages and what can happen on them *)

(** The state in which the scripts of a page start: [state], [tourSteps],
    [soundsInitialized] and the [soundManager] literal as initialised in the
    source; the storage is whatever earlier pages left. *)
Definition initialWorld (e : Env) (st : Storage) (l : Location) : World :=
  mkWorld e [] (mkState 0 false false false) false
    (mkSound false true (QArith_base.Qmake 1 2) None)
    st l None [] 1%positive false false 0 [].

(** The start-up code at the end of the tour script.  Both branches of the
    test on [document.readyState] run [initTour] and then register
    [initSoundsOnInteraction] for [click] and [keydown]. *)
Definition startup : Exec unit :=
  initTour;;
  modify (with_soundInitListeners (λ _, true)).

Definition pageLoad (e : Env) (st : Storage) (l : Location) : World :=
  final (startup (initialWorld e st l)).

(** [window.portfolioTour]. *)
Inductive Command := CmdStart | CmdRestart | CmdSkip | CmdNext | CmdPrev.

Definition runCommand (c : Command) : Exec unit :=
  match c with
  | CmdStart => startTour
  | CmdRestart => restartTour
  | CmdSkip => skipTour
  | CmdNext => nextStep
  | CmdPrev => prevStep
  end.

(** Methods of [window.soundManager] that other scripts of the page may
    call. *)
Inductive SoundCall :=
| SndInit
| SndPlayTypingSound
| SndPlayMeow
| SndPlayPurr
| SndPlaySuccess
| SndStartAmbientPurr
| SndStopAmbientPurr
| SndSetEnabled (enabled : bool)
| SndSetVolume (v : QArith_base.Q).

Definition runSoundCall (c : SoundCall) : Exec unit :=
  match c with
  | SndInit => soundManager.init
  | SndPlayTypingSound => soundManager.playTypingSound
  | SndPlayMeow => soundManager.playMeow
  | SndPlayPurr => soundManager.playPurr
  | SndPlaySuccess => soundManager.playSuccess
  | SndStartAmbientPurr => soundManager.startAmbientPurr
  | SndStopAmbientPurr => soundManager.stopAmbientPurr
  | SndSetEnabled b => soundManager.setEnabled b
  | SndSetVolume v => soundManager.setVolume v
  end.

Inductive Action :=
| Call (c : Command)
| Sound (c : SoundCall)
| KeyDown (key : string)
| Click (t : ClickTarget)
| TimerFires (h : positive) (rnd : QArith_base.Q)
| RevealDone.

(** A listener runs to completion; what it throws is reported by the
    browser and does not stop later listeners. *)
Definition listener (installed : bool) (l : Exec unit) (w : World) : World :=
  if installed then final (l w) else w.

(** A reveal finishes: the continuation of [renderStep] after its [await]
    runs [state.isTyping = false]. *)
Definition revealDone (w : World) : World :=
  match pendingReveals w with
  | O => w
  | S n => with_state (set_isTyping false) (with_pendingReveals (λ _, n) w)
  end.

(** A pending timer expires: it leaves the timer list and its callback
    runs. *)
Definition timerFires (h : positive) (rnd : QArith_base.Q) (w : World) : World :=
  match list_find (λ t, handle t = h) (timers w) with
  | Some (_, t) =>
      final (runCallback (callback t) rnd
               (with_timers (filter (λ t', handle t' ≠ h)) w))
  | None => w
  end.

Definition perform (a : Action) (w : World) : World :=
  match a with
  | Call c => final (runCommand c w)
  | Sound c => listener (hasSoundManager (env w)) (runSoundCall c) w
  | KeyDown key =>
      let w1 := listener (soundInitListeners w) initSoundsOnInteraction w in
      listener (navListeners w1) (onKeydown key) w1
  | Click t =>
      let w1 := listener (soundInitListeners w) initSoundsOnInteraction w in
      listener (navListeners w1) (onClick t) w1
  | TimerFires h rnd => timerFires h rnd w
  | RevealDone => revealDone w
  end.

(** Actions are performed from left to right. *)
Definition run (acts : list Action) (w : World) : World :=
  foldl (λ w a, perform a w) w acts.

(** The worlds reachable on a page: those obtained from a page load by any
    sequence of actions. *)
Definition reachable (w : World) : Prop :=
  ∃ e st l acts, w = run acts (pageLoad e st l).

(** ** The single-page variant of the tour script

    [src/scripts/tour.ts] is an earlier form of the same script: every page
    has a tour of its own and nothing carries over from one page to the
    next.  No step declares [navigateTo], there is no cross-page flag, and
    the script never calls the sound manager.  What is embedded here is the
    part that differs; the storage and URL functions are those above, which
    the two files share word for word. *)

Module SinglePage.

Definition homeTour : list TourStep := [
  mkStep "welcome" None waving
    "Meow! I'm Neko, your guide on this homepage. Let me show you around!"
    (Some true) None (Some "/");
  mkStep "ascii-art" (Some (data_tour_id "ascii-art")) pointing
    "This is Ade's digital signature. Pretty cool ASCII art, right?"
    None None (Some "/");
  mkStep "intro-terminal" (Some (data_tour_id "intro-terminal")) typing
    "Here's the quick intro - a fullstack engineer with 5+ years of experience!"
    None None (Some "/");
  mkStep "nav-cards" (Some (data_tour_id "nav-cards")) pointing
    "These cards are shortcuts to explore different sections. Each page has its own cat guide!"
    None None (Some "/");
  mkStep "matrix-toggle" (Some "#matrix-toggle") pointing
    "Psst... try this button for a cool Matrix rain effect!"
    None None (Some "/");
  mkStep "complete" None celebrating
    "That's my tour! Visit other pages to meet my friends - Mochi, Yuki, Shadow, Patches, and Splash!"
    (Some true) None (Some "/")
].

Definition aboutTour : list TourStep := [
  mkStep "welcome" None waving
    "Hey there! I'm Mochi, the orange cat! Let me tell you about Ade!"
    (Some true) None (Some "/about");
  mkStep "bio" (Some (page_content +:+ " .terminal-window")) typing
    "Here's the bio - a self-taught fullstack engineer who's been coding for 5+ years!"
    None None (Some "/about");
  mkStep "stats" (Some (page_content +:+ " .grid")) pointing
    "5+ years, 5 companies, 15+ technologies, 5 industries - impressive numbers!"
    None None (Some "/about");
  mkStep "complete" None celebrating
    "That's all about Ade! Check out Skills to meet Yuki, or click me anytime!"
    (Some true) None (Some "/about")
].

Definition skillsTour : list TourStep := [
  mkStep "welcome" None waving
    "Purr! I'm Yuki, the white cat! Let me show you Ade's technical skills!"
    (Some true) None (Some "/skills");
  mkStep "skills-list" (Some page_content) typing
    "Frontend, Backend, Database, DevOps - full stack expertise with beautiful progress bars!"
    None None (Some "/skills");
  mkStep "complete" None celebrating
    "So many skills! Visit Projects to meet Shadow the black cat!"
    (Some true) None (Some "/skills")
].

Definition projectsTour : list TourStep := [
  mkStep "welcome" None waving
    "*emerges from shadows* I'm Shadow. Let me show you the projects..."
    (Some true) None (Some "/projects");
  mkStep "projects-list" (Some page_content) pointing
    "Healthcare, Fintech, Banking, Education, Gaming - diverse industries, real impact."
    None None (Some "/projects");
  mkStep "complete" None celebrating
    "Impressive work... *fades into shadows* Visit Experience to meet Patches!"
    (Some true) None (Some "/projects")
].

Definition experienceTour : list TourStep := [
  mkStep "welcome" None waving
    "Meow meow! I'm Patches the calico! Let's explore the career journey!"
    (Some true) None (Some "/experience");
  mkStep "timeline" (Some page_content) typing
    "5 companies, 5+ years of growth - from junior developer to leading teams!"
    None None (Some "/experience");
  mkStep "complete" None celebrating
    "What a journey! Head to Contact to meet Splash and say hi to Ade!"
    (Some true) None (Some "/experience")
].

Definition contactTour : list TourStep := [
  mkStep "welcome" None waving
    "Splashy hello! I'm Splash! Ready to connect with Ade?"
    (Some true) None (Some "/contact");
  mkStep "contact-info" (Some page_content) pointing
    "Email, WhatsApp, LinkedIn, GitHub - so many ways to reach out!"
    None None (Some "/contact");
  mkStep "complete" None celebrating
    "Don't be shy, send a message! Thanks for visiting - come back anytime!"
    (Some true) None (Some "/contact")
].

Definition blogTour : list TourStep := [
  mkStep "welcome" None waving
    "Nyaa~! I'm Pixel, the purple cat! Welcome to the blog!"
    (Some true) None (Some "/blog");
  mkStep "blog-posts" (Some page_content) typing
    "Here you'll find technical articles, tutorials, and dev stories!"
    None None (Some "/blog");
  mkStep "complete" None celebrating
    "Stay tuned for more posts! Don't forget to check out the other pages!"
    (Some true) None (Some "/blog")
].

Definition pageTours_entries : list (string * list TourStep) := [
  ("/", homeTour);
  ("/about", aboutTour);
  ("/skills", skillsTour);
  ("/projects", projectsTour);
  ("/experience", experienceTour);
  ("/contact", contactTour);
  ("/blog", blogTour)
].

Definition pageTours : gmap string (list TourStep) :=
  list_to_map pageTours_entries.

Definition getTourStepsForPage (page : string) : list TourStep :=
  match pageTours !! page with
  | Some steps => steps
  | None => default [] (pageTours !! "/")
  end.

Definition loadTourForCurrentPage : Exec unit :=
  page ← getCurrentPage;
  modify (with_tourSteps (λ _, getTourStepsForPage page)).

Definition renderStep : Exec unit :=
  step ← getCurrentStep;
  e ← gets env;
  when (hasCatGuide e)
    (a ← member step animation; emit (CatSetAnimation a));;
  when (hasTourSpotlight e)
    (wm ← member step welcomeMode;
     if truthy_bool wm then
       emit (SpotlightSetWelcomeMode true);;
       emit (SpotlightShow (Some true))
     else
       emit (SpotlightSetWelcomeMode false);;
       emit (SpotlightShow None);;
       t ← member step target;
       emit (SpotlightHighlight t));;
  when (hasSpeechBubble e)
    (i ← gets (λ w, currentStep (state w));
     n ← gets (λ w, Z.of_nat (length (tourSteps w)));
     emit (BubbleSetStep (i + 1) n);;
     wm ← member step welcomeMode;
     emit (BubbleShow wm);;
     modify (with_state (set_isTyping true));;
     msg ← member step message;
     emit (BubbleTypeMessage msg TYPING_SPEED);;
     modify (with_pendingReveals S)).

Definition completeTour : Exec unit :=
  modify (with_state (set_isActive false));;
  modify (with_state (set_hasCompleted true));;
  markTourCompleted;;
  clearSavedTourStep;;
  e ← gets env;
  when (hasTourSpotlight e) (emit SpotlightHide);;
  when (hasSpeechBubble e) (emit BubbleHide);;
  when (hasCatGuide e) (emit (CatSetAnimation idle)).

Definition nextStep : Exec unit :=
  st ← gets state;
  e ← gets env;
  if negb (isActive st) then mret tt
  else if isTyping st && hasSpeechBubble e then
    step ← getCurrentStep;
    msg ← member step message;
    emit (BubbleSkipTyping msg);;
    modify (with_state (set_isTyping false))
  else
    n ← gets (λ w, Z.of_nat (length (tourSteps w)));
    if (currentStep st <? n - 1)%Z then
      modify (with_state (λ s, set_currentStep (currentStep s + 1) s));;
      renderStep
    else completeTour.

Definition prevStep : Exec unit :=
  st ← gets state;
  if negb (isActive st) then mret tt
  else if (0 <? currentStep st)%Z then
    modify (with_state (λ s, set_currentStep (currentStep s - 1) s));;
    renderStep
  else mret tt.

Definition skipTour : Exec unit := completeTour.

Definition startTour : Exec unit :=
  e ← gets env;
  loadTourForCurrentPage;;
  modify (with_state (set_currentStep 0));;
  modify (with_state (set_isActive true));;
  modify (with_state (set_hasCompleted false));;
  when (hasCatGuide e) (emit CatShow);;
  renderStep.

Definition restartTour : Exec unit := startTour.

(** The body of the 100 ms callback of [initTour] in this file: the marker
    in the URL, then the first visit of the home page; nothing is carried
    over from another page. *)
Definition initTour_settled : Exec unit :=
  setupKeyboardNav;;
  setupButtonControls;;
  fromUrl ← shouldStartFromUrl;
  if (fromUrl : bool) then
    clearTourParam;;
    setTimeout_ CbStartTour (ms 500)
  else
    home ← isHomePage;
    completed ← hasCompletedTour;
    if (home : bool) && negb completed then
      setTimeout_ CbStartTour (ms 1000)
    else
      e ← gets env;
      when (hasCatGuide e) (emit CatShow).

(** [window.portfolioTour] of this file. *)
Definition runCommand (c : Command) : Exec unit :=
  match c with
  | CmdStart => startTour
  | CmdRestart => restartTour
  | CmdSkip => skipTour
  | CmdNext => nextStep
  | CmdPrev => prevStep
  end.

End SinglePage.

(** ** The voice of the sound manager in [src/scripts/tour.ts]

    The sound manager that follows the tour script in that file is the one
    embedded above with a voice added: [init] also calls [initVoice], and
    [speakMessage], [stopSpeaking] and [setVoiceEnabled] drive the speech
    synthesis of the browser.  Embedded here are those functions, on the
    fields they use.  [setEnabled] of that file, which also stops the
    ambient purr, is not repeated; its effect on the voice is
    [stopSpeaking]. *)

Module Voice.

(** A JavaScript string is the list of its UTF-16 code units, a [list N].
    [literal] gives the code units of a literal of the source; all of them
    are ASCII. *)
Fixpoint literal (s : string) : list N :=
  match s with
  | EmptyString => []
  | String c s' => Ascii.N_of_ascii c :: literal s'
  end.

(** The class [[*_~`]]. *)
Definition is_markdown (c : N) : bool :=
  (c =? 42)%N || (c =? 95)%N || (c =? 126)%N || (c =? 96)%N.

(** The class [\s], which is also what [trim] strips: the white space and
    the line terminators of ECMAScript. *)
Definition is_space (c : N) : bool :=
  ((9 <=? c) && (c <=? 13))%N || (c =? 32)%N || (c =? 160)%N
  || (c =? 5760)%N || ((8192 <=? c) && (c <=? 8202))%N
  || (c =? 8232)%N || (c =? 8233)%N || (c =? 8239)%N || (c =? 8287)%N
  || (c =? 12288)%N || (c =? 65279)%N.

(** [s.replace(/[*_~`]/g, '')]. *)
Definition strip_markdown (s : list N) : list N :=
  filter (λ c, is_markdown c = false) s.

(** [s.replace(/\s+/g, ' ')]: every maximal run of white space becomes one
    space; [in_run] says that the unit before was white space. *)
Fixpoint collapse_from (in_run : bool) (s : list N) : list N :=
  match s with
  | [] => []
  | c :: s' =>
      if is_space c then
        if in_run then collapse_from true s'
        else 32%N :: collapse_from true s'
      else c :: collapse_from false s'
  end.

Definition collapse_spaces (s : list N) : list N := collapse_from false s.

Fixpoint trimStart (s : list N) : list N :=
  match s with
  | [] => []
  | c :: s' => if is_space c then trimStart s' else s
  end.

Definition trimEnd (s : list N) : list N := reverse (trimStart (reverse s)).

(** [s.trim()]. *)
Definition trim (s : list N) : list N := trimEnd (trimStart s).

(** The [cleanMessage] of [speakMessage]. *)
Definition cleanMessage (message : list N) : list N :=
  trim (collapse_spaces (strip_markdown message)).

(** [hay.includes(needle)]. *)
Fixpoint startsWith (needle hay : list N) : bool :=
  match needle, hay with
  | [], _ => true
  | _ :: _, [] => false
  | a :: needle', b :: hay' => (a =? b)%N && startsWith needle' hay'
  end.

Fixpoint includes (needle hay : list N) : bool :=
  startsWith needle hay
  || match hay with
     | [] => false
     | _ :: hay' => includes needle hay'
     end.

(** Matching under the flag [i] of a pattern made of ASCII letters: a unit
    of the subject matches a letter of the pattern when it is that letter
    in either case.  (A unit outside ASCII never canonicalises to an ASCII
    letter.) *)
Definition fold_case (c : N) : N :=
  if ((97 <=? c) && (c <=? 122))%N then (c - 32)%N else c.

Fixpoint startsWith_i (needle hay : list N) : bool :=
  match needle, hay with
  | [], _ => true
  | _ :: _, [] => false
  | a :: needle', b :: hay' =>
      (fold_case a =? fold_case b)%N && startsWith_i needle' hay'
  end.

Fixpoint includes_i (needle hay : list N) : bool :=
  startsWith_i needle hay
  || match hay with
     | [] => false
     | _ :: hay' => includes_i needle hay'
     end.

(** [/samantha|karen|zira|amelie|alice|emma|amy|joanna/i.test(s)]. *)
Definition female_names : list (list N) :=
  literal <$> ["samantha"; "karen"; "zira"; "amelie"; "alice"; "emma";
               "amy"; "joanna"].

Definition test_female_names (s : list N) : bool :=
  existsb (λ n, includes_i n s) female_names.

Definition cuteVoiceNames : list (list N) :=
  literal <$> ["Samantha"; "Karen"; "Moira"; "Tessa"; "Microsoft Zira";
               "Google UK English Female"; "Google US English Female";
               "Amelie"; "Kyoko"].

(** A [SpeechSynthesisVoice], as far as the script looks at it. *)
Record SpeechSynthesisVoice := mkVoice {
  name : list N;
  lang : list N
}.

(** A [SpeechSynthesisUtterance]. *)
Record Utterance := mkUtterance {
  text : list N;
  voice : option SpeechSynthesisVoice;
  pitch : QArith_base.Q;
  rate : QArith_base.Q;
  uvolume : QArith_base.Q
}.

(** The fields of the sound manager that the voice uses, and the speech
    synthesis of the browser: whether [window.speechSynthesis] exists, what
    [getVoices()] answers, the utterances handed to [speak] and not
    cancelled, and how many [voiceschanged] listeners were added. *)
Record State := mkState {
  voiceEnabled : bool;
  speechSynth : bool;
  currentUtterance : option Utterance;
  preferredVoice : option SpeechSynthesisVoice;
  volume : QArith_base.Q;
  synthAvailable : bool;
  voices : list SpeechSynthesisVoice;
  queue : list Utterance;
  voiceschanged : nat;
  warnings : list string
}.

Definition set_voiceEnabled (b : bool) (s : State) : State :=
  mkState b (speechSynth s) (currentUtterance s) (preferredVoice s) (volume s)
    (synthAvailable s) (voices s) (queue s) (voiceschanged s) (warnings s).
Definition set_speechSynth (b : bool) (s : State) : State :=
  mkState (voiceEnabled s) b (currentUtterance s) (preferredVoice s) (volume s)
    (synthAvailable s) (voices s) (queue s) (voiceschanged s) (warnings s).
Definition set_currentUtterance (u : option Utterance) (s : State) : State :=
  mkState (voiceEnabled s) (speechSynth s) u (preferredVoice s) (volume s)
    (synthAvailable s) (voices s) (queue s) (voiceschanged s) (warnings s).
Definition set_preferredVoice (v : option SpeechSynthesisVoice) (s : State)
  : State :=
  mkState (voiceEnabled s) (speechSynth s) (currentUtterance s) v (volume s)
    (synthAvailable s) (voices s) (queue s) (voiceschanged s) (warnings s).
Definition set_queue (q : list Utterance) (s : State) : State :=
  mkState (voiceEnabled s) (speechSynth s) (currentUtterance s)
    (preferredVoice s) (volume s)
    (synthAvailable s) (voices s) q (voiceschanged s) (warnings s).
Definition set_voices (vs : list SpeechSynthesisVoice) (s : State) : State :=
  mkState (voiceEnabled s) (speechSynth s) (currentUtterance s)
    (preferredVoice s) (volume s)
    (synthAvailable s) vs (queue s) (voiceschanged s) (warnings s).
Definition add_voiceschanged (s : State) : State :=
  mkState (voiceEnabled s) (speechSynth s) (currentUtterance s)
    (preferredVoice s) (volume s)
    (synthAvailable s) (voices s) (queue s) (S (voiceschanged s)) (warnings s).
Definition warn (msg : string) (s : State) : State :=
  mkState (voiceEnabled s) (speechSynth s) (currentUtterance s)
    (preferredVoice s) (volume s)
    (synthAvailable s) (voices s) (queue s) (voiceschanged s)
    (warnings s ++ [msg]).

(** The sound manager literal, in a browser with the given speech
    synthesis. *)
Definition initial (available : bool) (vs : list SpeechSynthesisVoice)
  : State :=
  mkState true false None None (QArith_base.Qmake 1 2) available vs [] 0 [].

(** Lower case on the ASCII letters, for the samples. *)
Definition asciiLower (s : list N) : list N :=
  (λ c, if ((65 <=? c) && (c <=? 90))%N then (c + 32)%N else c) <$> s.

Section Lowercase.

(** [String.prototype.toLowerCase]. *)
Variable toLowerCase : list N → list N.

(** The loop over [cuteVoiceNames]: the first name some voice includes
    decides, and among the voices the first one that includes it. *)
Fixpoint firstByName (names : list (list N))
    (vs : list SpeechSynthesisVoice) : option SpeechSynthesisVoice :=
  match names with
  | [] => None
  | n :: names' =>
      match List.find (λ v, includes n (name v)) vs with
      | Some v => Some v
      | None => firstByName names' vs
      end
  end.

Definition soundsFemale (v : SpeechSynthesisVoice) : bool :=
  includes (literal "female") (toLowerCase (name v))
  || includes (literal "woman") (toLowerCase (name v))
  || test_female_names (name v).

(** The closure [findCuteVoice] of [initVoice]. *)
Definition findCuteVoice (s : State) : State :=
  let vs := if speechSynth s then voices s else [] in
  match firstByName cuteVoiceNames vs with
  | Some v => set_preferredVoice (Some v) s
  | None =>
      match List.find soundsFemale vs with
      | Some v => set_preferredVoice (Some v) s
      | None =>
          match vs with
          | v :: _ => set_preferredVoice (Some v) s
          | [] => s
          end
      end
  end.

Definition initVoice (s : State) : State :=
  if negb (synthAvailable s) then
    set_voiceEnabled false (warn "Speech synthesis not supported" s)
  else
    let s1 := set_speechSynth true s in
    if (0 <? length (voices s1))%nat then findCuteVoice s1
    else add_voiceschanged s1.

(** The browser has loaded its voices: [getVoices()] answers [vs] from now
    on, and every [voiceschanged] listener runs. *)
Definition onVoicesChanged (vs : list SpeechSynthesisVoice) (s : State)
  : State :=
  Nat.iter (voiceschanged s) findCuteVoice (set_voices vs s).

End Lowercase.

Definition stopSpeaking (s : State) : State :=
  let s1 := if speechSynth s then set_queue [] s else s in
  set_currentUtterance None s1.

Definition speakMessage (message : list N) (s : State) : State :=
  if negb (voiceEnabled s) || negb (speechSynth s) then s
  else
    let s1 := stopSpeaking s in
    let utterance :=
      mkUtterance (cleanMessage message) (preferredVoice s1)
        (QArith_base.Qmake 13 10) (QArith_base.Qmake 21 20)
        (QArith_base.Qmult (volume s1) (QArith_base.Qmake 3 2)) in
    let s2 := set_currentUtterance (Some utterance) s1 in
    set_queue (queue s2 ++ [utterance]) s2.

Definition setVoiceEnabled (enabled : bool) (s : State) : State :=
  let s1 := set_voiceEnabled enabled s in
  if negb enabled then stopSpeaking s1 else s1.

(** The browser has finished speaking the utterance at the head of its
    queue. *)
Definition onUtteranceEnd (s : State) : State := set_queue (tail (queue s)) s.

(** What can happen to the voice of a page. *)
Inductive Call :=
| CallInitVoice
| CallSpeakMessage (message : list N)
| CallStopSpeaking
| CallSetVoiceEnabled (enabled : bool)
| VoicesChanged (vs : list SpeechSynthesisVoice)
| UtteranceEnds.

Definition call (toLowerCase : list N → list N) (c : Call) (s : State)
  : State :=
  match c with
  | CallInitVoice => initVoice toLowerCase s
  | CallSpeakMessage message => speakMessage message s
  | CallStopSpeaking => stopSpeaking s
  | CallSetVoiceEnabled enabled => setVoiceEnabled enabled s
  | VoicesChanged vs => onVoicesChanged toLowerCase vs s
  | UtteranceEnds => onUtteranceEnd s
  end.

Definition calls (toLowerCase : list N → list N) (cs : list Call) (s : State)
  : State :=
  foldl (λ s c, call toLowerCase c s) s cs.

End Voice.

(** White space occurs only as single plain spaces; [after_space] says that
    the unit before the text was white space. *)
Fixpoint single_spaced (after_space : bool) (s : list N) : Prop :=
  match s with
  | [] => True
  | c :: s' =>
      if Voice.is_space c
      then c = 32%N ∧ after_space = false ∧ single_spaced true s'
      else single_spaced false s'
  end.

(** What is queued for speaking is at most the current utterance, one made
    by [speakMessage]; nothing is queued while the voice is off or there is
    no speech synthesis. *)
Definition speech_inv (s : Voice.State) : Prop :=
  (length (Voice.queue s) ≤ 1)%nat
  ∧ (∀ u, u ∈ Voice.queue s →
       Voice.currentUtterance s = Some u
       ∧ (∃ message, Voice.text u = Voice.cleanMessage message)
       ∧ Voice.pitch u = QArith_base.Qmake 13 10
       ∧ Voice.rate u = QArith_base.Qmake 21 20)
  ∧ (Voice.voiceEnabled s = false → Voice.queue s = [])
  ∧ (Voice.speechSynth s = true → Voice.synthAvailable s = true)
  ∧ (Voice.speechSynth s = false → Voice.queue s = []).

(** Three voices of a browser, none of them first in the list of
    preferred names. *)
Definition sample_voices : list Voice.SpeechSynthesisVoice :=
  [Voice.mkVoice (Voice.literal "Alex") (Voice.literal "en-US");
   Voice.mkVoice (Voice.literal "Google UK English Female")
     (Voice.literal "en-GB");
   Voice.mkVoice (Voice.literal "Karen") (Voice.literal "en-AU")].

(** ** Helpers the tour script defines beside the state machine *)

(** [pageOrder] and [getNextPage]. *)
Definition pageOrder : list string :=
  ["/"; "/about"; "/skills"; "/projects"; "/experience"; "/contact"; "/blog"].

(** [Array.prototype.indexOf]: the first index, or -1. *)
Definition indexOf (x : string) (l : list string) : Z :=
  match list_find (λ y, y = x) l with
  | Some (i, _) => Z.of_nat i
  | None => (-1)%Z
  end.

Definition getNextPage (currentPage : string) : option string :=
  let currentIndex := indexOf currentPage pageOrder in
  if (currentIndex =? -1)%Z
     || (Z.of_nat (length pageOrder) - 1 <=? currentIndex)%Z
  then None
  else pageOrder !! Z.to_nat (currentIndex + 1).

(** [a || '/'] on a string that may be missing: the right operand is taken
    for [undefined] and for the empty string. *)
Definition or_root (s : option string) : string :=
  match truthy_string s with
  | Some p => p
  | None => "/"
  end.

Definition isStepOnCurrentPage (step : TourStep) : Exec bool :=
  currentPage ← getCurrentPage;
  let stepPage := or_root (page step) in
  let normalizedCurrent :=
    if bool_decide (currentPage = EmptyString) then "/" else currentPage in
  let normalizedStep :=
    if bool_decide (stepPage = EmptyString) then "/" else stepPage in
  mret (bool_decide (normalizedCurrent = normalizedStep)).

(** ** Specification vocabulary *)

(** Weakest precondition of an execution, with one postcondition for a
    normal return and one for an exception. *)
Definition wp {A} (m : Exec A) (Q : A → World → Prop) (E : World → Prop)
    (w : World) : Prop :=
  match m w with
  | Ok a w' => Q a w'
  | Throw w' => E w'
  end.

(** [m] maintains [P]; if it throws, it leaves a world in [E]. *)
Definition maintains {A} (P E : World → Prop) (m : Exec A) : Prop :=
  ∀ w, P w → wp m (λ _, P) E w.

(** The exceptional postcondition of an execution that cannot throw. *)
Definition never : World → Prop := λ _, False.

(** The script in [tourSteps] is one the registry hands out. *)
Definition loaded (w : World) : Prop :=
  ∃ p, tourSteps w = getTourStepsForPage p.

(** [0 <= currentStep < tourSteps.length]. *)
Definition index_in_range (w : World) : Prop :=
  (0 ≤ currentStep (state w) < Z.of_nat (length (tourSteps w)))%Z.

(** A reveal can only be in progress on a page that has a speech bubble. *)
Definition typing_needs_bubble (w : World) : Prop :=
  isTyping (state w) = true → hasSpeechBubble (env w) = true.

Definition tour_inv (w : World) : Prop :=
  loaded w ∧ index_in_range w ∧ typing_needs_bubble w.

(** Every pending ambient-purr timer is the one [purrInterval] names. *)
Definition purr_inv (w : World) : Prop :=
  ∀ t, t ∈ timers w → callback t = CbRandomPurr →
       purrInterval (sound w) = Some (handle t).

(** The audible part of the trace. *)
Definition is_sound (e : Event) : bool :=
  match e with
  | SoundTyping | SoundMeow | SoundPurr | SoundSuccess => true
  | _ => false
  end.

Definition sounds (w : World) : list Event := filter is_sound (trace w).

(** Audio is switched off and what has been heard so far is [heard]. *)
Definition muted (heard : list Event) (w : World) : Prop :=
  isEnabled (sound w) = false ∧ sounds w = heard.

Definition is_skipTyping (e : Event) : bool :=
  match e with
  | BubbleSkipTyping _ => true
  | _ => false
  end.

(** The trace is [before] followed by events none of which is a call of
    [skipTyping]. *)
Definition extends_without_skip (before : list Event) (w : World) : Prop :=
  ∃ evs, trace w = before ++ evs ∧ Forall (λ e, is_skipTyping e = false) evs.

(** What a write to the storage leaves when it sits, as all of them do,
    inside [try { ... } catch { }]: the update if the storage accepts it,
    the world as it was otherwise. *)
Definition storage_set (k v : string) (w : World) : World :=
  match mode (localStorage w) with
  | StorageOk => with_storage (λ m, <[k := v]> m) w
  | _ => w
  end.

Definition storage_remove (k : string) (w : World) : World :=
  match mode (localStorage w) with
  | StorageDenied => w
  | _ => with_storage (λ m, delete k m) w
  end.

(** The state and the storage once [completeTour] has run, before the
    collaborators are told. *)
Definition completed (w : World) : World :=
  storage_remove TOUR_ACTIVE_KEY
    (storage_remove TOUR_STEP_KEY
      (storage_set STORAGE_KEY "true"
        (with_state (set_hasCompleted true)
          (with_state (set_isActive false) w)))).

(** The event of a call that is made only under a guard. *)
Definition optional (b : bool) (e : Event) : list Event :=
  if b then [e] else [].

(** No pending timer would resume a tour carried over from another page. *)
Definition no_resume_timer (w : World) : Prop :=
  ∀ t, t ∈ timers w → callback t ≠ CbResumeTour.

(** ** Sample pages *)

(** A page with every collaborator mounted and audio available, in a
    browser for which no reference but an absolute path stays on the origin
    of the document (so it is for the references of the sample pages
    below); a storage that works and holds nothing yet, and the home page
    without query or fragment. *)
Definition full_env : Env := mkEnv true true true true true (λ _, None).
Definition empty_storage : Storage := mkStorage StorageOk ∅.
Definition home_page : Location :=
  mkLocation "https://portfolio.example" "/" [] EmptyString.
Definition zero : QArith_base.Q := QArith_base.Qmake 0 1.

(** A first visit of the home page: the components settle (timer 1), the
    tour starts by itself (timer 2). *)
Definition first_visit : World :=
  run [TimerFires 1 zero; TimerFires 2 zero]
    (pageLoad full_env empty_storage home_page).

(** The same visit once the visitor has stepped to the last step of the
    home script and its reveal has finished. *)
Definition home_last_step : World :=
  run [RevealDone; Call CmdNext; RevealDone; Call CmdNext;
       RevealDone; Call CmdNext; RevealDone; Call CmdNext;
       RevealDone; Call CmdNext; RevealDone] first_visit.

(** The first visit once audio has been switched off, and the same once
    [startAmbientPurr] has been called while it is off. *)
Definition audio_off : World :=
  final (soundManager.setEnabled false first_visit).
Definition purr_rearmed : World :=
  final (soundManager.startAmbientPurr audio_off).

(** The actions whose calls into the sound manager all satisfy [quiet]. *)
Definition admits (quiet : SoundCall → Prop) (a : Action) : Prop :=
  match a with
  | Sound c => quiet c
  | _ => True
  end.

Definition any_call : SoundCall → Prop := λ _, True.

(** ** Vocabulary for whole page loads *)

(** What a guarded read of the key [k] answers: [true] only when the
    storage can be read and holds the string ["true"] under [k]. *)
Definition reads_true (k : string) (st : Storage) : bool :=
  match mode st with
  | StorageDenied => false
  | _ => bool_decide (items st !! k = Some "true")
  end.

(** The world in which the 100 ms callback of [initTour] starts on a page
    on which nothing else has happened: the script of page [p] is loaded,
    the timer has left the list, the interaction listeners are installed. *)
Definition settling (e : Env) (st : Storage) (l : Location) (p : string)
  : World :=
  mkWorld e (getTourStepsForPage p) (mkState 0 false false false) false
    (mkSound false true (QArith_base.Qmake 1 2) None)
    st l None [] 2%positive false true 0 [].

(** The parts of the world that belong to the tour are those of [w0]. *)
Definition tour_unchanged (w0 w : World) : Prop :=
  state w = state w0 ∧ tourSteps w = tourSteps w0
  ∧ localStorage w = localStorage w0 ∧ location w = location w0
  ∧ pendingNav w = pendingNav w0 ∧ navListeners w = navListeners w0.

(** More sample pages: other paths, a query that asks for the tour, and
    storages left by earlier pages. *)
Definition at_path (path : string) : Location :=
  mkLocation "https://portfolio.example" path [] EmptyString.
Definition home_with_marker : Location :=
  mkLocation "https://portfolio.example" "/" [(TOUR_PARAM, "1")] "#top".
(** A document whose path has an empty first segment, so that the path
    reads as a reference to another host. *)
Definition foreign_with_marker : Location :=
  mkLocation "https://portfolio.example" "//evil.example/x"
    [(TOUR_PARAM, "1")] "#top".
Definition handed_over : Storage :=
  mkStorage StorageOk {[ TOUR_ACTIVE_KEY := "true" ]}.
Definition full_storage : Storage := mkStorage StorageFull ∅.
Definition denied_storage : Storage := mkStorage StorageDenied ∅.

(** The first visit with the first step fully revealed, and with the
    second one. *)
Definition first_step_shown : World := run [RevealDone] first_visit.
Definition second_step_shown : World :=
  run [RevealDone; Call CmdNext; RevealDone] first_visit.

(** ** Vocabulary for the sounds and for what the visitor is shown *)

(** The pending timers of the ambient purr. *)
Definition purr_timers (w : World) : list Timer :=
  filter (λ t, callback t = CbRandomPurr) (timers w).

(** Handles are handed out once: the pending timers have distinct handles,
    all below the next one. *)
Definition handles_fresh (w : World) : Prop :=
  NoDup (handle <$> timers w)
  ∧ ∀ t, t ∈ timers w → (handle t < nextHandle w)%positive.

(** [purrInterval] names the one pending purr timer, or is [null] and there
    is none. *)
Definition chain_inv (w : World) : Prop :=
  handles_fresh w
  ∧ match purrInterval (sound w) with
    | Some h => ∃ d, purr_timers w = [mkTimer h d CbRandomPurr]
    | None => purr_timers w = []
    end.

(** Nothing has been heard unless an audio context exists. *)
Definition context_before_sound (w : World) : Prop :=
  audioContext (sound w) = false → sounds w = [].

(** The browser offers no audio and no context exists. *)
Definition unsupported (w : World) : Prop :=
  audioSupported (env w) = false ∧ audioContext (sound w) = false.

Definition volume_in_range (w : World) : Prop :=
  QArith_base.Qle (ms 0) (volume (sound w))
  ∧ QArith_base.Qle (volume (sound w)) (ms 1).

(** The step counter of the speech bubble shows [c] of [n] with
    [1 <= c <= n]. *)
Definition counter_ok (e : Event) : Prop :=
  match e with
  | BubbleSetStep c n => (1 ≤ c ≤ n)%Z
  | _ => True
  end.

Definition counter_inv (w : World) : Prop :=
  index_in_range w ∧ Forall counter_ok (trace w).

(** A browser without Web Audio, and a click on the mascot. *)
Definition no_web_audio : Env :=
  mkEnv true true true true false (λ _, None).
Definition on_mascot : ClickTarget := mkClick false false false true false.

(** ** Vocabulary for the single-page script and for the purr delays *)

(** Nothing that reaches beyond the page has changed since [w0]: no
    navigation was requested, no timer set or cleared, the URL and the
    sound manager are as they were, nothing more was heard and the
    cross-page flag is untouched. *)
Definition stays_on_page (w0 w : World) : Prop :=
  pendingNav w = pendingNav w0 ∧ timers w = timers w0
  ∧ location w = location w0 ∧ sound w = sound w0
  ∧ sounds w = sounds w0
  ∧ storage w !! TOUR_ACTIVE_KEY = storage w0 !! TOUR_ACTIVE_KEY.

(** The delays the ambient purr is scheduled with: two seconds for the
    first one, between five and ten seconds after that. *)
Definition purr_delay_ok (d : QArith_base.Q) : Prop :=
  d = ms 2000 ∨ (QArith_base.Qle (ms 5000) d ∧ QArith_base.Qle d (ms 10000)).

Definition purr_delays_ok (w : World) : Prop :=
  ∀ t, t ∈ timers w → callback t = CbRandomPurr → purr_delay_ok (delay t).

(** [Math.random()] answers a number from 0 up to, not including, 1. *)
Definition unit_random (a : Action) : Prop :=
  match a with
  | TimerFires _ rnd =>
      QArith_base.Qle (ms 0) rnd ∧ QArith_base.Qlt rnd (ms 1)
  | _ => True
  end.

(** The single-page tour, started on the home page. *)
Definition single_page_started : World :=
  final (SinglePage.startTour (initialWorld full_env empty_storage home_page)).

(** The script in [tourSteps] is the one of the page at path [path], and
    the document is still at that path. *)
Definition script_of_path (path : string) (w : World) : Prop :=
  pathname (location w) = path
  ∧ tourSteps w
    = getTourStepsForPage
        (if endsWithSlash path && negb (bool_decide (path = "/"))
         then dropLast path else path).

(** * Program logic *)

Section Rules.
Context {A B : Type}.
Implicit Types (P E : World → Prop) (w : World).

Lemma wp_mono (m : Exec A) (Q Q' : A → World → Prop) E E' w :
  wp m Q E w →
  (∀ a w', Q a w' → Q' a w') → (∀ w', E w' → E' w') →
  wp m Q' E' w.
Proof. unfold wp. destruct (m w); auto. Qed.

Lemma wp_bind (m : Exec A) (k : A → Exec B) (Q : B → World → Prop) E w :
  wp m (λ a w', wp (k a) Q E w') E w → wp (m ≫= k) Q E w.
Proof. unfold wp, mbind, Exec_bind. destruct (m w); auto. Qed.

Lemma wp_final (m : Exec A) (R : World → Prop) w :
  wp m (λ _, R) R w → R (final (m w)).
Proof. unfold wp. destruct (m w); auto. Qed.

Lemma maintains_bind P E (m : Exec A) (k : A → Exec B) :
  maintains P E m → (∀ a, maintains P E (k a)) → maintains P E (m ≫= k).
Proof.
  intros Hm Hk w Hw. apply wp_bind.
  eapply wp_mono; [apply Hm, Hw | | auto].
  intros a w' Hw'. by apply Hk.
Qed.

Lemma maintains_ret P E (a : A) : maintains P E (mret a).
Proof. by intros w Hw. Qed.

Lemma maintains_gets P E (f : World → A) : maintains P E (gets f).
Proof. by intros w Hw. Qed.

Lemma maintains_throw P E : (∀ w, P w → E w) → maintains P E (@throw A).
Proof. intros H w Hw. by apply H. Qed.

Lemma maintains_member P E (o : option A) (f : A → B) :
  (∀ w, P w → E w) → maintains P E (member o f).
Proof. intros H w Hw. destruct o; [done | by apply H]. Qed.

Lemma maintains_if P E (b : bool) (m1 m2 : Exec A) :
  maintains P E m1 → maintains P E m2 →
  maintains P E (if b then m1 else m2).
Proof. by destruct b. Qed.

Lemma maintains_final P (m : Exec A) w :
  maintains P P m → P w → P (final (m w)).
Proof. intros H Hw. by apply wp_final, H. Qed.

Lemma maintains_weaken P E E' (m : Exec A) :
  maintains P E m → (∀ w, E w → E' w) → maintains P E' m.
Proof. intros H HE w Hw. eapply wp_mono; [by apply H | auto | auto]. Qed.
End Rules.

Lemma maintains_modify P E (g : World → World) :
  (∀ w, P w → P (g w)) → maintains P E (modify g).
Proof. intros H w Hw. by apply H. Qed.

Lemma maintains_when P E (b : bool) (m : Exec unit) :
  (b = true → maintains P E m) → maintains P E (when b m).
Proof. destruct b; [auto | intros _; apply maintains_ret]. Qed.

Lemma wp_bind_ok {A B} (m : Exec A) (k : A → Exec B) Q E w a w' :
  m w = Ok a w' → wp (k a) Q E w' → wp (m ≫= k) Q E w.
Proof. intros Hm Hk. apply wp_bind. unfold wp at 1. by rewrite Hm. Qed.

Lemma wp_call {A B} P (m : Exec A) (k : A → Exec B) Q E w :
  maintains P E m → P w → (∀ a w', P w' → wp (k a) Q E w') →
  wp (m ≫= k) Q E w.
Proof.
  intros Hm Hw Hk. apply wp_bind.
  eapply wp_mono; [by apply Hm | | done]. simpl. auto.
Qed.

(** An exception of the body is caught: the handler starts from the world
    the body left. *)
Lemma maintains_try_catch {A} P E (m h : Exec A) :
  maintains P P m → maintains P E h → maintains P E (try_catch m h).
Proof.
  intros Hm Hh w Hw. unfold wp, try_catch.
  specialize (Hm w Hw). unfold wp in Hm.
  destruct (m w) as [a w'|w']; [done | by apply Hh].
Qed.

Lemma maintains_getItem P k :
  maintains P P (localStorage_getItem k).
Proof.
  intros w Hw. unfold wp, localStorage_getItem.
  by destruct (mode (localStorage w)).
Qed.

Lemma maintains_setItem P k v :
  (∀ w, P w → P (with_storage (λ m, <[k:=v]> m) w)) →
  maintains P P (localStorage_setItem k v).
Proof.
  intros H w Hw. unfold wp, localStorage_setItem.
  destruct (mode (localStorage w)); auto.
Qed.

Lemma maintains_removeItem P k :
  (∀ w, P w → P (with_storage (λ m, delete k m) w)) →
  maintains P P (localStorage_removeItem k).
Proof.
  intros H w Hw. unfold wp, localStorage_removeItem.
  destruct (mode (localStorage w)); auto.
Qed.

Lemma maintains_setTimeout P E cb d :
  (∀ w, P w → P (with_nextHandle Pos.succ
                   (with_timers (λ ts, ts ++ [mkTimer (nextHandle w) d cb]) w))) →
  maintains P E (setTimeout cb d).
Proof. intros H w Hw. by apply H. Qed.

Create HintDb tour discriminated.

Ltac head_of t :=
  lazymatch t with
  | ?f _ => head_of f
  | _ => t
  end.

(** Syntax-directed proof of [maintains P E m]: [atom] closes the goals
    [P (g w)] left, under [P w], by the primitive updates; calls for which
    the hint database [tour] has a lemma are not entered. *)
Ltac maintain atom :=
  lazymatch goal with
  | |- maintains _ _ (mbind _ _) =>
      apply maintains_bind; [maintain atom | intros ?; maintain atom]
  | |- maintains _ _ (mret _) => apply maintains_ret
  | |- maintains _ _ (gets _) => apply maintains_gets
  | |- maintains _ _ throw => apply maintains_throw; solve [auto]
  | |- maintains _ _ (member (Some _) _) => apply maintains_ret
  | |- maintains _ _ (member _ _) => apply maintains_member; solve [auto]
  | |- maintains _ _ (when _ _) =>
      apply maintains_when; intros ?; maintain atom
  | |- maintains _ _ (try_catch _ _) =>
      apply maintains_try_catch; maintain atom
  | |- maintains _ _ (match ?o with _ => _ end) =>
      lazymatch type of o with
      | bool => apply maintains_if
      | _ => destruct o
      end; maintain atom
  | |- maintains _ _ (modify _) =>
      apply maintains_modify; intros ? ?; cbv beta in *; atom
  | |- maintains _ _ (emit _) =>
      apply maintains_modify; intros ? ?; cbv beta in *; atom
  | |- maintains _ _ (localStorage_getItem _) => apply maintains_getItem
  | |- maintains _ _ (localStorage_setItem _ _) =>
      apply maintains_setItem; intros ? ?; cbv beta in *; atom
  | |- maintains _ _ (localStorage_removeItem _) =>
      apply maintains_removeItem; intros ? ?; cbv beta in *; atom
  | |- maintains _ _ (setTimeout _ _) =>
      apply maintains_setTimeout; intros ? ?; cbv beta in *; atom
  | |- maintains _ _ ?m =>
      first [ solve [auto with tour]
            | let h := head_of m in unfold h; maintain atom ]
  end.

(** * Facts about the registry *)

Lemma pageTours_lookup p script :
  pageTours !! p = Some script → (p, script) ∈ pageTours_entries.
Proof. apply elem_of_list_to_map_2. Qed.

Lemma pageTours_home : pageTours !! "/" = Some homeTour.
Proof. reflexivity. Qed.

Lemma pageTours_cases p script :
  pageTours !! p = Some script →
  script ∈ [homeTour; aboutTour; skillsTour; projectsTour; experienceTour;
            contactTour; blogTour].
Proof.
  intros H%pageTours_lookup. unfold pageTours_entries in H.
  repeat (apply elem_of_cons in H as [H|H]; [injection H as -> ->; set_solver|]).
  by apply elem_of_nil in H.
Qed.

Lemma getTourStepsForPage_cases p :
  getTourStepsForPage p ∈
    [homeTour; aboutTour; skillsTour; projectsTour; experienceTour;
     contactTour; blogTour].
Proof.
  unfold getTourStepsForPage. destruct (pageTours !! p) eqn:Hp.
  - by eapply pageTours_cases.
  - rewrite pageTours_home. set_solver.
Qed.

Lemma getTourStepsForPage_nonempty p : getTourStepsForPage p ≠ [].
Proof.
  pose proof (getTourStepsForPage_cases p) as H.
  repeat (apply elem_of_cons in H as [->|H]; [done|]).
  by apply elem_of_nil in H.
Qed.

(** No registered step has an empty [navigateTo]: for the registry,
    truthiness of the member and its presence coincide. *)
Lemma registered_navigateTo_truthy p step :
  step ∈ getTourStepsForPage p →
  truthy_string (navigateTo step) = navigateTo step.
Proof.
  pose proof (getTourStepsForPage_cases p) as H.
  repeat (apply elem_of_cons in H as [->|H];
    [intros Hs; repeat (apply elem_of_cons in Hs as [->|Hs]; [done|]);
     by apply elem_of_nil in Hs|]).
  by apply elem_of_nil in H.
Qed.

(** * Invariants of a page *)

Lemma never_final {A} P (m : Exec A) w :
  maintains P never m → P w → P (final (m w)) ∧ returned (m w) = true.
Proof.
  intros Hm Hw. specialize (Hm w Hw). unfold wp, never in Hm.
  by destruct (m w).
Qed.

Lemma maintains_never P {A} (m : Exec A) :
  maintains P never m → maintains P P m.
Proof. intros H. by apply (maintains_weaken _ _ _ _ H). Qed.

Lemma run_snoc acts a w : run (acts ++ [a]) w = perform a (run acts w).
Proof. unfold run. by rewrite foldl_app. Qed.

Lemma getCurrentPage_pure w : ∃ p, getCurrentPage w = Ok p w.
Proof.
  unfold getCurrentPage, mbind, Exec_bind, gets.
  destruct (_ && _); eauto.
Qed.

(** Finish a [wp] goal with the syntax-directed rules. *)
Ltac wp_maintain P E atom :=
  match goal with |- wp ?m _ _ _ =>
    let Hm := fresh "Hm" in
    assert (maintains P E m) as Hm by maintain atom;
    eapply wp_mono; [apply Hm; try assumption | simpl; auto | simpl; auto]
  end.

(** What is established for one kind of action is established for all the
    actions of a page, and for every run. *)
Section Perform.
Variable P : World → Prop.
Variable quiet : SoundCall → Prop.
Hypothesis P_command : ∀ c, maintains P P (runCommand c).
Hypothesis P_sound : ∀ c, quiet c → maintains P P (runSoundCall c).
Hypothesis P_keydown : ∀ key, maintains P P (onKeydown key).
Hypothesis P_click : ∀ t, maintains P P (onClick t).
Hypothesis P_interaction : maintains P P initSoundsOnInteraction.
Hypothesis P_timer : ∀ h rnd w, P w → P (timerFires h rnd w).
Hypothesis P_reveal : ∀ w, P w → P (revealDone w).

Lemma listener_maintains b l w :
  maintains P P l → P w → P (listener b l w).
Proof.
  intros Hl Hw. unfold listener. destruct b; [|done].
  by apply maintains_final.
Qed.

Lemma perform_maintains a w : admits quiet a → P w → P (perform a w).
Proof.
  intros Ha Hw. destruct a as [c|c|key|t|h rnd|]; simpl.
  - by apply maintains_final.
  - apply listener_maintains; [by apply P_sound | done].
  - by repeat apply listener_maintains.
  - by repeat apply listener_maintains.
  - by apply P_timer.
  - by apply P_reveal.
Qed.

Lemma run_maintains acts w :
  Forall (admits quiet) acts → P w → P (run acts w).
Proof.
  induction acts as [|a acts IH] using rev_ind; [done|].
  intros [Hacts Ha]%Forall_app Hw. apply Forall_inv in Ha.
  rewrite run_snoc. apply perform_maintains; auto.
Qed.
End Perform.

(** A timer that fires leaves the list; for an invariant that does not
    look at the pending timers, what matters is its callback. *)
Lemma timerFires_maintains (P : World → Prop) h rnd w :
  (∀ f w, P w → P (with_timers f w)) →
  (∀ cb, maintains P P (runCallback cb rnd)) →
  P w → P (timerFires h rnd w).
Proof.
  intros Ht Hcb Hw. unfold timerFires.
  destruct (list_find _ _) as [[? t]|]; [|done].
  apply maintains_final; auto.
Qed.

(** ** The index stays inside the script *)

Ltac index_atom :=
  idtac; match goal with H : index_in_range _ |- _ => exact H end.

Lemma getCurrentStep_defined w :
  index_in_range w →
  ∃ step, getCurrentStep w = Ok (Some step) w
          ∧ tourSteps w !! Z.to_nat (currentStep (state w)) = Some step.
Proof.
  intros [H0 Hn]. unfold getCurrentStep, gets.
  destruct (Z.ltb_spec (currentStep (state w)) 0) as [|_]; [lia|].
  destruct (tourSteps w !! Z.to_nat (currentStep (state w))) as [s|] eqn:Hs.
  - eauto.
  - apply lookup_ge_None in Hs. lia.
Qed.

(** Rendering reads members of the current step: it cannot throw when the
    index is in range, and it moves neither the index nor the script. *)
Lemma renderStep_index : maintains index_in_range never renderStep.
Proof.
  intros w Hw. unfold renderStep.
  destruct (getCurrentStep_defined w) as (step & Hstep & _); [done|].
  eapply wp_bind_ok; [exact Hstep|].
  eapply wp_bind_ok; [reflexivity|].
  wp_maintain index_in_range never index_atom.
Qed.
#[export] Hint Resolve renderStep_index : tour.

(** Advancing: the index grows only below the last index. *)
Lemma nextStep_index : maintains index_in_range never nextStep.
Proof.
  intros w Hw. unfold nextStep.
  eapply wp_bind_ok; [reflexivity|]. eapply wp_bind_ok; [reflexivity|].
  destruct (isActive (state w)); simpl; [|done].
  destruct (getCurrentStep_defined w) as (step & Hstep & _); [done|].
  destruct (isTyping (state w) && hasSpeechBubble (env w)).
  - eapply wp_bind_ok; [exact Hstep|].
    wp_maintain index_in_range never index_atom.
  - eapply wp_bind_ok; [reflexivity|].
    destruct (Z.ltb_spec (currentStep (state w))
                (Z.of_nat (length (tourSteps w)) - 1)) as [Hlt|Hge].
    + eapply wp_bind_ok; [reflexivity|].
      wp_maintain index_in_range never index_atom.
      red in Hw |- *. simpl. lia.
    + eapply wp_bind_ok; [exact Hstep|].
      wp_maintain index_in_range never index_atom.
Qed.

(** Retreating: the index shrinks only above zero. *)
Lemma prevStep_index : maintains index_in_range never prevStep.
Proof.
  intros w Hw. unfold prevStep.
  eapply wp_bind_ok; [reflexivity|].
  destruct (isActive (state w)); simpl; [|done].
  destruct (Z.ltb_spec 0 (currentStep (state w))) as [Hlt|Hge]; [|done].
  eapply wp_bind_ok; [reflexivity|].
  apply renderStep_index. red in Hw |- *. simpl. lia.
Qed.

(** Starting: the script is loaded again and the index reset, so the index
    is in range afterwards whatever the world was. *)
Lemma startTour_establishes_index w :
  wp startTour (λ _, index_in_range) never w.
Proof.
  unfold startTour.
  eapply wp_bind_ok; [reflexivity|].
  eapply (wp_call (λ _, True)); [|done|].
  { maintain ltac:(idtac; exact I). }
  intros _ w1 _. unfold loadTourForCurrentPage.
  destruct (getCurrentPage_pure w1) as [p Hp].
  eapply wp_bind_ok;
    [unfold mbind, Exec_bind; rewrite Hp; reflexivity|].
  eapply wp_bind_ok; [reflexivity|].
  wp_maintain index_in_range never index_atom.
  red. simpl. pose proof (getTourStepsForPage_nonempty p).
  destruct (getTourStepsForPage p); [done | simpl; lia].
Qed.

Lemma startTour_index : maintains index_in_range never startTour.
Proof. intros w _. apply startTour_establishes_index. Qed.
#[export] Hint Resolve nextStep_index prevStep_index startTour_index : tour.

Lemma runCommand_index c : maintains index_in_range never (runCommand c).
Proof. destruct c; maintain index_atom. Qed.

Lemma perform_index a w : index_in_range w → index_in_range (perform a w).
Proof.
  apply (perform_maintains _ any_call); try done.
  - intros c. apply maintains_never, runCommand_index.
  - intros c _. destruct c; maintain index_atom.
  - intros key. apply maintains_never. maintain index_atom.
  - intros t. apply maintains_never. maintain index_atom.
  - maintain index_atom.
  - intros h rnd w' Hw'. apply timerFires_maintains; [done| |done].
    intros cb. destruct cb;
      [maintain index_atom | apply maintains_never; maintain index_atom..].
  - intros w'. unfold revealDone. by destruct (pendingReveals w').
  - by destruct a.
Qed.

(** ** The script comes from the registry *)

Ltac loaded_atom :=
  idtac; match goal with H : loaded _ |- _ => first [exact H | by eexists] end.

Lemma perform_loaded a w : loaded w → loaded (perform a w).
Proof.
  apply (perform_maintains _ any_call); try done.
  - intros c. destruct c; maintain loaded_atom.
  - intros c _. destruct c; maintain loaded_atom.
  - intros key. maintain loaded_atom.
  - intros t. maintain loaded_atom.
  - maintain loaded_atom.
  - intros h rnd w' Hw'. apply timerFires_maintains; [done| |done].
    intros cb. destruct cb; maintain loaded_atom.
  - intros w'. unfold revealDone. by destruct (pendingReveals w').
  - by destruct a.
Qed.

(** ** A reveal is in progress only where there is a speech bubble *)

Ltac typing_atom :=
  idtac; match goal with H : typing_needs_bubble _ |- _ =>
    first [exact H | intros ?; simpl in *; congruence]
  end.

Lemma renderStep_typing :
  maintains typing_needs_bubble typing_needs_bubble renderStep.
Proof.
  intros w Hw. unfold renderStep.
  eapply wp_bind_ok; [reflexivity|].
  eapply wp_bind_ok; [reflexivity|].
  set (P := λ w', typing_needs_bubble w' ∧ env w' = env w).
  eapply wp_mono with (Q := λ _, P) (E := P); [| by intros _ ? [] | by intros ? []].
  match goal with |- wp ?m _ _ _ =>
    assert (maintains P P m) as Hm
  end.
  { maintain ltac:(idtac; match goal with H : P _ |- _ =>
      destruct H as [Ht He]; split; [|exact He];
      first [exact Ht | intros _; simpl; congruence] end). }
  by apply Hm.
Qed.
#[export] Hint Resolve renderStep_typing : tour.

Lemma perform_typing a w :
  typing_needs_bubble w → typing_needs_bubble (perform a w).
Proof.
  apply (perform_maintains _ any_call); try done.
  - intros c. destruct c; maintain typing_atom.
  - intros c _. destruct c; maintain typing_atom.
  - intros key. maintain typing_atom.
  - intros t. maintain typing_atom.
  - maintain typing_atom.
  - intros h rnd w' Hw'. apply timerFires_maintains; [done| |done].
    intros cb. destruct cb; maintain typing_atom.
  - intros w' Hw'. unfold revealDone. by destruct (pendingReveals w').
  - by destruct a.
Qed.

(** ** What holds when the scripts of a page have started *)

Lemma pageLoad_eq e st l :
  ∃ p, pageLoad e st l =
       with_soundInitListeners (λ _, true)
         (with_nextHandle Pos.succ
           (with_timers (λ ts, ts ++ [mkTimer 1 (ms 100) CbInitSettled])
             (with_tourSteps (λ _, getTourStepsForPage p)
               (initialWorld e st l)))).
Proof.
  destruct (getCurrentPage_pure (initialWorld e st l)) as [p Hp].
  exists p. unfold pageLoad, startup, initTour, loadTourForCurrentPage.
  unfold mbind, Exec_bind. rewrite Hp. reflexivity.
Qed.

Lemma pageLoad_tour e st l : tour_inv (pageLoad e st l).
Proof.
  destruct (pageLoad_eq e st l) as [p ->]. split_and!.
  - by exists p.
  - red. simpl. pose proof (getTourStepsForPage_nonempty p).
    destruct (getTourStepsForPage p); [done | simpl; lia].
  - done.
Qed.

(** Every reachable world satisfies the tour invariant. *)
Lemma reachable_tour w : reachable w → tour_inv w.
Proof.
  intros (e & st & l & acts & ->).
  induction acts as [|a acts IH] using rev_ind.
  - apply pageLoad_tour.
  - rewrite run_snoc. destruct IH as (? & ? & ?).
    split_and!; [by apply perform_loaded | by apply perform_index
                | by apply perform_typing].
Qed.

(** In a reachable world no command of [window.portfolioTour] throws. *)
Lemma reachable_command_returns w c :
  reachable w → returned (runCommand c w) = true.
Proof.
  intros (_ & Hi & _)%reachable_tour.
  by apply (never_final _ _ _ (runCommand_index c)).
Qed.

(** * Persistence and emission, as equations *)

Lemma setTourActive_eq b w :
  setTourActive b w
  = Ok tt (if b then storage_set TOUR_ACTIVE_KEY "true" w
           else storage_remove TOUR_ACTIVE_KEY w).
Proof.
  unfold setTourActive, try_catch, localStorage_setItem,
    localStorage_removeItem, storage_set, storage_remove.
  by destruct b, (mode (localStorage w)).
Qed.

Lemma markTourCompleted_eq w :
  markTourCompleted w = Ok tt (storage_set STORAGE_KEY "true" w).
Proof.
  unfold markTourCompleted, try_catch, localStorage_setItem, storage_set.
  by destruct (mode (localStorage w)).
Qed.

Lemma clearSavedTourStep_eq w :
  clearSavedTourStep w = Ok tt (storage_remove TOUR_STEP_KEY w).
Proof.
  unfold clearSavedTourStep, try_catch, localStorage_removeItem, storage_remove.
  by destruct (mode (localStorage w)).
Qed.

Lemma bind_ok {A B} (m : Exec A) (k : A → Exec B) w a w' :
  m w = Ok a w' → (m ≫= k) w = k a w'.
Proof. intros H. unfold mbind, Exec_bind. by rewrite H. Qed.

Lemma storage_set_frame k v w :
  env (storage_set k v w) = env w ∧ sound (storage_set k v w) = sound w
  ∧ trace (storage_set k v w) = trace w ∧ state (storage_set k v w) = state w
  ∧ mode (localStorage (storage_set k v w)) = mode (localStorage w).
Proof.
  unfold storage_set.
  by destruct (mode (localStorage w)) eqn:E; simpl; rewrite ?E.
Qed.

Lemma storage_remove_frame k w :
  env (storage_remove k w) = env w ∧ sound (storage_remove k w) = sound w
  ∧ trace (storage_remove k w) = trace w ∧ state (storage_remove k w) = state w
  ∧ mode (localStorage (storage_remove k w)) = mode (localStorage w).
Proof.
  unfold storage_remove.
  by destruct (mode (localStorage w)) eqn:E; simpl; rewrite ?E.
Qed.

Lemma storage_set_lookup k v w k' :
  storage (storage_set k v w) !! k'
  = match mode (localStorage w) with
    | StorageOk => if decide (k = k') then Some v else storage w !! k'
    | _ => storage w !! k'
    end.
Proof.
  unfold storage_set, storage. destruct (mode (localStorage w)); try done.
  simpl. apply lookup_insert.
Qed.

Lemma storage_remove_lookup k w k' :
  storage (storage_remove k w) !! k'
  = match mode (localStorage w) with
    | StorageDenied => storage w !! k'
    | _ => if decide (k = k') then None else storage w !! k'
    end.
Proof.
  unfold storage_remove, storage. destruct (mode (localStorage w)); try done;
    simpl; apply lookup_delete.
Qed.

Lemma with_trace_nil w : with_trace (λ t, t ++ []) w = w.
Proof. destruct w. unfold with_trace. simpl. by rewrite app_nil_r. Qed.

Lemma when_emit b e w :
  when b (emit e) w = Ok tt (with_trace (λ t, t ++ optional b e) w).
Proof. destruct b; simpl; [done|]. by rewrite with_trace_nil. Qed.

Lemma audible_eq e w :
  soundManager.audible e w
  = Ok tt (with_trace
             (λ t, t ++ optional (isEnabled (sound w) && audioContext (sound w)) e) w).
Proof.
  unfold soundManager.audible, mbind, Exec_bind, gets.
  destruct (isEnabled (sound w)), (audioContext (sound w)); simpl;
    by rewrite ?with_trace_nil.
Qed.

Lemma when_audible b e w :
  when b (soundManager.audible e) w
  = Ok tt (with_trace
       (λ t, t ++ optional (b && (isEnabled (sound w) && audioContext (sound w))) e) w).
Proof. destruct b; [apply audible_eq|]. simpl. by rewrite with_trace_nil. Qed.

(** * The script registry *)

Lemma Object_prototype_names_are_no_paths :
  Forall (λ name, isPath name = false) Object_prototype_names.
Proof. by repeat constructor. Qed.

(** C7.  For every page identifier, that is, every path,
    [getTourStepsForPage] returns a non-empty list of steps: the script
    registered for the page, or the script of the home page when none is
    registered.  (A path is none of the names the registry object
    inherits, so the lookup is among the scripts.)  The last step of every
    registered script either has no [navigateTo], or names a page that has
    a registered script of its own. *)
Theorem scriptFor_nonempty_and_chained (pageId : string) :
  isPath pageId = true →
  (pageId ∉ Object_prototype_names)
  ∧ getTourStepsForPage pageId ≠ []
  ∧ getTourStepsForPage pageId = default homeTour (pageTours !! pageId)
  ∧ pageTours !! HOME_PATH = Some homeTour
  ∧ ∀ p script, pageTours !! p = Some script →
      ∃ last_step, last script = Some last_step
        ∧ (navigateTo last_step = None
           ∨ ∃ next, navigateTo last_step = Some next
                     ∧ isPath next = true
                     ∧ is_Some (pageTours !! next)).
Proof.
  intros Hpath. split_and!.
  - intros Hin.
    pose proof Object_prototype_names_are_no_paths as H.
    rewrite Forall_forall in H. rewrite (H _ Hin) in Hpath. done.
  - apply getTourStepsForPage_nonempty.
  - unfold getTourStepsForPage. by destruct (pageTours !! pageId).
  - reflexivity.
  - intros p script H%pageTours_cases.
    repeat (apply elem_of_cons in H as [->|H];
      [eexists; split; [reflexivity|]; simpl;
       first [by left
             | right; eexists; split_and!; [reflexivity | reflexivity
                                           | by eexists]]|]).
    by apply elem_of_nil in H.
Qed.

Lemma scriptFor_nonempty_and_chained_witness :
  getTourStepsForPage "/nowhere" = homeTour
  ∧ ∃ last_step, last contactTour = Some last_step
      ∧ (navigateTo last_step = None
         ∨ ∃ next, navigateTo last_step = Some next
                   ∧ isPath next = true
                   ∧ is_Some (pageTours !! next)).
Proof.
  destruct (scriptFor_nonempty_and_chained "/nowhere" eq_refl)
    as (_ & _ & Hd & _ & Hl).
  split; [exact Hd | apply (Hl "/contact"); reflexivity].
Defined.

(** * The URL marker *)

Lemma clearTourParam_eq w :
  clearTourParam w
  = match resolveReference (env w) (pathname (location w)) with
    | Some path =>
        Ok tt (with_trace (λ t, t ++ [ReplaceState (pathname (location w))])
                 (with_location
                    (λ l, mkLocation (origin l) path [] EmptyString) w))
    | None => Throw w
    end.
Proof.
  unfold clearTourParam, history_replaceState.
  unfold mbind at 1 2, Exec_bind at 1 2, gets. simpl.
  by destruct (resolveReference _ _).
Qed.




(** The strip is what [initTour] does with the marker when no tour is being
    continued from another page. *)
Lemma isTourActive_eq w :
  isTourActive w
  = Ok match mode (localStorage w) with
       | StorageDenied => false
       | _ => bool_decide (storage w !! TOUR_ACTIVE_KEY = Some "true")
       end w.
Proof.
  unfold isTourActive, try_catch, mbind, Exec_bind, localStorage_getItem.
  by destruct (mode (localStorage w)).
Qed.

(** The flag is read from the storage and from nothing else. *)
Lemma isTourActive_storage w1 w2 b :
  localStorage w2 = localStorage w1 →
  isTourActive w1 = Ok b w1 → isTourActive w2 = Ok b w2.
Proof.
  intros Hs. rewrite !isTourActive_eq. unfold storage. rewrite Hs.
  by intros [= ->].
Qed.

Lemma hasCompletedTour_eq w :
  hasCompletedTour w
  = Ok match mode (localStorage w) with
       | StorageDenied => false
       | _ => bool_decide (storage w !! STORAGE_KEY = Some "true")
       end w.
Proof.
  unfold hasCompletedTour, try_catch, mbind, Exec_bind, localStorage_getItem.
  by destruct (mode (localStorage w)).
Qed.

Lemma initTour_settled_from_url w :
  isTourActive w = Ok false w →
  searchParams_has TOUR_PARAM (search (location w)) = true →
  initTour_settled w
  = (clearTourParam;; setTimeout_ CbStartTour (ms 500))
      (with_navListeners (λ _, true) (with_navListeners (λ _, true) w)).
Proof.
  rewrite isTourActive_eq. intros [= Ha] Hs.
  unfold initTour_settled, setupKeyboardNav, setupButtonControls.
  unfold mbind at 1 2 3, Exec_bind at 1 2 3, modify at 1 2.
  set (w1 := with_navListeners _ (with_navListeners _ w)).
  rewrite isTourActive_eq.
  change (mode (localStorage w1)) with (mode (localStorage w)).
  change (storage w1) with (storage w). rewrite Ha.
  unfold mbind at 1, Exec_bind at 1, shouldStartFromUrl, gets.
  change (location w1) with (location w). by rewrite Hs.
Qed.

(** * Completing the tour *)

Lemma completed_frame w :
  env (completed w) = env w ∧ sound (completed w) = sound w
  ∧ trace (completed w) = trace w
  ∧ state (completed w) = set_hasCompleted true (set_isActive false (state w))
  ∧ mode (localStorage (completed w)) = mode (localStorage w).
Proof.
  unfold completed.
  repeat match goal with
  | |- context [storage_remove ?k ?w] =>
      destruct (storage_remove_frame k w) as (-> & -> & -> & -> & ->)
  | |- context [storage_set ?k ?v ?w] =>
      destruct (storage_set_frame k v w) as (-> & -> & -> & -> & ->)
  end.
  done.
Qed.

Lemma completeTour_eq w :
  completeTour w
  = Ok tt (with_trace (λ t, t ++
       (optional (hasSoundManager (env w) && (isEnabled (sound w) && audioContext (sound w))) SoundSuccess
        ++ optional (hasTourSpotlight (env w)) SpotlightHide
        ++ optional (hasSpeechBubble (env w)) BubbleHide
        ++ optional (hasCatGuide (env w)) (CatSetAnimation idle)))
     (completed w)).
Proof.
  unfold completeTour.
  erewrite bind_ok by reflexivity.
  erewrite bind_ok by reflexivity.
  erewrite bind_ok by apply markTourCompleted_eq.
  erewrite bind_ok by apply clearSavedTourStep_eq.
  erewrite bind_ok by apply setTourActive_eq.
  erewrite bind_ok by reflexivity.
  fold (completed w).
  destruct (completed_frame w) as (He & Hs & _). rewrite He.
  erewrite bind_ok by apply when_audible.
  erewrite bind_ok by apply when_emit.
  erewrite bind_ok by apply when_emit.
  rewrite when_emit, Hs. f_equal.
  unfold with_trace. simpl. by rewrite <- !app_assoc.
Qed.

Lemma completed_lookup w k :
  storage (completed w) !! k
  = match mode (localStorage w) with
    | StorageOk =>
        if decide (k = STORAGE_KEY) then Some "true"
        else if decide (k = TOUR_STEP_KEY) then None
        else if decide (k = TOUR_ACTIVE_KEY) then None
        else storage w !! k
    | StorageFull =>
        if decide (k = TOUR_STEP_KEY) then None
        else if decide (k = TOUR_ACTIVE_KEY) then None
        else storage w !! k
    | StorageDenied => storage w !! k
    end.
Proof.
  unfold completed.
  set (w0 := with_state _ (with_state _ w)).
  rewrite storage_remove_lookup.
  destruct (storage_remove_frame TOUR_STEP_KEY
              (storage_set STORAGE_KEY "true" w0)) as (_ & _ & _ & _ & ->).
  destruct (storage_set_frame STORAGE_KEY "true" w0) as (_ & _ & _ & _ & ->).
  rewrite storage_remove_lookup.
  destruct (storage_set_frame STORAGE_KEY "true" w0) as (_ & _ & _ & _ & ->).
  rewrite storage_set_lookup.
  change (mode (localStorage w0)) with (mode (localStorage w)).
  change (storage w0) with (storage w).
  destruct (mode (localStorage w)); repeat case_decide; by subst.
Qed.

(** What the storage answers once the tour has been completed; the trace
    plays no part in it. *)
Lemma completed_reads f w :
  (mode (localStorage w) = StorageOk →
   hasCompletedTour (with_trace f (completed w))
   = Ok true (with_trace f (completed w)))
  ∧ (∀ v, localStorage_getItem TOUR_STEP_KEY (with_trace f (completed w))
          ≠ Ok (Some v) (with_trace f (completed w)))
  ∧ isTourActive (with_trace f (completed w))
    = Ok false (with_trace f (completed w)).
Proof.
  destruct (completed_frame w) as (_ & _ & _ & _ & Hm).
  split_and!.
  - intros Hok. rewrite hasCompletedTour_eq. f_equal.
    change (mode (localStorage (with_trace f (completed w))))
      with (mode (localStorage (completed w))).
    change (storage (with_trace f (completed w)))
      with (storage (completed w)).
    by rewrite Hm, Hok, completed_lookup, Hok.
  - intros v. unfold localStorage_getItem.
    change (mode (localStorage (with_trace f (completed w))))
      with (mode (localStorage (completed w))).
    change (storage (with_trace f (completed w)))
      with (storage (completed w)).
    rewrite Hm, completed_lookup.
    by destruct (mode (localStorage w)).
  - rewrite isTourActive_eq. f_equal.
    change (mode (localStorage (with_trace f (completed w))))
      with (mode (localStorage (completed w))).
    change (storage (with_trace f (completed w)))
      with (storage (completed w)).
    rewrite Hm, completed_lookup.
    by destruct (mode (localStorage w)).
Qed.

(** C5.  [completeTour] returns with [isActive] false and [hasCompleted]
    true.  The completion flag is persisted (it reads as set afterwards
    whenever the storage accepts writes), no saved step can be read back,
    and the cross-page flag reads as unset.  The calls that leave the
    script are, in this order and each under the guard the source puts on
    it: the success sound (the sound manager exists, is enabled and has an
    audio context), [tourSpotlight.hide()], [speechBubble.hide()] and
    [catGuide.setAnimation('idle')]. *)
Theorem completeTour_postconditions (w : World) :
  ∃ w', completeTour w = Ok tt w'
    ∧ isActive (state w') = false
    ∧ hasCompleted (state w') = true
    ∧ (mode (localStorage w) = StorageOk → hasCompletedTour w' = Ok true w')
    ∧ (∀ v, localStorage_getItem TOUR_STEP_KEY w' ≠ Ok (Some v) w')
    ∧ isTourActive w' = Ok false w'
    ∧ trace w' = trace w
        ++ optional (hasSoundManager (env w)
                     && (isEnabled (sound w) && audioContext (sound w)))
             SoundSuccess
        ++ optional (hasTourSpotlight (env w)) SpotlightHide
        ++ optional (hasSpeechBubble (env w)) BubbleHide
        ++ optional (hasCatGuide (env w)) (CatSetAnimation idle).
Proof.
  eexists. split; [apply completeTour_eq|].
  destruct (completed_frame w) as (He & Hs & Ht & Hst & Hm).
  destruct (completed_reads
    (λ t, t ++
       (optional (hasSoundManager (env w)
                  && (isEnabled (sound w) && audioContext (sound w)))
          SoundSuccess
        ++ optional (hasTourSpotlight (env w)) SpotlightHide
        ++ optional (hasSpeechBubble (env w)) BubbleHide
        ++ optional (hasCatGuide (env w)) (CatSetAnimation idle))) w)
    as (Hdone & Hstep & Hflag).
  split_and!; [| | exact Hdone | exact Hstep | exact Hflag |].
  - simpl. by rewrite Hst.
  - simpl. by rewrite Hst.
  - simpl. by rewrite Ht.
Qed.

Lemma completeTour_postconditions_witness :
  ∃ w', completeTour first_visit = Ok tt w'
    ∧ hasCompletedTour w' = Ok true w'
    ∧ trace w' = trace first_visit
        ++ [SoundSuccess; SpotlightHide; BubbleHide; CatSetAnimation idle].
Proof.
  destruct (completeTour_postconditions first_visit)
    as (w' & H & _ & _ & Hc & _ & _ & Ht).
  exists w'. split_and!; [exact H | apply Hc; reflexivity | exact Ht].
Defined.

(** * Starting and restarting *)

Lemma wp_conj {A} (m : Exec A) Q1 Q2 E1 E2 w :
  wp m Q1 E1 w → wp m Q2 E2 w →
  wp m (λ a w', Q1 a w' ∧ Q2 a w') (λ w', E1 w' ∧ E2 w') w.
Proof. unfold wp. by destruct (m w). Qed.

Lemma startTour_zero_active w :
  wp startTour
    (λ _ w', currentStep (state w') = 0%Z ∧ isActive (state w') = true)
    (λ _, True) w.
Proof.
  unfold startTour.
  eapply wp_bind_ok; [reflexivity|].
  eapply (wp_call (λ _, True)); [|done|].
  { maintain ltac:(idtac; exact I). }
  intros _ w1 _.
  eapply (wp_call (λ _, True)); [|done|].
  { maintain ltac:(idtac; exact I). }
  intros _ w2 _.
  do 3 (eapply wp_bind_ok; [reflexivity|]).
  wp_maintain (λ w', currentStep (state w') = 0%Z ∧ isActive (state w') = true)
              (λ _ : World, True)
              ltac:(idtac; match goal with H : _ ∧ _ |- _ => exact H end).
  done.
Qed.

(** C4.  [startTour] returns, from any world, with [currentStep] 0 and
    [isActive] true.  So the index is 0 after any sequence of actions that
    ends with a start, and in particular after start, advance, advance,
    start, with the reveals finished before each advance. *)
Theorem startTour_resets_index (w : World) (before : list Action) :
  (∃ w', startTour w = Ok tt w'
     ∧ currentStep (state w') = 0%Z ∧ isActive (state w') = true)
  ∧ currentStep (state (run (before ++ [Call CmdStart]) w)) = 0%Z
  ∧ isActive (state (run (before ++ [Call CmdStart]) w)) = true
  ∧ currentStep (state (run [Call CmdStart; RevealDone; Call CmdNext;
                             RevealDone; Call CmdNext; Call CmdStart] w))
    = 0%Z.
Proof.
  assert (∀ w, ∃ w', startTour w = Ok tt w'
     ∧ currentStep (state w') = 0%Z ∧ isActive (state w') = true) as Hstart.
  { clear. intros w.
    pose proof (wp_conj _ _ _ _ _ _ (startTour_establishes_index w)
                  (startTour_zero_active w)) as H.
    unfold wp, never in H. destruct (startTour w) as [[] w'|]; [|tauto].
    exists w'. tauto. }
  assert (∀ acts w, currentStep (state (run (acts ++ [Call CmdStart]) w)) = 0%Z
     ∧ isActive (state (run (acts ++ [Call CmdStart]) w)) = true) as Hrun.
  { clear -Hstart. intros acts w. rewrite run_snoc. simpl.
    destruct (Hstart (run acts w)) as (w' & -> & ? & ?). done. }
  split_and!; [apply Hstart | apply Hrun | apply Hrun |].
  apply (Hrun [Call CmdStart; RevealDone; Call CmdNext; RevealDone;
               Call CmdNext]).
Qed.

(** On a first visit of the home page the two advances do move the index,
    and the restart brings it back. *)
Example restart_on_first_visit :
  currentStep (state (run [RevealDone; Call CmdNext; RevealDone; Call CmdNext]
                        first_visit)) = 2%Z
  ∧ currentStep (state (run [RevealDone; Call CmdNext; RevealDone;
                             Call CmdNext; Call CmdStart] first_visit)) = 0%Z.
Proof. split; vm_compute; reflexivity. Qed.

(** * The index invariant *)

(** C8.  A start leaves the index in range, and every command of
    [window.portfolioTour] (start, restart, skip, next, prev) returns and
    keeps it in range.  [prevStep] changes nothing at all at index 0, and
    nothing at all when the tour is not active. *)
Theorem index_stays_in_range (w0 w : World) :
  index_in_range (final (startTour w0))
  ∧ (index_in_range w →
     (∀ c, returned (runCommand c w) = true
           ∧ index_in_range (final (runCommand c w)))
     ∧ (currentStep (state w) = 0%Z → prevStep w = Ok tt w)
     ∧ (isActive (state w) = false → prevStep w = Ok tt w)).
Proof.
  split.
  - pose proof (startTour_establishes_index w0) as H.
    unfold wp, never in H. by destruct (startTour w0).
  - intros Hw. split_and!.
    + intros c. destruct (never_final _ _ _ (runCommand_index c) Hw). done.
    + intros H0. unfold prevStep, mbind, Exec_bind, gets.
      rewrite H0. by destruct (isActive (state w)).
    + intros Hi. unfold prevStep, mbind, Exec_bind, gets. by rewrite Hi.
Qed.

Lemma index_stays_in_range_witness :
  index_in_range first_visit
  ∧ index_in_range (final (runCommand CmdNext first_visit))
  ∧ prevStep first_visit = Ok tt first_visit.
Proof.
  assert (index_in_range first_visit) as Hi by (vm_compute; split; congruence).
  destruct (index_stays_in_range first_visit first_visit) as (_ & H).
  destruct (H Hi) as (Hc & H0 & _).
  split_and!; [exact Hi | apply Hc | apply H0; reflexivity].
Defined.

(** * Advancing *)

Lemma reachable_first_visit : reachable first_visit.
Proof. by eexists _, _, _, _. Qed.

(** C3.  In every reachable world where the tour is active and a reveal is
    in progress, [nextStep] returns having done exactly two things: it
    called [speechBubble.skipTyping] with the full message of the current
    step, and it cleared [isTyping].  The index is the one it was. *)
Theorem nextStep_while_typing (w : World) :
  reachable w → isActive (state w) = true → isTyping (state w) = true →
  ∃ step w',
    tourSteps w !! Z.to_nat (currentStep (state w)) = Some step
    ∧ nextStep w = Ok tt w'
    ∧ currentStep (state w') = currentStep (state w)
    ∧ isTyping (state w') = false
    ∧ trace w' = trace w ++ [BubbleSkipTyping (message step)]
    ∧ w' = with_state (set_isTyping false)
             (with_trace (λ t, t ++ [BubbleSkipTyping (message step)]) w).
Proof.
  intros (_ & Hi & Hb)%reachable_tour Hact Htyp.
  destruct (getCurrentStep_defined w Hi) as (step & Hstep & Hlook).
  exists step, (with_state (set_isTyping false)
    (with_trace (λ t, t ++ [BubbleSkipTyping (message step)]) w)).
  split; [exact Hlook|]. split; [|by split_and!].
  unfold nextStep.
  erewrite bind_ok by reflexivity. erewrite bind_ok by reflexivity.
  rewrite Hact, Htyp, (Hb Htyp). simpl.
  erewrite bind_ok by exact Hstep.
  reflexivity.
Qed.

Lemma nextStep_while_typing_witness :
  ∃ step w',
    tourSteps first_visit !! 0%nat = Some step
    ∧ nextStep first_visit = Ok tt w'
    ∧ currentStep (state w') = 0%Z
    ∧ isTyping (state w') = false.
Proof.
  destruct (nextStep_while_typing first_visit reachable_first_visit
              eq_refl eq_refl) as (step & w' & H1 & H2 & H3 & H4 & _).
  exists step, w'. split_and!; [exact H1 | exact H2 | exact H3 | exact H4].
Defined.

Lemma home_last_step_reachable : reachable home_last_step.
Proof.
  exists full_env, empty_storage, home_page.
  eexists (_ ++ _). unfold home_last_step, first_visit, run.
  by rewrite foldl_app.
Qed.

(** C1.  In a reachable world where the tour is active, no reveal is in
    progress and the index is the last one of the script: if the last step
    declares [navigateTo], [nextStep] writes the cross-page flag through the
    guarded storage write, requests the navigation to that target, and does
    nothing else (the state is untouched, so the tour is still active and
    nothing of [completeTour] has happened); if the step declares none,
    [nextStep] is [completeTour]. *)
Theorem nextStep_at_last_step (w : World) :
  reachable w → isActive (state w) = true → isTyping (state w) = false →
  currentStep (state w) = (Z.of_nat (length (tourSteps w)) - 1)%Z →
  ∃ step, last (tourSteps w) = Some step ∧
    match navigateTo step with
    | Some url =>
        ∃ w', nextStep w = Ok tt w'
          ∧ w' = with_trace (λ t, t ++ [Navigate url])
                   (with_pendingNav (λ _, Some url)
                      (storage_set TOUR_ACTIVE_KEY "true" w))
          ∧ (mode (localStorage w) = StorageOk → isTourActive w' = Ok true w')
          ∧ pendingNav w' = Some url
          ∧ trace w' = trace w ++ [Navigate url]
          ∧ state w' = state w
    | None => nextStep w = completeTour w
    end.
Proof.
  intros ([p Hp] & Hi & _)%reachable_tour Hact Htyp Hlast.
  destruct (getCurrentStep_defined w Hi) as (step & Hstep & Hlook).
  exists step.
  assert (last (tourSteps w) = Some step) as Hl.
  { rewrite last_lookup, <- Hlook. f_equal. lia. }
  split; [exact Hl|].
  assert (truthy_string (navigateTo step) = navigateTo step) as Htruthy.
  { apply (registered_navigateTo_truthy p). rewrite <- Hp.
    by eapply list_elem_of_lookup_2. }
  assert (nextStep w =
          match navigateTo step with
          | Some url => (setTourActive true;; location_assign url) w
          | None => completeTour w
          end) as Hnext.
  { unfold nextStep.
    erewrite bind_ok by reflexivity. erewrite bind_ok by reflexivity.
    rewrite Hact, Htyp. simpl.
    erewrite bind_ok by reflexivity.
    destruct (Z.ltb_spec (currentStep (state w))
                (Z.of_nat (length (tourSteps w)) - 1)) as [?|_]; [lia|].
    erewrite bind_ok by exact Hstep.
    erewrite bind_ok by reflexivity.
    rewrite Htruthy. by destruct (navigateTo step). }
  rewrite Hnext. destruct (navigateTo step) as [url|]; [|done].
  erewrite bind_ok by apply setTourActive_eq.
  eexists. split; [reflexivity|].
  destruct (storage_set_frame TOUR_ACTIVE_KEY "true" w)
    as (_ & _ & Ht & Hs & Hm).
  split_and!; try done.
  - intros Hok. rewrite isTourActive_eq. f_equal.
    match goal with |- context [mode (localStorage ?x)] =>
      change (mode (localStorage x))
        with (mode (localStorage (storage_set TOUR_ACTIVE_KEY "true" w)));
      change (storage x)
        with (storage (storage_set TOUR_ACTIVE_KEY "true" w))
    end.
    rewrite Hm, Hok, storage_set_lookup, Hok. by case_decide.
  - simpl. by rewrite Ht.
Qed.

Lemma nextStep_at_last_step_witness :
  ∃ w', nextStep home_last_step = Ok tt w'
    ∧ pendingNav w' = Some "/about"
    ∧ isTourActive w' = Ok true w'
    ∧ state w' = state home_last_step.
Proof.
  assert (isActive (state home_last_step) = true) as Hact
    by (vm_compute; reflexivity).
  assert (isTyping (state home_last_step) = false) as Htyp
    by (vm_compute; reflexivity).
  assert (currentStep (state home_last_step)
          = (Z.of_nat (length (tourSteps home_last_step)) - 1)%Z) as Hlast
    by (vm_compute; reflexivity).
  assert (mode (localStorage home_last_step) = StorageOk) as Hok
    by (vm_compute; reflexivity).
  destruct (nextStep_at_last_step _ home_last_step_reachable Hact Htyp Hlast)
    as (step & Hl & H).
  assert (navigateTo step = Some "/about") as Hnav.
  { vm_compute in Hl. injection Hl as <-. reflexivity. }
  rewrite Hnav in H. destruct H as (w' & H1 & _ & H3 & H4 & _ & H6).
  exists w'. split_and!; [exact H1 | exact H4 | exact (H3 Hok) | exact H6].
Defined.

(** * Retreating *)

Ltac frame_atom := idtac; match goal with H : _ |- _ => exact H end.

(** Rendering never calls [skipTyping]. *)
Lemma renderStep_extends before :
  maintains (extends_without_skip before) (extends_without_skip before)
    renderStep.
Proof.
  maintain ltac:(idtac; match goal with H : extends_without_skip _ _ |- _ =>
    first [ exact H
          | destruct H as (evs & Ht & Hevs);
            eexists (evs ++ [_]); split;
            [ simpl; rewrite Ht; by rewrite app_assoc
            | apply Forall_app; split; [exact Hevs | by constructor] ] ]
    end).
Qed.

(** On a page with a speech bubble, a rendering that returns has started a
    reveal of the message of the current step: one more reveal is pending
    and [isTyping] is raised. *)
Lemma renderStep_reveals w step :
  getCurrentStep w = Ok (Some step) w →
  hasSpeechBubble (env w) = true →
  wp renderStep
    (λ _ w', isTyping (state w') = true
             ∧ pendingReveals w' = S (pendingReveals w)
             ∧ last (trace w') = Some (BubbleTypeMessage (message step) TYPING_SPEED)
             ∧ currentStep (state w') = currentStep (state w))
    (λ _, True) w.
Proof.
  intros Hstep Hb. unfold renderStep.
  eapply wp_bind_ok; [exact Hstep|].
  eapply wp_bind_ok; [reflexivity|].
  set (P := λ w', pendingReveals w' = pendingReveals w
                  ∧ currentStep (state w') = currentStep (state w)).
  assert (P w) as HP by done.
  eapply (wp_call P); [maintain frame_atom | exact HP |].
  intros _ w1 H1.
  eapply wp_bind_ok; [reflexivity|].
  eapply (wp_call P); [maintain frame_atom | exact H1 |].
  intros _ w2 H2.
  eapply (wp_call P); [maintain frame_atom | exact H2 |].
  intros _ w3 [H3 H3'].
  rewrite Hb. unfold when.
  do 3 (eapply wp_bind_ok; [reflexivity|]).
  do 2 (eapply wp_bind_ok; [reflexivity|]).
  do 2 (eapply wp_bind_ok; [reflexivity|]).
  eapply wp_bind_ok; [reflexivity|].
  unfold wp, modify. simpl. split_and!; [done | by rewrite H3 | | done].
  by rewrite last_snoc.
Qed.

(** C9.  In a reachable world where the tour is active, a reveal is in
    progress and the index is above 0, [prevStep] returns with the index
    one lower and the previous step rendered: the last call is
    [typeMessage] with the message of that step.  None of the calls it
    makes is [skipTyping], [isTyping] is still raised, and one more reveal
    is pending than before: the reveal that was in progress has been
    neither finished nor cancelled. *)
Theorem prevStep_while_typing (w : World) :
  reachable w → isActive (state w) = true → isTyping (state w) = true →
  (0 < currentStep (state w))%Z →
  ∃ prev w',
    tourSteps w !! Z.to_nat (currentStep (state w) - 1) = Some prev
    ∧ prevStep w = Ok tt w'
    ∧ currentStep (state w') = (currentStep (state w) - 1)%Z
    ∧ extends_without_skip (trace w) w'
    ∧ last (trace w') = Some (BubbleTypeMessage (message prev) TYPING_SPEED)
    ∧ isTyping (state w') = true
    ∧ pendingReveals w' = S (pendingReveals w).
Proof.
  intros (_ & Hi & Hb)%reachable_tour Hact Htyp Hpos.
  set (w1 := with_state (λ s, set_currentStep (currentStep s - 1) s) w).
  assert (index_in_range w1) as Hi1 by (red in Hi |- *; simpl; lia).
  destruct (getCurrentStep_defined w1 Hi1) as (prev & Hprev & Hlook).
  assert (prevStep w = renderStep w1) as Hrun.
  { unfold prevStep. erewrite bind_ok by reflexivity. rewrite Hact. simpl.
    destruct (Z.ltb_spec 0 (currentStep (state w))) as [_|?]; [|lia].
    by erewrite bind_ok by reflexivity. }
  pose proof (wp_conj _ _ _ _ _ _ (renderStep_index w1 Hi1)
    (wp_conj _ _ _ _ _ _
       (renderStep_reveals w1 prev Hprev (Hb Htyp))
       (renderStep_extends (trace w) w1
          ltac:(exists []; by rewrite app_nil_r)))) as H.
  unfold wp, never in H. rewrite <- Hrun in H.
  destruct (prevStep w) as [[] w'|]; [|tauto].
  destruct H as (_ & (? & ? & ? & ?) & ?).
  exists prev, w'. by split_and!.
Qed.

(** The home page at its second step, the reveal still running. *)
Lemma prevStep_while_typing_witness :
  ∃ prev w',
    tourSteps (run [RevealDone; Call CmdNext] first_visit) !! 0%nat = Some prev
    ∧ prevStep (run [RevealDone; Call CmdNext] first_visit) = Ok tt w'
    ∧ currentStep (state w') = 0%Z
    ∧ isTyping (state w') = true
    ∧ pendingReveals w' = 2%nat.
Proof.
  assert (reachable (run [RevealDone; Call CmdNext] first_visit)) as Hr.
  { exists full_env, empty_storage, home_page.
    eexists (_ ++ _). unfold first_visit, run. by rewrite foldl_app. }
  assert (isActive (state (run [RevealDone; Call CmdNext] first_visit)) = true)
    as Hact by (vm_compute; reflexivity).
  assert (isTyping (state (run [RevealDone; Call CmdNext] first_visit)) = true)
    as Htyp by (vm_compute; reflexivity).
  assert (0 < currentStep (state (run [RevealDone; Call CmdNext] first_visit)))%Z
    as Hpos by (vm_compute; reflexivity).
  destruct (prevStep_while_typing _ Hr Hact Htyp Hpos)
    as (prev & w' & H1 & H2 & H3 & _ & _ & H6 & H7).
  exists prev, w'.
  split_and!; [exact H1 | exact H2 | exact H3 | exact H6 | exact H7].
Defined.

(** * Skipping *)

Lemma pageLoad_frame e st l :
  localStorage (pageLoad e st l) = st
  ∧ timers (pageLoad e st l) = [mkTimer 1 (ms 100) CbInitSettled]
  ∧ state (pageLoad e st l) = mkState 0 false false false.
Proof. by destruct (pageLoad_eq e st l) as [p ->]. Qed.

(** When the cross-page flag does not read as set, the settle callback of
    [initTour] schedules no resumption. *)
Lemma initTour_settled_no_resume w :
  isTourActive w = Ok false w → no_resume_timer w →
  no_resume_timer (final (initTour_settled w)).
Proof.
  rewrite isTourActive_eq. intros [= Ha] Hw.
  apply wp_final. unfold initTour_settled, setupKeyboardNav, setupButtonControls.
  do 2 (eapply wp_bind_ok; [reflexivity|]).
  set (w1 := with_navListeners _ (with_navListeners _ w)).
  eapply wp_bind_ok.
  { rewrite isTourActive_eq.
    change (mode (localStorage w1)) with (mode (localStorage w)).
    change (storage w1) with (storage w). by rewrite Ha. }
  simpl.
  wp_maintain no_resume_timer no_resume_timer
    ltac:(idtac; match goal with H : no_resume_timer _ |- _ =>
      first [ exact H
            | intros ? [?| ->%list_elem_of_singleton]%elem_of_app;
              [by apply H | done] ] end).
Qed.

(** C6.  [skipTour] returns, and it is [completeTour] run after the
    cross-page flag has been removed.  Afterwards the flag reads as unset;
    it still does on any page loaded next with the storage the skip left,
    and when the components of that page have settled, [initTour] has
    scheduled no resumption of the tour. *)
Theorem skipTour_clears_cross_page_flag
    (w : World) (e' : Env) (l' : Location) (rnd : QArith_base.Q) :
  ∃ w', skipTour w = Ok tt w'
    ∧ skipTour w = completeTour (storage_remove TOUR_ACTIVE_KEY w)
    ∧ isTourActive w' = Ok false w'
    ∧ isTourActive (pageLoad e' (localStorage w') l')
      = Ok false (pageLoad e' (localStorage w') l')
    ∧ no_resume_timer
        (perform (TimerFires 1 rnd) (pageLoad e' (localStorage w') l')).
Proof.
  assert (skipTour w = completeTour (storage_remove TOUR_ACTIVE_KEY w)) as Hs.
  { unfold skipTour. by erewrite bind_ok by apply setTourActive_eq. }
  pose proof (completeTour_eq (storage_remove TOUR_ACTIVE_KEY w)) as Hc.
  destruct (completed_reads
    (λ t, t ++
       (optional (hasSoundManager (env (storage_remove TOUR_ACTIVE_KEY w))
                  && (isEnabled (sound (storage_remove TOUR_ACTIVE_KEY w))
                      && audioContext (sound (storage_remove TOUR_ACTIVE_KEY w))))
          SoundSuccess
        ++ optional (hasTourSpotlight (env (storage_remove TOUR_ACTIVE_KEY w)))
             SpotlightHide
        ++ optional (hasSpeechBubble (env (storage_remove TOUR_ACTIVE_KEY w)))
             BubbleHide
        ++ optional (hasCatGuide (env (storage_remove TOUR_ACTIVE_KEY w)))
             (CatSetAnimation idle)))
    (storage_remove TOUR_ACTIVE_KEY w)) as (_ & _ & Ha).
  set (w' := with_trace _ (completed (storage_remove TOUR_ACTIVE_KEY w))) in *.
  clearbody w'. exists w'. rewrite Hs.
  destruct (pageLoad_frame e' (localStorage w') l') as (Hst & Ht & _).
  split_and!; [exact Hc | done | exact Ha | |].
  - by apply (isTourActive_storage w').
  - simpl. unfold timerFires. rewrite Ht. simpl.
    apply initTour_settled_no_resume.
    + by apply (isTourActive_storage w').
    + intros t. simpl. rewrite Ht. simpl. by intros ?%elem_of_nil.
Qed.

(** A skip in the middle of the home script, then the about page. *)
Lemma skipTour_clears_cross_page_flag_witness :
  ∃ w', skipTour first_visit = Ok tt w'
    ∧ isTourActive first_visit = Ok true first_visit
    ∧ isTourActive w' = Ok false w'
    ∧ timers (perform (TimerFires 1 zero)
                (pageLoad full_env (localStorage w')
                   (mkLocation "https://portfolio.example" "/about" []
                      EmptyString))) = [].
Proof.
  destruct (skipTour_clears_cross_page_flag first_visit full_env
              (mkLocation "https://portfolio.example" "/about" [] EmptyString)
              zero) as (w' & H1 & _ & H3 & _).
  exists w'. split_and!; [exact H1 | reflexivity | exact H3 |].
  assert (w' = final (skipTour first_visit)) as -> by (by rewrite H1).
  vm_compute. reflexivity.
Defined.

(** * The ambient purr *)

Ltac purr_atom :=
  idtac; match goal with H : purr_inv _ |- _ =>
    first [ exact H
          | intros ? [?| ->%list_elem_of_singleton]%elem_of_app;
            [by apply H | done] ]
  end.

(** Starting the chain: nothing happens when a handle is recorded;
    otherwise no purr timer is pending, and the new one is recorded. *)
Lemma startAmbientPurr_purr :
  maintains purr_inv purr_inv soundManager.startAmbientPurr.
Proof.
  intros w Hw. unfold soundManager.startAmbientPurr.
  eapply wp_bind_ok; [reflexivity|].
  destruct (purrInterval (sound w)) eqn:Hp; [done|].
  eapply wp_bind_ok; [reflexivity|].
  unfold wp, modify.
  intros t [Ht| ->%list_elem_of_singleton]%elem_of_app; [|done].
  intros Hcb. specialize (Hw t Ht Hcb). congruence.
Qed.

(** Stopping the chain removes the timer of the recorded handle, which is
    every purr timer there is. *)
Lemma stopAmbientPurr_purr :
  maintains purr_inv purr_inv soundManager.stopAmbientPurr.
Proof.
  intros w Hw. unfold soundManager.stopAmbientPurr.
  eapply wp_bind_ok; [reflexivity|].
  destruct (purrInterval (sound w)) as [h|] eqn:Hp; [|done].
  eapply wp_bind_ok; [reflexivity|].
  unfold wp, modify.
  intros t [Hne Ht]%list_elem_of_filter Hcb.
  specialize (Hw t Ht Hcb). simpl in *. congruence.
Qed.
#[export] Hint Resolve startAmbientPurr_purr stopAmbientPurr_purr : tour.

Lemma stopAmbientPurr_eq w :
  purr_inv w →
  ∃ w', soundManager.stopAmbientPurr w = Ok tt w'
    ∧ purrInterval (sound w') = None
    ∧ isEnabled (sound w') = isEnabled (sound w)
    ∧ trace w' = trace w
    ∧ (∀ t, t ∈ timers w' → t ∈ timers w ∧ callback t ≠ CbRandomPurr).
Proof.
  intros Hw. unfold soundManager.stopAmbientPurr.
  erewrite bind_ok by reflexivity.
  destruct (purrInterval (sound w)) as [h|] eqn:Hp.
  - erewrite bind_ok by reflexivity. eexists. split; [reflexivity|].
    split_and!; try done.
    intros t [Hne Ht]%list_elem_of_filter. split; [done|].
    intros Hcb. specialize (Hw t Ht Hcb). simpl in *. congruence.
  - eexists. split; [reflexivity|]. split_and!; try done.
    intros t Ht. split; [done|].
    intros Hcb. specialize (Hw t Ht Hcb). congruence.
Qed.

(** The purr callback fires: its timer was the only purr timer, and the one
    it schedules next is recorded. *)
Lemma timerFires_purr h rnd w : purr_inv w → purr_inv (timerFires h rnd w).
Proof.
  intros Hw. unfold timerFires.
  destruct (list_find _ _) as [[i t]|] eqn:Hfind; [|done].
  apply list_find_Some in Hfind as (Hi & Hh & _).
  apply list_elem_of_lookup_2 in Hi.
  set (w1 := with_timers _ w).
  assert (purr_inv w1) as H1.
  { intros t' [_ Ht']%list_elem_of_filter. by apply Hw. }
  destruct (callback t) eqn:Hcb.
  - apply maintains_final; [maintain purr_atom | done].
  - apply maintains_final; [maintain purr_atom | done].
  - apply maintains_final; [maintain purr_atom | done].
  - assert (∀ t', t' ∈ timers w1 → callback t' ≠ CbRandomPurr) as Hnone.
    { intros t' [Hne Ht']%list_elem_of_filter Hcb'.
      pose proof (Hw t Hi Hcb) as E1. pose proof (Hw t' Ht' Hcb') as E2.
      simpl in *. congruence. }
    apply wp_final. unfold runCallback, soundManager.playRandomPurr.
    eapply wp_bind_ok; [reflexivity|].
    eapply (wp_call (λ w', ∀ t', t' ∈ timers w' → callback t' ≠ CbRandomPurr));
      [maintain frame_atom | exact Hnone |].
    intros _ w2 H2. eapply wp_bind_ok; [reflexivity|].
    unfold wp, modify.
    intros t' [Ht'| ->%list_elem_of_singleton]%elem_of_app; [|done].
    intros Hcb'. by destruct (H2 t' Ht').
Qed.

Lemma perform_purr a w : purr_inv w → purr_inv (perform a w).
Proof.
  apply (perform_maintains _ any_call); try done.
  - intros c. destruct c; maintain purr_atom.
  - intros c _. destruct c; maintain purr_atom.
  - intros key. maintain purr_atom.
  - intros t. maintain purr_atom.
  - maintain purr_atom.
  - intros h rnd w'. apply timerFires_purr.
  - intros w'. unfold revealDone. by destruct (pendingReveals w').
  - by destruct a.
Qed.

Lemma reachable_purr w : reachable w → purr_inv w.
Proof.
  intros (e & st & l & acts & ->).
  induction acts as [|a acts IH] using rev_ind.
  - destruct (pageLoad_frame e st l) as (_ & Ht & _).
    intros t. simpl. rewrite Ht. by intros ->%list_elem_of_singleton.
  - rewrite run_snoc. by apply perform_purr.
Qed.

(** ** Nothing is heard while audio is off *)

Lemma sounds_silent e w :
  is_sound e = false → sounds (with_trace (λ t, t ++ [e]) w) = sounds w.
Proof.
  intros He. unfold sounds. simpl. rewrite filter_app.
  rewrite (filter_cons_False _ e); [|rewrite He; by intros []].
  by rewrite filter_nil, app_nil_r.
Qed.

Ltac muted_atom :=
  idtac; match goal with H : muted _ _ |- _ =>
    first [ exact H
          | destruct H as [? ?]; split; [done|];
            first [done | by rewrite sounds_silent] ]
  end.

Lemma audible_muted heard e :
  maintains (muted heard) (muted heard) (soundManager.audible e).
Proof.
  intros w [Hoff Hs]. unfold wp. rewrite audible_eq, Hoff. simpl.
  by rewrite with_trace_nil.
Qed.
#[export] Hint Resolve audible_muted : tour.

Lemma run_muted heard acts w :
  Forall (admits (λ c, c ≠ SndSetEnabled true)) acts →
  muted heard w → muted heard (run acts w).
Proof.
  apply (run_maintains _ (λ c, c ≠ SndSetEnabled true)).
  - intros c. destruct c; maintain muted_atom.
  - intros c Hc. destruct c as [| | | | | | |[]|]; try done;
      maintain muted_atom.
  - intros key. maintain muted_atom.
  - intros t. maintain muted_atom.
  - maintain muted_atom.
  - intros h rnd w' Hw'. apply timerFires_maintains; [done| |done].
    intros cb. destruct cb; maintain muted_atom.
  - intros w'. unfold revealDone. by destruct (pendingReveals w').
Qed.

(** Started while audio is off, the chain is armed all the same: a timer
    is pending and its handle recorded.  It stays silent as long as audio
    stays off. *)
Lemma startAmbientPurr_while_disabled w :
  purrInterval (sound w) = None →
  ∃ w', soundManager.startAmbientPurr w = Ok tt w'
    ∧ purrInterval (sound w') = Some (nextHandle w)
    ∧ timers w' = timers w ++ [mkTimer (nextHandle w) (ms 2000) CbRandomPurr]
    ∧ isEnabled (sound w') = isEnabled (sound w)
    ∧ trace w' = trace w.
Proof.
  intros Hp. unfold soundManager.startAmbientPurr.
  erewrite bind_ok by reflexivity. rewrite Hp.
  erewrite bind_ok by reflexivity. by eexists.
Qed.

(** C2, as amended.  In a reachable world, [setEnabled(false)] returns
    with audio off, [purrInterval] null and no ambient-purr timer pending:
    the only timers it removes are purr timers, and none is left.  A call
    of [startAmbientPurr] after that emits nothing, and nothing is heard in
    any continuation of the page in which audio is not switched on again:
    whatever timers fire and whatever else is called, the audible part of
    the trace stays what it was.  The call does schedule, though: it sets
    [purrInterval] to a fresh handle and adds the timer of the chain, due
    after 2000 ms, to the pending ones. *)
Theorem setEnabled_false_cancels_ambient_purr
    (w : World) (later : list Action) :
  reachable w →
  Forall (admits (λ c, c ≠ SndSetEnabled true)) later →
  ∃ w1 w2,
    soundManager.setEnabled false w = Ok tt w1
    ∧ isEnabled (sound w1) = false
    ∧ purrInterval (sound w1) = None
    ∧ (∀ t, t ∈ timers w1 → t ∈ timers w ∧ callback t ≠ CbRandomPurr)
    ∧ soundManager.startAmbientPurr w1 = Ok tt w2
    ∧ trace w2 = trace w1
    ∧ sounds (run later w2) = sounds w1
    ∧ isEnabled (sound w2) = false
    ∧ purrInterval (sound w2) = Some (nextHandle w1)
    ∧ timers w2 = timers w1 ++ [mkTimer (nextHandle w1) (ms 2000) CbRandomPurr].
Proof.
  intros Hw%reachable_purr Hlater.
  set (w0 := with_sound (set_isEnabled false) w).
  assert (purr_inv w0) as H0 by exact Hw.
  destruct (stopAmbientPurr_eq w0 H0) as (w1 & Hstop & Hp & He & Ht & Htimers).
  destruct (startAmbientPurr_while_disabled w1 Hp)
    as (w2 & Hstart & Hp2 & Htimers2 & He2 & Ht2).
  exists w1, w2. split_and!; try done.
  - assert (muted (sounds w1) w2) as Hm.
    { split; [by rewrite He2, He | unfold sounds; by rewrite Ht2]. }
    by destruct (run_muted _ later w2 Hlater Hm).
  - by rewrite He2.
Qed.

Lemma setEnabled_false_cancels_ambient_purr_witness :
  purrInterval (sound first_visit) = Some 3%positive
  ∧ ∃ w1 w2,
      soundManager.setEnabled false first_visit = Ok tt w1
      ∧ purrInterval (sound w1) = None
      ∧ soundManager.startAmbientPurr w1 = Ok tt w2
      ∧ sounds (run [TimerFires 4 zero; TimerFires 5 zero; Sound SndPlayPurr;
                     RevealDone; Call CmdNext; Call CmdNext] w2)
        = sounds w1
      ∧ purrInterval (sound w2) = Some (nextHandle w1).
Proof.
  split; [reflexivity|].
  assert (Forall (admits (λ c, c ≠ SndSetEnabled true))
            [TimerFires 4 zero; TimerFires 5 zero; Sound SndPlayPurr;
             RevealDone; Call CmdNext; Call CmdNext]) as Hlater.
  { repeat constructor. simpl. discriminate. }
  destruct (setEnabled_false_cancels_ambient_purr first_visit _
              reachable_first_visit Hlater)
    as (w1 & w2 & H1 & _ & H3 & _ & H5 & _ & H7 & _ & H9 & _).
  exists w1, w2.
  split_and!; [exact H1 | exact H3 | exact H5 | exact H7 | exact H9].
Defined.

(** C2, as the specification has it, fails on the second call.  On the
    first visit of the home page, with audio switched off and no timer
    left, [startAmbientPurr] records handle 4 in [purrInterval] and leaves
    the timer of the chain pending.  What it scheduled can be observed:
    once audio is switched on again and that timer is due, a purr is
    played, which is not so had [startAmbientPurr] not been called. *)
Lemma startAmbientPurr_while_disabled_schedules :
  reachable first_visit
  ∧ soundManager.setEnabled false first_visit = Ok tt audio_off
  ∧ isEnabled (sound audio_off) = false
  ∧ purrInterval (sound audio_off) = None
  ∧ timers audio_off = []
  ∧ soundManager.startAmbientPurr audio_off = Ok tt purr_rearmed
  ∧ isEnabled (sound purr_rearmed) = false
  ∧ purrInterval (sound purr_rearmed) = Some 4%positive
  ∧ timers purr_rearmed = [mkTimer 4 (ms 2000) CbRandomPurr]
  ∧ sounds (run [Sound (SndSetEnabled true); TimerFires 4 zero] audio_off)
    = [SoundMeow]
  ∧ sounds (run [Sound (SndSetEnabled true); TimerFires 4 zero] purr_rearmed)
    = [SoundMeow; SoundPurr]
  ∧ ¬ (purrInterval (sound purr_rearmed) = purrInterval (sound audio_off)
       ∧ timers purr_rearmed = timers audio_off).
Proof.
  split; [exact reachable_first_visit|].
  split_and!; try (vm_compute; reflexivity).
  intros [H _]. vm_compute in H. discriminate.
Qed.

(** With audio left on, the same timers are heard. *)
Example ambient_purr_is_heard :
  sounds first_visit = [SoundMeow]
  ∧ sounds (run [TimerFires 3 zero; TimerFires 4 zero] first_visit)
    = [SoundMeow; SoundPurr; SoundPurr].
Proof. split; vm_compute; reflexivity. Qed.

(** * The single-page variant *)

Lemma single_page_cases p script :
  SinglePage.pageTours !! p = Some script →
  script ∈ [SinglePage.homeTour; SinglePage.aboutTour; SinglePage.skillsTour;
            SinglePage.projectsTour; SinglePage.experienceTour;
            SinglePage.contactTour; SinglePage.blogTour].
Proof.
  intros H%elem_of_list_to_map_2. unfold SinglePage.pageTours_entries in H.
  repeat (apply elem_of_cons in H as [H|H]; [injection H as -> ->; set_solver|]).
  by apply elem_of_nil in H.
Qed.

(** No step of the single-page registry declares [navigateTo]. *)
Lemma single_page_declares_no_navigateTo p script :
  SinglePage.pageTours !! p = Some script →
  Forall (λ step, navigateTo step = None) script.
Proof.
  intros H%single_page_cases.
  repeat (apply elem_of_cons in H as [->|H]; [by repeat constructor|]).
  by apply elem_of_nil in H.
Qed.

Lemma single_page_nonempty p : SinglePage.getTourStepsForPage p ≠ [].
Proof.
  unfold SinglePage.getTourStepsForPage.
  destruct (SinglePage.pageTours !! p) as [script|] eqn:Hp; [|done].
  apply single_page_cases in Hp.
  repeat (apply elem_of_cons in Hp as [->|Hp]; [done|]).
  by apply elem_of_nil in Hp.
Qed.

(** At the last step the single-page [nextStep] is [completeTour]: it has
    no navigation branch, and its registry has no step that would ask for
    one. *)
Lemma single_page_last_step_completes w :
  isActive (state w) = true → isTyping (state w) = false →
  currentStep (state w) = (Z.of_nat (length (tourSteps w)) - 1)%Z →
  SinglePage.nextStep w = SinglePage.completeTour w.
Proof.
  intros Hact Htyp Hlast. unfold SinglePage.nextStep.
  erewrite bind_ok by reflexivity. erewrite bind_ok by reflexivity.
  rewrite Hact, Htyp. simpl.
  erewrite bind_ok by reflexivity.
  by destruct (Z.ltb_spec (currentStep (state w))
                 (Z.of_nat (length (tourSteps w)) - 1)) as [?|_]; [lia|].
Qed.

(** The typing-skip branch is the same text in both files. *)
Lemma single_page_typing_skip w step :
  isActive (state w) = true → isTyping (state w) = true →
  hasSpeechBubble (env w) = true →
  getCurrentStep w = Ok (Some step) w →
  SinglePage.nextStep w
  = Ok tt (with_state (set_isTyping false)
             (with_trace (λ t, t ++ [BubbleSkipTyping (message step)]) w)).
Proof.
  intros Hact Htyp Hb Hstep. unfold SinglePage.nextStep.
  erewrite bind_ok by reflexivity. erewrite bind_ok by reflexivity.
  rewrite Hact, Htyp, Hb. simpl.
  by erewrite bind_ok by exact Hstep.
Qed.

(** The single-page [completeTour] sets the two flags, persists the
    completion, forgets the saved step and tells the three collaborators.
    It plays no sound and does not touch the cross-page flag. *)
Lemma single_page_completeTour_eq w :
  SinglePage.completeTour w
  = Ok tt (with_trace (λ t, t ++
       (optional (hasTourSpotlight (env w)) SpotlightHide
        ++ optional (hasSpeechBubble (env w)) BubbleHide
        ++ optional (hasCatGuide (env w)) (CatSetAnimation idle)))
     (storage_remove TOUR_STEP_KEY
        (storage_set STORAGE_KEY "true"
           (with_state (set_hasCompleted true)
              (with_state (set_isActive false) w))))).
Proof.
  unfold SinglePage.completeTour.
  erewrite bind_ok by reflexivity.
  erewrite bind_ok by reflexivity.
  erewrite bind_ok by apply markTourCompleted_eq.
  erewrite bind_ok by apply clearSavedTourStep_eq.
  erewrite bind_ok by reflexivity.
  set (w0 := with_state _ (with_state _ w)).
  destruct (storage_remove_frame TOUR_STEP_KEY
              (storage_set STORAGE_KEY "true" w0)) as (-> & _).
  destruct (storage_set_frame STORAGE_KEY "true" w0) as (-> & _).
  change (env w0) with (env w).
  erewrite bind_ok by apply when_emit.
  erewrite bind_ok by apply when_emit.
  rewrite when_emit. f_equal.
  unfold with_trace. simpl. by rewrite <- !app_assoc.
Qed.

Lemma single_page_completeTour_silent w :
  sounds (final (SinglePage.completeTour w)) = sounds w
  ∧ storage (final (SinglePage.completeTour w)) !! TOUR_ACTIVE_KEY
    = storage w !! TOUR_ACTIVE_KEY.
Proof.
  rewrite single_page_completeTour_eq. simpl.
  set (w0 := with_state _ (with_state _ w)).
  split.
  - unfold sounds. simpl.
    destruct (storage_remove_frame TOUR_STEP_KEY
                (storage_set STORAGE_KEY "true" w0)) as (_ & _ & -> & _).
    destruct (storage_set_frame STORAGE_KEY "true" w0) as (_ & _ & -> & _).
    change (trace w0) with (trace w). rewrite filter_app.
    by destruct (hasTourSpotlight (env w)), (hasSpeechBubble (env w)),
      (hasCatGuide (env w)); rewrite app_nil_r.
  - change (storage (with_trace ?f ?x)) with (storage x).
    rewrite storage_remove_lookup.
    destruct (storage_set_frame STORAGE_KEY "true" w0) as (_ & _ & _ & _ & ->).
    rewrite storage_set_lookup.
    change (mode (localStorage w0)) with (mode (localStorage w)).
    change (storage w0) with (storage w).
    by destruct (mode (localStorage w)); repeat case_decide.
Qed.

Lemma single_page_renderStep_index :
  maintains index_in_range never SinglePage.renderStep.
Proof.
  intros w Hw. unfold SinglePage.renderStep.
  destruct (getCurrentStep_defined w) as (step & Hstep & _); [done|].
  eapply wp_bind_ok; [exact Hstep|].
  eapply wp_bind_ok; [reflexivity|].
  wp_maintain index_in_range never index_atom.
Qed.

(** The single-page [startTour] resets the index and activates the tour as
    the other one does; it writes no cross-page flag. *)
Lemma single_page_startTour_resets w :
  ∃ w', SinglePage.startTour w = Ok tt w'
    ∧ currentStep (state w') = 0%Z ∧ isActive (state w') = true
    ∧ localStorage w' = localStorage w.
Proof.
  set (Q := λ w', currentStep (state w') = 0%Z ∧ isActive (state w') = true
                  ∧ localStorage w' = localStorage w).
  assert (wp SinglePage.startTour (λ _ w', index_in_range w' ∧ Q w')
            (λ w', never w' ∧ True) w) as H.
  { apply wp_conj; unfold SinglePage.startTour.
    - eapply wp_bind_ok; [reflexivity|].
      unfold SinglePage.loadTourForCurrentPage.
      destruct (getCurrentPage_pure w) as [p Hp].
      eapply wp_bind_ok;
        [unfold mbind, Exec_bind; rewrite Hp; reflexivity|].
      eapply wp_bind_ok; [reflexivity|].
      eapply (wp_call index_in_range); [maintain index_atom| |].
      { red. simpl. pose proof (single_page_nonempty p).
        destruct (SinglePage.getTourStepsForPage p); [done | simpl; lia]. }
      intros _ w1 H1.
      eapply (wp_call index_in_range); [maintain index_atom|done|].
      intros _ w2 H2.
      eapply (wp_call index_in_range); [maintain index_atom|done|].
      intros _ w3 H3. by apply single_page_renderStep_index.
    - eapply wp_bind_ok; [reflexivity|].
      eapply (wp_call (λ w', localStorage w' = localStorage w)); [|done|].
      { unfold SinglePage.loadTourForCurrentPage. maintain frame_atom. }
      intros _ w1 H1.
      do 3 (eapply wp_bind_ok; [reflexivity|]).
      wp_maintain Q (λ _ : World, True) frame_atom.
      by split_and!. }
  unfold wp, never in H.
  destruct (SinglePage.startTour w) as [[] w'|]; [|tauto].
  exists w'. unfold Q in H. tauto.
Qed.

(** * The page path and the registry *)

Lemma endsWithSlash_app p : endsWithSlash (p +:+ "/") = true.
Proof.
  induction p as [|c p IH]; [done|].
  simpl. destruct p; [done|]. exact IH.
Qed.

Lemma dropLast_app p : dropLast (p +:+ "/") = p.
Proof.
  induction p as [|c p IH]; [done|].
  simpl. destruct p; [done|]. simpl in *. by rewrite IH.
Qed.

Lemma getCurrentPage_eq w :
  getCurrentPage w
  = Ok (if endsWithSlash (pathname (location w))
           && negb (bool_decide (pathname (location w) = "/"))
        then dropLast (pathname (location w))
        else pathname (location w)) w.
Proof.
  unfold getCurrentPage, mbind, Exec_bind, gets. simpl.
  by destruct (_ && _).
Qed.

(** The page is read from the location and from nothing else. *)
Lemma getCurrentPage_location w1 w2 p :
  location w2 = location w1 →
  getCurrentPage w1 = Ok p w1 → getCurrentPage w2 = Ok p w2.
Proof.
  intros Hl. rewrite (getCurrentPage_eq w1), (getCurrentPage_eq w2), Hl.
  by intros [= ->].
Qed.

Lemma loadTourForCurrentPage_eq w p :
  getCurrentPage w = Ok p w →
  loadTourForCurrentPage w
  = Ok tt (with_tourSteps (λ _, getTourStepsForPage p) w).
Proof.
  intros Hp. unfold loadTourForCurrentPage, mbind, Exec_bind. by rewrite Hp.
Qed.

(** X1.  One trailing slash is not part of the page: when the path of the
    document is [p] followed by a slash, and [p] is not empty, the current
    page is [p], and loading the tour installs the script that the registry
    hands out for [p] and changes nothing else. *)
Theorem trailing_slash_is_ignored (w : World) (p : string) :
  p ≠ EmptyString →
  pathname (location w) = p +:+ "/" →
  getCurrentPage w = Ok p w
  ∧ loadTourForCurrentPage w
    = Ok tt (with_tourSteps (λ _, getTourStepsForPage p) w).
Proof.
  intros Hp Hw.
  assert (getCurrentPage w = Ok p w) as H.
  { rewrite getCurrentPage_eq. rewrite Hw, endsWithSlash_app, dropLast_app.
    rewrite bool_decide_false; [done|].
    destruct p as [|c [|c' p']]; [done| |]; by intros [=]. }
  split; [done|]. by apply loadTourForCurrentPage_eq.
Qed.

Lemma trailing_slash_is_ignored_witness :
  tourSteps
    (final (loadTourForCurrentPage
              (initialWorld full_env empty_storage (at_path "/about/"))))
  = aboutTour.
Proof.
  destruct (trailing_slash_is_ignored
              (initialWorld full_env empty_storage (at_path "/about/"))
              "/about") as [_ H]; [done | reflexivity |].
  rewrite H. reflexivity.
Defined.

(** X2.  On a page that [isHomePage] accepts, the path [/] and the path
    [/index.html], the script that is loaded is the one of the home page:
    for the second path through the fallback of the registry. *)
Theorem home_page_loads_home_script (w : World) :
  isHomePage w = Ok true w →
  tourSteps (final (loadTourForCurrentPage w)) = homeTour.
Proof.
  unfold isHomePage, gets. intros [= H].
  apply orb_true_iff in H as [H|H]; apply bool_decide_eq_true in H;
    (erewrite loadTourForCurrentPage_eq;
      [|rewrite getCurrentPage_eq; rewrite H; reflexivity]); done.
Qed.

Lemma home_page_loads_home_script_witness :
  tourSteps
    (final (loadTourForCurrentPage
              (initialWorld full_env empty_storage (at_path "/index.html"))))
  = homeTour.
Proof. apply home_page_loads_home_script. reflexivity. Defined.

(** X3.  The links between the scripts follow [pageOrder]: for every
    registered page, the page that the last step of its script navigates to
    is the one [getNextPage] names, and there is none exactly when
    [getNextPage] answers [null].  No step before the last one of a script
    declares [navigateTo]. *)
Theorem navigateTo_follows_pageOrder (p : string) (script : list TourStep) :
  pageTours !! p = Some script →
  (last script ≫= λ step, truthy_string (navigateTo step)) = getNextPage p
  ∧ ∀ i step, script !! i = Some step → (S i < length script)%nat →
      navigateTo step = None.
Proof.
  intros H%pageTours_lookup. unfold pageTours_entries in H.
  repeat (apply elem_of_cons in H as [H|H];
    [injection H as -> ->; split; [reflexivity|];
     intros i step Hi Hlt;
     repeat (destruct i as [|i]; [by injection Hi as <-|]);
     simpl in Hlt; lia|]).
  by apply elem_of_nil in H.
Qed.

Lemma navigateTo_follows_pageOrder_witness :
  (last contactTour ≫= λ step, truthy_string (navigateTo step))
  = Some "/blog".
Proof.
  destruct (navigateTo_follows_pageOrder "/contact" contactTour) as [H _];
    [reflexivity|].
  rewrite H. reflexivity.
Defined.

(** X4.  Every step of a registered script belongs to the page it is
    registered for: on that page, [isStepOnCurrentPage] answers [true] for
    each of them and changes nothing. *)
Theorem registered_steps_are_on_their_page (w : World) (p : string)
    (script : list TourStep) (step : TourStep) :
  pageTours !! p = Some script →
  getCurrentPage w = Ok p w →
  step ∈ script →
  isStepOnCurrentPage step w = Ok true w.
Proof.
  intros H%pageTours_lookup Hp Hs.
  unfold isStepOnCurrentPage, mbind, Exec_bind. rewrite Hp.
  unfold pageTours_entries in H.
  repeat (apply elem_of_cons in H as [H|H];
    [injection H as -> ->;
     repeat (apply elem_of_cons in Hs as [->|Hs]; [reflexivity|]);
     by apply elem_of_nil in Hs|]).
  by apply elem_of_nil in H.
Qed.

Lemma registered_steps_are_on_their_page_witness :
  ∃ step, last skillsTour = Some step
    ∧ isStepOnCurrentPage step
        (initialWorld full_env empty_storage (at_path "/skills/"))
      = Ok true (initialWorld full_env empty_storage (at_path "/skills/")).
Proof.
  eexists. split; [reflexivity|].
  apply (registered_steps_are_on_their_page _ "/skills" skillsTour);
    [reflexivity | reflexivity |].
  apply list_elem_of_lookup. eexists 2%nat. reflexivity.
Defined.

(** * What a page does once it has loaded *)

Lemma pageLoad_settles e st l r p :
  getCurrentPage (initialWorld e st l) = Ok p (initialWorld e st l) →
  run [TimerFires 1 r] (pageLoad e st l)
  = final (initTour_settled (settling e st l p)).
Proof.
  intros Hp. unfold pageLoad, startup, initTour, loadTourForCurrentPage.
  unfold mbind at 1 2 3, Exec_bind at 1 2 3.
  rewrite Hp. reflexivity.
Qed.

Lemma initTour_settled_eq w :
  initTour_settled w =
  let w1 := with_navListeners (λ _, true) (with_navListeners (λ _, true) w) in
  if reads_true TOUR_ACTIVE_KEY (localStorage w)
  then setTimeout_ CbResumeTour (ms 500) w1
  else if searchParams_has TOUR_PARAM (search (location w))
  then (clearTourParam;; setTimeout_ CbStartTour (ms 500)) w1
  else if (bool_decide (pathname (location w) = HOME_PATH)
             || bool_decide (pathname (location w) = "/index.html"))
          && negb (reads_true STORAGE_KEY (localStorage w))
  then setTimeout_ CbStartTour (ms 1000) w1
  else when (hasCatGuide (env w)) (emit CatShow) w1.
Proof.
  unfold initTour_settled, setupKeyboardNav, setupButtonControls.
  unfold mbind at 1 2 3, Exec_bind at 1 2 3, modify at 1 2.
  set (w1 := with_navListeners _ (with_navListeners _ w)). simpl.
  rewrite isTourActive_eq.
  change (mode (localStorage w1)) with (mode (localStorage w)).
  change (storage w1) with (items (localStorage w)).
  fold (reads_true TOUR_ACTIVE_KEY (localStorage w)).
  destruct (reads_true TOUR_ACTIVE_KEY _); [done|].
  unfold mbind at 1, Exec_bind at 1, shouldStartFromUrl, gets.
  change (location w1) with (location w).
  destruct (searchParams_has _ _); [done|].
  unfold mbind at 1 2, Exec_bind at 1 2, isHomePage, gets.
  rewrite hasCompletedTour_eq.
  change (mode (localStorage w1)) with (mode (localStorage w)).
  change (storage w1) with (items (localStorage w)).
  change (location w1) with (location w).
  fold (reads_true STORAGE_KEY (localStorage w)).
  by destruct (_ && _).
Qed.

(** What a start leaves besides index and activity: the script of the page
    the document is on; the URL is not touched. *)
Lemma startTour_loads w p :
  getCurrentPage w = Ok p w →
  wp startTour
    (λ _ w', tourSteps w' = getTourStepsForPage p ∧ location w' = location w)
    (λ _, True) w.
Proof.
  intros Hp. unfold startTour.
  eapply wp_bind_ok; [reflexivity|].
  eapply (wp_call (λ w', location w' = location w)); [|done|].
  { maintain frame_atom. }
  intros _ w1 H1.
  eapply wp_bind_ok.
  { unfold loadTourForCurrentPage, mbind, Exec_bind.
    rewrite (getCurrentPage_location w w1 p); [reflexivity|done|done]. }
  wp_maintain (λ w', tourSteps w' = getTourStepsForPage p
                     ∧ location w' = location w)
              (λ _ : World, True) frame_atom.
  done.
Qed.

Lemma startTour_started w p :
  getCurrentPage w = Ok p w →
  ∃ w', startTour w = Ok tt w'
    ∧ isActive (state w') = true ∧ currentStep (state w') = 0%Z
    ∧ tourSteps w' = getTourStepsForPage p ∧ location w' = location w.
Proof.
  intros Hp.
  pose proof (wp_conj _ _ _ _ _ _ (startTour_establishes_index w)
    (wp_conj _ _ _ _ _ _ (startTour_zero_active w) (startTour_loads w p Hp))) as H.
  unfold wp, never in H. destruct (startTour w) as [[] w'|]; [|tauto].
  exists w'. tauto.
Qed.

Lemma resumeTour_started w p :
  getCurrentPage w = Ok p w →
  ∃ w', resumeTour w = Ok tt w'
    ∧ isActive (state w') = true ∧ currentStep (state w') = 0%Z
    ∧ tourSteps w' = getTourStepsForPage p ∧ location w' = location w.
Proof.
  intros Hp. unfold resumeTour.
  assert (wp (e ← gets env;
              when (hasSoundManager e)
                (soundManager.init;; soundManager.playMeow;;
                 soundManager.startAmbientPurr))
            (λ _ w', location w' = location w) never w) as H.
  { wp_maintain (λ w', location w' = location w) never frame_atom. done. }
  unfold wp, never in H.
  unfold mbind at 1 2, Exec_bind at 1 2 in H.
  unfold mbind at 1 2, Exec_bind at 1 2. simpl in *.
  destruct (when _ _ w) as [[] w1|] eqn:E; [|done].
  destruct (startTour_started w1 p) as (w' & Hs & ? & ? & ? & Hl).
  { by apply (getCurrentPage_location w). }
  exists w'. rewrite Hs, Hl. done.
Qed.

Lemma reads_true_flag e st l b :
  isTourActive (initialWorld e st l) = Ok b (initialWorld e st l) →
  reads_true TOUR_ACTIVE_KEY st = b.
Proof. rewrite isTourActive_eq. by intros [= <-]. Qed.

Lemma reads_true_completed e st l b :
  hasCompletedTour (initialWorld e st l) = Ok b (initialWorld e st l) →
  reads_true STORAGE_KEY st = b.
Proof. rewrite hasCompletedTour_eq. by intros [= <-]. Qed.

(** X5.  The hand-over between pages: on a page that is loaded while the
    cross-page flag reads as set, the settle callback of [initTour]
    schedules exactly one thing, the resumption after 500 ms, and leaves
    the URL as it is (a tour marker in the query is not stripped on this
    path).  When that timer fires the tour is active at index 0 with the
    script of the page the document is on. *)
Theorem tour_resumes_on_next_page (e : Env) (st : Storage) (l : Location)
    (p : string) (r1 r2 : QArith_base.Q) :
  isTourActive (initialWorld e st l) = Ok true (initialWorld e st l) →
  getCurrentPage (initialWorld e st l) = Ok p (initialWorld e st l) →
  timers (run [TimerFires 1 r1] (pageLoad e st l))
    = [mkTimer 2 (ms 500) CbResumeTour]
  ∧ location (run [TimerFires 1 r1] (pageLoad e st l)) = l
  ∧ isActive (state (run [TimerFires 1 r1; TimerFires 2 r2] (pageLoad e st l)))
    = true
  ∧ currentStep (state (run [TimerFires 1 r1; TimerFires 2 r2] (pageLoad e st l)))
    = 0%Z
  ∧ tourSteps (run [TimerFires 1 r1; TimerFires 2 r2] (pageLoad e st l))
    = getTourStepsForPage p.
Proof.
  intros Hf%reads_true_flag Hp.
  change (run [TimerFires 1 r1; TimerFires 2 r2] (pageLoad e st l))
    with (timerFires 2 r2 (run [TimerFires 1 r1] (pageLoad e st l))).
  rewrite (pageLoad_settles e st l r1 p Hp), initTour_settled_eq.
  simpl. rewrite Hf. simpl. split; [done|]. split; [done|].
  unfold timerFires. simpl.
  match goal with |- context [resumeTour ?w] =>
    destruct (resumeTour_started w p) as (w' & -> & ? & ? & ? & ?)
  end.
  { eapply getCurrentPage_location; [|exact Hp]. done. }
  done.
Qed.

Lemma start_timer_fires w i h d r p :
  list_find (λ t, handle t = h) (timers w) = Some (i, mkTimer h d CbStartTour) →
  getCurrentPage w = Ok p w →
  isActive (state (timerFires h r w)) = true
  ∧ currentStep (state (timerFires h r w)) = 0%Z
  ∧ tourSteps (timerFires h r w) = getTourStepsForPage p
  ∧ location (timerFires h r w) = location w.
Proof.
  intros Hfind Hp. unfold timerFires. rewrite Hfind. simpl.
  match goal with |- context [startTour ?w] =>
    destruct (startTour_started w p) as (w' & -> & ? & ? & ? & ?)
  end; [|done].
  by apply (getCurrentPage_location w).
Qed.

Lemma tour_resumes_on_next_page_witness :
  tourSteps (run [TimerFires 1 zero; TimerFires 2 zero]
               (pageLoad full_env handed_over (at_path "/about")))
  = aboutTour.
Proof.
  destruct (tour_resumes_on_next_page full_env handed_over (at_path "/about")
              "/about" zero zero) as (_ & _ & _ & _ & H);
    [vm_compute; reflexivity | vm_compute; reflexivity |].
  rewrite H. reflexivity.
Defined.

(** X6.  The automatic start: on the home page, with no tour being carried
    over, no marker in the URL and no completion recorded, the settle
    callback schedules the start after 1000 ms and nothing else; the tour
    is not active until that timer fires, and is active at index 0 with the
    home script once it has. *)
Theorem first_home_visit_starts_the_tour (e : Env) (st : Storage)
    (l : Location) (r1 r2 : QArith_base.Q) :
  isTourActive (initialWorld e st l) = Ok false (initialWorld e st l) →
  shouldStartFromUrl (initialWorld e st l) = Ok false (initialWorld e st l) →
  isHomePage (initialWorld e st l) = Ok true (initialWorld e st l) →
  hasCompletedTour (initialWorld e st l) = Ok false (initialWorld e st l) →
  timers (run [TimerFires 1 r1] (pageLoad e st l))
    = [mkTimer 2 (ms 1000) CbStartTour]
  ∧ isActive (state (run [TimerFires 1 r1] (pageLoad e st l))) = false
  ∧ isActive (state (run [TimerFires 1 r1; TimerFires 2 r2] (pageLoad e st l)))
    = true
  ∧ currentStep (state (run [TimerFires 1 r1; TimerFires 2 r2] (pageLoad e st l)))
    = 0%Z
  ∧ tourSteps (run [TimerFires 1 r1; TimerFires 2 r2] (pageLoad e st l))
    = homeTour.
Proof.
  intros Hf%reads_true_flag [= Hu] [= Hh] Hc%reads_true_completed.
  simpl in Hu, Hh.
  destruct (getCurrentPage_pure (initialWorld e st l)) as [p Hp].
  assert (getTourStepsForPage p = homeTour) as Hhome.
  { rewrite getCurrentPage_eq in Hp. simpl in Hp.
    apply orb_true_iff in Hh as [H|H]; apply bool_decide_eq_true in H;
      rewrite H in Hp; by injection Hp as <-. }
  change (run [TimerFires 1 r1; TimerFires 2 r2] (pageLoad e st l))
    with (timerFires 2 r2 (run [TimerFires 1 r1] (pageLoad e st l))).
  rewrite (pageLoad_settles e st l r1 p Hp), initTour_settled_eq.
  simpl. rewrite Hf, Hu, Hh, Hc. simpl. split; [done|]. split; [done|].
  rewrite <- Hhome.
  match goal with |- context [timerFires 2 r2 ?w] =>
    destruct (start_timer_fires w 0 2 (ms 1000) r2 p) as (?&?&?&?)
  end; [done | | done].
  by apply (getCurrentPage_location (initialWorld e st l)).
Qed.

Lemma first_home_visit_starts_the_tour_witness :
  timers (run [TimerFires 1 zero] (pageLoad full_env empty_storage home_page))
  = [mkTimer 2 (ms 1000) CbStartTour].
Proof.
  destruct (first_home_visit_starts_the_tour full_env empty_storage home_page
              zero zero) as (H & _);
    [vm_compute; reflexivity | vm_compute; reflexivity
    | vm_compute; reflexivity | vm_compute; reflexivity |].
  exact H.
Defined.

Lemma initTour_settled_marker w :
  reads_true TOUR_ACTIVE_KEY (localStorage w) = false →
  searchParams_has TOUR_PARAM (search (location w)) = true →
  initTour_settled w
  = match resolveReference (env w) (pathname (location w)) with
    | Some path =>
        Ok tt
          (with_nextHandle Pos.succ
             (with_timers
                (λ ts, ts ++ [mkTimer (nextHandle w) (ms 500) CbStartTour])
                (with_trace
                   (λ t, t ++ [ReplaceState (pathname (location w))])
                   (with_location
                      (λ l, mkLocation (origin l) path [] EmptyString)
                      (with_navListeners (λ _, true)
                         (with_navListeners (λ _, true) w))))))
    | None =>
        Throw (with_navListeners (λ _, true)
                 (with_navListeners (λ _, true) w))
    end.
Proof.
  intros Hf Hu. rewrite initTour_settled_eq. cbv zeta. rewrite Hf, Hu.
  unfold mbind, Exec_bind. rewrite clearTourParam_eq. simpl.
  by destruct (resolveReference _ _).
Qed.

(** X7.  The URL marker: when no tour is being carried over and the query
    holds the marker, on a document whose path starts with one slash and
    not with two, the settle callback replaces the URL by the bare path
    (its only call out of the script) and schedules the start after
    500 ms, on any such page and whether or not a completion is recorded;
    when the timer fires the tour is active at index 0 with the script of
    the page.  Where the browser refuses the path as a reference, the
    callback throws before it schedules anything: no timer is pending, the
    URL keeps its marker, nothing was called and the tour does not
    start. *)
Theorem url_marker_starts_the_tour (e : Env) (st : Storage) (l : Location)
    (p : string) (r1 r2 : QArith_base.Q) :
  isTourActive (initialWorld e st l) = Ok false (initialWorld e st l) →
  shouldStartFromUrl (initialWorld e st l) = Ok true (initialWorld e st l) →
  getCurrentPage (initialWorld e st l) = Ok p (initialWorld e st l) →
  (isAbsolutePath (pathname l) = true →
   timers (run [TimerFires 1 r1] (pageLoad e st l))
     = [mkTimer 2 (ms 500) CbStartTour]
   ∧ location (run [TimerFires 1 r1] (pageLoad e st l))
     = mkLocation (origin l) (pathname l) [] EmptyString
   ∧ trace (run [TimerFires 1 r1] (pageLoad e st l))
     = [ReplaceState (pathname l)]
   ∧ isActive
       (state (run [TimerFires 1 r1; TimerFires 2 r2] (pageLoad e st l)))
     = true
   ∧ currentStep
       (state (run [TimerFires 1 r1; TimerFires 2 r2] (pageLoad e st l)))
     = 0%Z
   ∧ tourSteps (run [TimerFires 1 r1; TimerFires 2 r2] (pageLoad e st l))
     = getTourStepsForPage p)
  ∧ (resolveReference e (pathname l) = None →
     timers (run [TimerFires 1 r1] (pageLoad e st l)) = []
     ∧ location (run [TimerFires 1 r1] (pageLoad e st l)) = l
     ∧ trace (run [TimerFires 1 r1] (pageLoad e st l)) = []
     ∧ run [TimerFires 1 r1; TimerFires 2 r2] (pageLoad e st l)
       = run [TimerFires 1 r1] (pageLoad e st l)
     ∧ isActive (state (run [TimerFires 1 r1] (pageLoad e st l))) = false).
Proof.
  intros Hf%reads_true_flag [= Hu] Hp. simpl in Hu.
  change (run [TimerFires 1 r1; TimerFires 2 r2] (pageLoad e st l))
    with (timerFires 2 r2 (run [TimerFires 1 r1] (pageLoad e st l))).
  rewrite (pageLoad_settles e st l r1 p Hp).
  rewrite (initTour_settled_marker (settling e st l p) Hf Hu).
  change (resolveReference (env (settling e st l p))
            (pathname (location (settling e st l p))))
    with (resolveReference e (pathname l)).
  split.
  - intros Habs. unfold resolveReference. rewrite Habs. simpl.
    match goal with |- context [timerFires 2 r2 ?w] =>
      destruct (start_timer_fires w 0 2 (ms 500) r2 p) as (?&?&?&?)
    end; [done | | done].
    rewrite getCurrentPage_eq in Hp |- *. simpl in *. by injection Hp as ->.
  - intros ->. simpl. by split_and!.
Qed.

Lemma url_marker_starts_the_tour_witness :
  location (run [TimerFires 1 zero]
              (pageLoad full_env empty_storage home_with_marker))
  = home_page
  ∧ timers (run [TimerFires 1 zero]
              (pageLoad full_env empty_storage foreign_with_marker))
    = [].
Proof.
  split.
  - destruct (url_marker_starts_the_tour full_env empty_storage
                home_with_marker "/" zero zero) as [H _];
      [vm_compute; reflexivity | vm_compute; reflexivity
      | vm_compute; reflexivity |].
    destruct H as (_ & H & _); [reflexivity|].
    rewrite H. reflexivity.
  - destruct (url_marker_starts_the_tour full_env empty_storage
                foreign_with_marker "//evil.example/x" zero zero) as [_ H];
      [vm_compute; reflexivity | vm_compute; reflexivity
      | vm_compute; reflexivity |].
    destruct H as (H & _); [reflexivity|]. exact H.
Defined.

Lemma completeTour_storage w :
  localStorage (final (completeTour w)) = localStorage (completed w).
Proof. by rewrite completeTour_eq. Qed.

(** X8.  A recorded completion is honoured: take the storage that
    [completeTour] leaves when the storage accepts writes, and load any
    page with it whose URL does not hold the marker.  Once the components
    have settled no timer is pending, the tour is not active, and the only
    call made is [catGuide.show()] where there is a mascot: nothing will
    start the tour but the visitor. *)
Theorem finished_tour_does_not_start_again (w : World) (e : Env)
    (l : Location) (r : QArith_base.Q) :
  mode (localStorage w) = StorageOk →
  searchParams_has TOUR_PARAM (search l) = false →
  timers (run [TimerFires 1 r]
            (pageLoad e (localStorage (final (completeTour w))) l)) = []
  ∧ isActive (state (run [TimerFires 1 r]
       (pageLoad e (localStorage (final (completeTour w))) l))) = false
  ∧ trace (run [TimerFires 1 r]
       (pageLoad e (localStorage (final (completeTour w))) l))
    = optional (hasCatGuide e) CatShow.
Proof.
  intros Hok Hu. rewrite completeTour_storage.
  destruct (completed_frame w) as (_ & _ & _ & _ & Hm).
  assert (reads_true TOUR_ACTIVE_KEY (localStorage (completed w)) = false) as Hf.
  { unfold reads_true. rewrite Hm, Hok.
    change (items (localStorage (completed w))) with (storage (completed w)).
    by rewrite completed_lookup, Hok. }
  assert (reads_true STORAGE_KEY (localStorage (completed w)) = true) as Hc.
  { unfold reads_true. rewrite Hm, Hok.
    change (items (localStorage (completed w))) with (storage (completed w)).
    by rewrite completed_lookup, Hok. }
  destruct (getCurrentPage_pure
              (initialWorld e (localStorage (completed w)) l)) as [p Hp].
  rewrite (pageLoad_settles _ _ _ _ p Hp), initTour_settled_eq.
  simpl. rewrite Hf, Hu, Hc, andb_false_r.
  by destruct (hasCatGuide e).
Qed.

Lemma finished_tour_does_not_start_again_witness :
  timers (run [TimerFires 1 zero]
            (pageLoad full_env
               (localStorage (final (completeTour home_last_step)))
               home_page)) = [].
Proof.
  destruct (finished_tour_does_not_start_again home_last_step full_env
              home_page zero) as (H & _);
    [vm_compute; reflexivity | vm_compute; reflexivity |].
  exact H.
Defined.

(** X9.  What is lost when the storage refuses writes: [completeTour]
    still marks the tour as completed in memory, but the storage it leaves
    holds no completion, so the next load of the home page schedules the
    automatic start again. *)
Theorem unrecorded_completion_starts_again (w : World) (e : Env)
    (l : Location) (r : QArith_base.Q) :
  mode (localStorage w) = StorageFull →
  storage w !! STORAGE_KEY = None →
  searchParams_has TOUR_PARAM (search l) = false →
  pathname l = HOME_PATH →
  hasCompleted (state (final (completeTour w))) = true
  ∧ timers (run [TimerFires 1 r]
              (pageLoad e (localStorage (final (completeTour w))) l))
    = [mkTimer 2 (ms 1000) CbStartTour].
Proof.
  intros Hfull Hnone Hu Hh. split.
  { rewrite completeTour_eq. simpl.
    by destruct (completed_frame w) as (_ & _ & _ & -> & _). }
  rewrite completeTour_storage.
  destruct (completed_frame w) as (_ & _ & _ & _ & Hm).
  assert (reads_true TOUR_ACTIVE_KEY (localStorage (completed w)) = false) as Hf.
  { unfold reads_true. rewrite Hm, Hfull.
    change (items (localStorage (completed w))) with (storage (completed w)).
    by rewrite completed_lookup, Hfull. }
  assert (reads_true STORAGE_KEY (localStorage (completed w)) = false) as Hc.
  { unfold reads_true. rewrite Hm, Hfull.
    change (items (localStorage (completed w))) with (storage (completed w)).
    rewrite completed_lookup, Hfull. simpl. by rewrite Hnone. }
  destruct (getCurrentPage_pure
              (initialWorld e (localStorage (completed w)) l)) as [p Hp].
  rewrite (pageLoad_settles _ _ _ _ p Hp), initTour_settled_eq.
  simpl. rewrite Hf, Hu, Hc, Hh. done.
Qed.

Lemma unrecorded_completion_starts_again_witness :
  timers (run [TimerFires 1 zero]
            (pageLoad full_env
               (localStorage
                  (final (completeTour
                            (initialWorld full_env full_storage home_page))))
               home_page))
  = [mkTimer 2 (ms 1000) CbStartTour].
Proof.
  destruct (unrecorded_completion_starts_again
              (initialWorld full_env full_storage home_page) full_env
              home_page zero) as (_ & H);
    [vm_compute; reflexivity | vm_compute; reflexivity
    | vm_compute; reflexivity | vm_compute; reflexivity |].
  exact H.
Defined.

(** * The persistence helpers *)

(** X10.  No failure of the storage leaves the persistence helpers: each
    of them returns in every world, whatever the storage does.  Where the
    storage denies all access, the writes change nothing and both flags
    read as unset. *)
Theorem storage_failures_are_swallowed (w : World) (b : bool) :
  returned (setTourActive b w) = true
  ∧ returned (isTourActive w) = true
  ∧ returned (hasCompletedTour w) = true
  ∧ returned (markTourCompleted w) = true
  ∧ returned (clearTourCompletion w) = true
  ∧ returned (clearSavedTourStep w) = true
  ∧ (mode (localStorage w) = StorageDenied →
     setTourActive b w = Ok tt w
     ∧ isTourActive w = Ok false w
     ∧ hasCompletedTour w = Ok false w
     ∧ markTourCompleted w = Ok tt w
     ∧ clearTourCompletion w = Ok tt w
     ∧ clearSavedTourStep w = Ok tt w).
Proof.
  unfold setTourActive, isTourActive, hasCompletedTour, markTourCompleted,
    clearTourCompletion, clearSavedTourStep, try_catch, mbind, Exec_bind,
    localStorage_getItem, localStorage_setItem, localStorage_removeItem.
  destruct b, (mode (localStorage w)); simpl; split_and!; try done.
Qed.

Lemma storage_failures_are_swallowed_witness :
  isTourActive
    (final (setTourActive true (initialWorld full_env denied_storage home_page)))
  = Ok false (initialWorld full_env denied_storage home_page).
Proof.
  destruct (storage_failures_are_swallowed
              (initialWorld full_env denied_storage home_page) true)
    as (_ & _ & _ & _ & _ & _ & H).
  destruct H as (-> & H & _); [reflexivity|]. exact H.
Defined.

Lemma clearTourCompletion_eq w :
  clearTourCompletion w = Ok tt (storage_remove STORAGE_KEY w).
Proof.
  unfold clearTourCompletion, try_catch, localStorage_removeItem, storage_remove.
  by destruct (mode (localStorage w)).
Qed.

(** X11.  With a storage that accepts writes, what is written is read
    back: the cross-page flag reads as the value it was last set to, the
    completion flag reads as set after [markTourCompleted] and as unset
    after [clearTourCompletion].  The two flags are independent: setting
    one leaves the reading of the other as it was. *)
Theorem flags_read_back (w : World) (b : bool) :
  mode (localStorage w) = StorageOk →
  isTourActive (final (setTourActive b w)) = Ok b (final (setTourActive b w))
  ∧ hasCompletedTour (final (markTourCompleted w))
    = Ok true (final (markTourCompleted w))
  ∧ hasCompletedTour (final (clearTourCompletion w))
    = Ok false (final (clearTourCompletion w))
  ∧ (∀ c, hasCompletedTour w = Ok c w →
       hasCompletedTour (final (setTourActive b w))
       = Ok c (final (setTourActive b w)))
  ∧ (∀ a, isTourActive w = Ok a w →
       isTourActive (final (markTourCompleted w))
       = Ok a (final (markTourCompleted w))
       ∧ isTourActive (final (clearTourCompletion w))
         = Ok a (final (clearTourCompletion w))).
Proof.
  intros Hok.
  rewrite setTourActive_eq, markTourCompleted_eq, clearTourCompletion_eq.
  simpl. rewrite !isTourActive_eq, !hasCompletedTour_eq.
  destruct b.
  all: repeat match goal with
  | |- context [mode (localStorage (storage_remove ?k ?w))] =>
      destruct (storage_remove_frame k w) as (_ & _ & _ & _ & ->)
  | |- context [mode (localStorage (storage_set ?k ?v ?w))] =>
      destruct (storage_set_frame k v w) as (_ & _ & _ & _ & ->)
  end.
  all: rewrite Hok.
  all: split_and!.
  all: try intros ? [= <-]; try split.
  all: rewrite ?storage_set_lookup, ?storage_remove_lookup, Hok.
  all: by repeat case_decide.
Qed.

Lemma flags_read_back_witness :
  isTourActive
    (final (setTourActive true (initialWorld full_env empty_storage home_page)))
  = Ok true
      (final (setTourActive true (initialWorld full_env empty_storage home_page))).
Proof.
  destruct (flags_read_back (initialWorld full_env empty_storage home_page)
              true) as (H & _); [reflexivity|].
  exact H.
Defined.

(** * Forward and back *)

(** What a rendering leaves of the state: index, activity and script are
    kept, and a reveal is in progress afterwards exactly if one was before
    or the page has a speech bubble. *)
Lemma renderStep_state w :
  index_in_range w →
  ∃ w', renderStep w = Ok tt w'
    ∧ currentStep (state w') = currentStep (state w)
    ∧ isActive (state w') = isActive (state w)
    ∧ tourSteps w' = tourSteps w
    ∧ env w' = env w
    ∧ isTyping (state w') = isTyping (state w) || hasSpeechBubble (env w)
    ∧ (hasSpeechBubble (env w) = true → pendingReveals w' ≠ 0%nat).
Proof.
  intros Hi.
  set (P := λ w', currentStep (state w') = currentStep (state w)
                  ∧ isActive (state w') = isActive (state w)
                  ∧ tourSteps w' = tourSteps w ∧ env w' = env w).
  assert (wp renderStep (λ _, P) (λ _, True) w) as HP.
  { wp_maintain P (λ _ : World, True) frame_atom. done. }
  assert (wp renderStep
            (λ _ w', isTyping (state w')
                     = isTyping (state w) || hasSpeechBubble (env w)
                     ∧ (hasSpeechBubble (env w) = true
                        → pendingReveals w' ≠ 0%nat))
            (λ _, True) w) as HT.
  { destruct (getCurrentStep_defined w Hi) as (step & Hstep & _).
    destruct (hasSpeechBubble (env w)) eqn:Hb.
    - rewrite orb_true_r.
      eapply wp_mono; [by apply (renderStep_reveals w step) | | done].
      by intros _ w' (-> & -> & _).
    - rewrite orb_false_r. unfold renderStep.
      eapply wp_bind_ok; [exact Hstep|].
      eapply wp_bind_ok; [reflexivity|]. rewrite Hb.
      eapply wp_mono with
        (Q := λ _ w', isTyping (state w') = isTyping (state w))
        (E := λ _, True);
        [|intros _ w' Hq; split; [exact Hq | done]|done].
      wp_maintain (λ w', isTyping (state w') = isTyping (state w))
        (λ _ : World, True)
        ltac:(idtac; first [frame_atom | done]). done. }
  pose proof (wp_conj _ _ _ _ _ _ (renderStep_index w Hi)
                (wp_conj _ _ _ _ _ _ HP HT)) as H.
  unfold wp, never in H. destruct (renderStep w) as [[] w'|]; [|tauto].
  exists w'. unfold P in H. tauto.
Qed.

Lemma nextStep_advances w :
  index_in_range w → isActive (state w) = true →
  isTyping (state w) && hasSpeechBubble (env w) = false →
  (currentStep (state w) < Z.of_nat (length (tourSteps w)) - 1)%Z →
  ∃ w', nextStep w = Ok tt w'
    ∧ currentStep (state w') = (currentStep (state w) + 1)%Z
    ∧ isActive (state w') = true
    ∧ tourSteps w' = tourSteps w
    ∧ env w' = env w
    ∧ isTyping (state w') = isTyping (state w) || hasSpeechBubble (env w).
Proof.
  intros Hi Ha Ht Hlt. unfold nextStep.
  erewrite bind_ok by reflexivity. erewrite bind_ok by reflexivity.
  rewrite Ha, Ht. simpl.
  erewrite bind_ok by reflexivity.
  apply Z.ltb_lt in Hlt as Hlt'. rewrite Hlt'.
  erewrite bind_ok by reflexivity. erewrite bind_ok by reflexivity.
  set (w1 := with_state _ w).
  assert (wp (when (hasSoundManager (env w)
                    && (Z.rem (currentStep (state w1)) 2 =? 0)%Z)
                soundManager.playMeow)
            (λ _ w', state w' = state w1 ∧ tourSteps w' = tourSteps w
                     ∧ env w' = env w) never w1) as H.
  { wp_maintain (λ w', state w' = state w1 ∧ tourSteps w' = tourSteps w
                       ∧ env w' = env w) never frame_atom. done. }
  unfold wp, never in H.
  destruct (when _ _ w1) as [[] w2|] eqn:E; [|done].
  erewrite bind_ok by exact E.
  destruct H as (Hs & Hts & He).
  destruct (renderStep_state w2) as (w' & -> & Hc & Hact & Hts' & He' & Hty & _).
  { red. rewrite Hs, Hts. red in Hi. simpl. lia. }
  exists w'. rewrite Hc, Hact, Hts', He', Hty, Hs, He, Hts. simpl.
  by rewrite Ha.
Qed.

Lemma prevStep_retreats w :
  index_in_range w → isActive (state w) = true →
  (0 < currentStep (state w))%Z →
  ∃ w', prevStep w = Ok tt w'
    ∧ currentStep (state w') = (currentStep (state w) - 1)%Z
    ∧ isActive (state w') = true
    ∧ tourSteps w' = tourSteps w
    ∧ env w' = env w
    ∧ isTyping (state w') = isTyping (state w) || hasSpeechBubble (env w)
    ∧ (hasSpeechBubble (env w) = true → pendingReveals w' ≠ 0%nat).
Proof.
  intros Hi Ha Hlt. unfold prevStep.
  erewrite bind_ok by reflexivity. rewrite Ha. simpl.
  apply Z.ltb_lt in Hlt as Hlt'. rewrite Hlt'.
  erewrite bind_ok by reflexivity.
  set (w1 := with_state _ w).
  destruct (renderStep_state w1) as (w' & -> & Hc & Hact & Hts' & He' & Hty & Hp).
  { red. red in Hi. simpl. lia. }
  exists w'. rewrite Hc, Hact, Hts', He', Hty. simpl. by rewrite Ha.
Qed.

(** X12.  Going back undoes going forward: in a reachable world where the
    tour is active, no reveal is in progress and the index is below the
    last one, [nextStep] moves the index up by one, and [prevStep] right
    after it brings the index back; the tour is still active and the script
    is the same. *)
Theorem prev_undoes_next (w : World) :
  reachable w → isActive (state w) = true → isTyping (state w) = false →
  (currentStep (state w) < Z.of_nat (length (tourSteps w)) - 1)%Z →
  currentStep (state (run [Call CmdNext] w)) = (currentStep (state w) + 1)%Z
  ∧ currentStep (state (run [Call CmdNext; Call CmdPrev] w))
    = currentStep (state w)
  ∧ isActive (state (run [Call CmdNext; Call CmdPrev] w)) = true
  ∧ tourSteps (run [Call CmdNext; Call CmdPrev] w) = tourSteps w.
Proof.
  intros (_ & Hi & _)%reachable_tour Ha Ht Hlt.
  change (run [Call CmdNext; Call CmdPrev] w)
    with (final (prevStep (final (nextStep w)))).
  change (run [Call CmdNext] w) with (final (nextStep w)).
  destruct (nextStep_advances w) as (w1 & -> & Hc & Ha1 & Hts & He & _);
    [done | done | by rewrite Ht | done |].
  simpl.
  destruct (prevStep_retreats w1) as (w2 & -> & Hc2 & Ha2 & Hts2 & _).
  { red in Hi |- *. rewrite Hc, Hts. lia. }
  { done. }
  { destruct Hi. lia. }
  simpl. rewrite Hc2, Hts2, Hc, Hts. split_and!; [done | lia | done | done].
Qed.

Lemma reachable_run acts w : reachable w → reachable (run acts w).
Proof.
  intros (e & st & l & before & ->). exists e, st, l, (before ++ acts).
  unfold run. by rewrite foldl_app.
Qed.

Lemma first_step_shown_reachable : reachable first_step_shown.
Proof. apply reachable_run, reachable_first_visit. Qed.

Lemma prev_undoes_next_witness :
  currentStep (state (run [Call CmdNext; Call CmdPrev] first_step_shown))
  = 0%Z.
Proof.
  destruct (prev_undoes_next first_step_shown) as (_ & H & _).
  - apply first_step_shown_reachable.
  - vm_compute; reflexivity.
  - vm_compute; reflexivity.
  - vm_compute; reflexivity.
  - rewrite H. vm_compute; reflexivity.
Defined.

(** X13.  Going forward does not undo going back while the message is
    still being revealed: in a reachable world where the tour is active
    and the index is above 0, [prevStep] followed at once by [nextStep]
    leaves the index one lower on a page with a speech bubble (the second
    call only finishes the reveal), and back where it was on a page
    without one.  Once the reveal has finished, [nextStep] brings the index
    back on every page. *)
Theorem next_after_prev (w : World) :
  reachable w → isActive (state w) = true →
  (0 < currentStep (state w))%Z →
  currentStep (state (run [Call CmdPrev; Call CmdNext] w))
  = (if hasSpeechBubble (env w) then currentStep (state w) - 1
     else currentStep (state w))%Z
  ∧ currentStep (state (run [Call CmdPrev; RevealDone; Call CmdNext] w))
  = currentStep (state w).
Proof.
  intros (_ & Hi & Hty)%reachable_tour Ha Hlt.
  change (run [Call CmdPrev; Call CmdNext] w)
    with (final (nextStep (final (prevStep w)))).
  change (run [Call CmdPrev; RevealDone; Call CmdNext] w)
    with (final (nextStep (revealDone (final (prevStep w))))).
  destruct (prevStep_retreats w) as (w1 & -> & Hc & Ha1 & Hts & He & Ht1 & Hp);
    [done..|].
  simpl.
  assert (index_in_range w1) as Hi1.
  { red in Hi |- *. rewrite Hc, Hts. lia. }
  assert (currentStep (state w1) < Z.of_nat (length (tourSteps w1)) - 1)%Z
    as Hlt1.
  { red in Hi. rewrite Hc, Hts. lia. }
  split.
  - destruct (hasSpeechBubble (env w)) eqn:Hb.
    + rewrite orb_true_r in Ht1.
      destruct (getCurrentStep_defined w1 Hi1) as (step & Hstep & _).
      unfold nextStep. erewrite bind_ok by reflexivity.
      erewrite bind_ok by reflexivity. rewrite Ha1, Ht1, He, Hb. simpl.
      erewrite bind_ok by exact Hstep. simpl.
      done.
    + destruct (nextStep_advances w1) as (w2 & -> & Hc2 & _); [done..| |done|].
      { rewrite He, Hb. apply andb_false_r. }
      simpl. lia.
  - assert (currentStep (state (revealDone w1)) = currentStep (state w1)
            ∧ isActive (state (revealDone w1)) = true
            ∧ tourSteps (revealDone w1) = tourSteps w1
            ∧ env (revealDone w1) = env w1
            ∧ isTyping (state (revealDone w1)) && hasSpeechBubble (env w)
              = false) as (Hc' & Ha' & Hts' & He' & Ht').
    { unfold revealDone. destruct (pendingReveals w1) eqn:Hn; simpl.
      - split_and!; try done. destruct (hasSpeechBubble (env w)) eqn:Hb.
        + by destruct Hp.
        + apply andb_false_r.
      - done. }
    destruct (nextStep_advances (revealDone w1)) as (w2 & -> & Hc2 & _).
    + red. rewrite Hc', Hts'. exact Hi1.
    + done.
    + by rewrite He', He.
    + by rewrite Hc', Hts'.
    + simpl. lia.
Qed.

Lemma second_step_shown_reachable : reachable second_step_shown.
Proof. apply reachable_run, reachable_first_visit. Qed.

Lemma next_after_prev_witness :
  currentStep (state (run [Call CmdPrev; Call CmdNext] second_step_shown))
  = 0%Z
  ∧ currentStep
      (state (run [Call CmdPrev; RevealDone; Call CmdNext] second_step_shown))
    = 1%Z.
Proof.
  destruct (next_after_prev second_step_shown) as (H1 & H2).
  - apply second_step_shown_reachable.
  - vm_compute; reflexivity.
  - vm_compute; reflexivity.
  - rewrite H1, H2. split; vm_compute; reflexivity.
Defined.

(** * Keys and clicks *)

Lemma initSoundsOnInteraction_tour w0 :
  maintains (tour_unchanged w0) (tour_unchanged w0) initSoundsOnInteraction.
Proof.
  apply maintains_never. unfold tour_unchanged. maintain frame_atom.
Qed.

(** X14.  Keys that mean nothing to the tour: a key press while the tour is
    not active, or of a key other than Enter, ArrowRight, space, ArrowLeft
    and Escape, changes neither the tour state nor the script, the storage,
    the URL or a pending navigation.  (The first interaction may still
    start the sounds.) *)
Theorem idle_keys_are_ignored (key : string) (w : World) :
  isActive (state w) = false
  ∨ key ∉ ["Enter"; "ArrowRight"; " "; "ArrowLeft"; "Escape"] →
  state (perform (KeyDown key) w) = state w
  ∧ tourSteps (perform (KeyDown key) w) = tourSteps w
  ∧ localStorage (perform (KeyDown key) w) = localStorage w
  ∧ location (perform (KeyDown key) w) = location w
  ∧ pendingNav (perform (KeyDown key) w) = pendingNav w.
Proof.
  intros H. simpl.
  set (w1 := listener (soundInitListeners w) initSoundsOnInteraction w).
  assert (tour_unchanged w w1) as (Hs & Hts & Hst & Hl & Hp & Hn).
  { apply listener_maintains; [apply initSoundsOnInteraction_tour | done]. }
  clearbody w1.
  assert (onKeydown key w1 = Ok tt w1) as Hk.
  { unfold onKeydown. erewrite bind_ok by reflexivity. rewrite Hs.
    destruct (isActive (state w)); [|done]. simpl.
    destruct H as [H|H]; [done|].
    repeat (rewrite (bool_decide_false (key = _));
            [|intros ->; apply H; set_solver]).
    done. }
  unfold listener. destruct (navListeners w1); [|done]. by rewrite Hk.
Qed.

Lemma idle_keys_are_ignored_witness :
  state (perform (KeyDown "Tab") first_step_shown) = state first_step_shown.
Proof.
  destruct (idle_keys_are_ignored "Tab" first_step_shown) as (H & _);
    [|exact H].
  right. intros H.
  repeat (apply elem_of_cons in H as [H|H]; [discriminate|]).
  by apply elem_of_nil in H.
Defined.

(** X15.  A click on the mascot (and on none of the tour buttons): while
    the tour is active it changes neither the tour state nor the script or
    the storage, unless the click is also inside the restart button; while
    the tour is not active, and the click listener is installed, it starts
    the tour: active at index 0 with the script of the page. *)
Theorem mascot_click (t : ClickTarget) (w : World) (p : string) :
  inTourNext t = false → inTourPrev t = false → inTourSkip t = false →
  inCatGuide t = true →
  getCurrentPage w = Ok p w →
  (isActive (state w) = true → inRestartTour t = false →
     state (perform (Click t) w) = state w
     ∧ tourSteps (perform (Click t) w) = tourSteps w
     ∧ localStorage (perform (Click t) w) = localStorage w)
  ∧ (isActive (state w) = false → navListeners w = true →
     isActive (state (perform (Click t) w)) = true
     ∧ currentStep (state (perform (Click t) w)) = 0%Z
     ∧ tourSteps (perform (Click t) w) = getTourStepsForPage p).
Proof.
  intros Hn Hpv Hsk Hcat Hp. simpl.
  set (w1 := listener (soundInitListeners w) initSoundsOnInteraction w).
  assert (tour_unchanged w w1) as (Hs & Hts & Hst & Hl & Hpn & Hnl).
  { apply listener_maintains; [apply initSoundsOnInteraction_tour | done]. }
  clearbody w1. split.
  - intros Ha Hr.
    assert (onClick t w1 = Ok tt w1) as Hk.
    { unfold onClick. erewrite bind_ok by reflexivity.
      erewrite bind_ok by reflexivity.
      by rewrite Hn, Hpv, Hsk, Hcat, Hs, Ha, Hr. }
    unfold listener. destruct (navListeners w1); [|done]. by rewrite Hk.
  - intros Ha Hnav. unfold listener. rewrite Hnl, Hnav.
    unfold onClick. erewrite bind_ok by reflexivity.
    erewrite bind_ok by reflexivity.
    rewrite Hn, Hpv, Hsk, Hcat, Hs, Ha. simpl.
    assert (wp (when (hasSoundManager (env w1))
                  (soundManager.init;; soundManager.playPurr))
              (λ _ w', location w' = location w1) never w1) as H.
    { wp_maintain (λ w', location w' = location w1) never frame_atom. done. }
    unfold wp, never in H.
    destruct (when _ _ w1) as [[] w2|] eqn:E; [|done].
    erewrite bind_ok by exact E.
    destruct (startTour_started w2 p) as (w' & Hst' & ? & ? & ? & _).
    { apply (getCurrentPage_location w); [congruence | done]. }
    unfold restartTour. rewrite Hst'. done.
Qed.

Lemma mascot_click_witness :
  state (perform (Click on_mascot) first_step_shown) = state first_step_shown.
Proof.
  destruct (mascot_click on_mascot first_step_shown "/") as [H _];
    [reflexivity | reflexivity | reflexivity | reflexivity
    | vm_compute; reflexivity |].
  destruct H as (H & _); [vm_compute; reflexivity | reflexivity |].
  exact H.
Defined.

(** * One chain of ambient purrs *)

Lemma handles_fresh_setTimeout w cb d :
  handles_fresh w →
  handles_fresh (with_nextHandle Pos.succ
    (with_timers (λ ts, ts ++ [mkTimer (nextHandle w) d cb]) w)).
Proof.
  intros [Hnd Hlt]. split; simpl.
  - rewrite fmap_app. apply NoDup_app. split_and!; [done| |apply NoDup_singleton].
    intros h Hin ->%list_elem_of_singleton.
    apply list_elem_of_fmap in Hin as (t & Hh & Ht).
    specialize (Hlt t Ht). simpl in *. lia.
  - intros t [Ht| ->%list_elem_of_singleton]%elem_of_app.
    + specialize (Hlt t Ht). lia.
    + simpl. lia.
Qed.

Lemma handles_fresh_filter (P : Timer → Prop) `{∀ t, Decision (P t)} w :
  handles_fresh w → handles_fresh (with_timers (filter P) w).
Proof.
  intros [Hnd Hlt]. split; simpl.
  - eapply sublist_NoDup; [exact Hnd | apply fmap_sublist, sublist_filter].
  - intros t [_ Ht]%list_elem_of_filter. by apply Hlt.
Qed.

Lemma purr_timers_snoc w w' t :
  timers w' = timers w ++ [t] →
  purr_timers w' = purr_timers w
                   ++ (if decide (callback t = CbRandomPurr) then [t] else []).
Proof.
  intros Ht. unfold purr_timers. by rewrite Ht, filter_app.
Qed.

Lemma chain_inv_setTimeout w cb d :
  cb ≠ CbRandomPurr → chain_inv w →
  chain_inv (with_nextHandle Pos.succ
    (with_timers (λ ts, ts ++ [mkTimer (nextHandle w) d cb]) w)).
Proof.
  intros Hcb [Hf Hp]. split; [by apply handles_fresh_setTimeout|].
  erewrite purr_timers_snoc by reflexivity. simpl.
  rewrite decide_False by done. by rewrite app_nil_r.
Qed.

Ltac chain_atom :=
  idtac; match goal with H : chain_inv _ |- _ =>
    first [ exact H | apply chain_inv_setTimeout; [discriminate | exact H] ]
  end.

Lemma startAmbientPurr_chain :
  maintains chain_inv chain_inv soundManager.startAmbientPurr.
Proof.
  intros w [Hf Hp]. unfold soundManager.startAmbientPurr.
  eapply wp_bind_ok; [reflexivity|].
  destruct (purrInterval (sound w)) eqn:E.
  { unfold wp. simpl. split; [done|]. by rewrite E. }
  eapply wp_bind_ok; [reflexivity|].
  unfold wp, modify. split.
  - by apply (handles_fresh_setTimeout w).
  - simpl. erewrite purr_timers_snoc by reflexivity.
    rewrite Hp. simpl. by eexists.
Qed.

Lemma NoDup_fmap_eq {A B} (f : A → B) (l : list A) x y :
  NoDup (f <$> l) → x ∈ l → y ∈ l → f x = f y → x = y.
Proof.
  induction l as [|a l IH]; simpl; [by intros _ ?%elem_of_nil|].
  intros [Hnot Hnd]%NoDup_cons [->|Hx]%elem_of_cons [->|Hy]%elem_of_cons Hf;
    [done| | |by apply IH].
  - destruct Hnot. rewrite Hf. by apply list_elem_of_fmap_2.
  - destruct Hnot. rewrite <- Hf. by apply list_elem_of_fmap_2.
Qed.

Lemma filter_filter_keeps {A} (P Q : A → Prop)
    `{∀ x, Decision (P x)} `{∀ x, Decision (Q x)} (l : list A) :
  (∀ x, x ∈ l → P x → Q x) → filter P (filter Q l) = filter P l.
Proof.
  induction l as [|a l IH]; [done|]. intros Hl.
  assert (filter P (filter Q l) = filter P l) as IH'.
  { apply IH. intros x Hx. apply Hl. by right. }
  destruct (decide (Q a)) as [Hq|Hq].
  - rewrite (filter_cons_True Q) by done.
    destruct (decide (P a)).
    + rewrite !(filter_cons_True P) by done. by rewrite IH'.
    + rewrite !(filter_cons_False P) by done. done.
  - rewrite (filter_cons_False Q) by done.
    rewrite (filter_cons_False P); [done|].
    intros Hp. apply Hq, Hl; [by left | done].
Qed.

(** Removing the timer of the recorded handle removes the purr timer. *)
Lemma purr_timers_clear w h d :
  purr_timers w = [mkTimer h d CbRandomPurr] →
  purr_timers (with_timers (filter (λ t, handle t ≠ h)) w) = [].
Proof.
  intros Hp. apply elem_of_nil_inv. intros t.
  unfold purr_timers. simpl.
  intros [Hcb [Hne Ht]%list_elem_of_filter]%list_elem_of_filter.
  assert (t ∈ purr_timers w) as Hin by (by apply list_elem_of_filter).
  rewrite Hp in Hin. apply list_elem_of_singleton in Hin. by subst t.
Qed.

Lemma stopAmbientPurr_chain :
  maintains chain_inv chain_inv soundManager.stopAmbientPurr.
Proof.
  intros w [Hf Hp]. unfold soundManager.stopAmbientPurr.
  eapply wp_bind_ok; [reflexivity|].
  destruct (purrInterval (sound w)) as [h|] eqn:E.
  - destruct Hp as [d Hp].
    eapply wp_bind_ok; [reflexivity|].
    unfold wp, modify. split.
    + by apply (handles_fresh_filter (λ t, handle t ≠ h)).
    + simpl. by apply (purr_timers_clear w h d).
  - unfold wp. simpl. split; [done|]. by rewrite E.
Qed.
#[export] Hint Resolve startAmbientPurr_chain stopAmbientPurr_chain : tour.

(** A timer that is not the purr timer leaves the list. *)
Lemma purr_timers_other w i t :
  handles_fresh w →
  timers w !! i = Some t → callback t ≠ CbRandomPurr →
  purr_timers (with_timers (filter (λ t', handle t' ≠ handle t)) w)
  = purr_timers w.
Proof.
  intros [Hnd _] Hi Hcb. unfold purr_timers. simpl.
  apply filter_filter_keeps. intros t' Ht' Hcb' Hh.
  apply Hcb. rewrite <- (NoDup_fmap_eq handle (timers w) t' t); try done.
  by eapply list_elem_of_lookup_2.
Qed.

Lemma timerFires_chain h rnd w : chain_inv w → chain_inv (timerFires h rnd w).
Proof.
  intros [Hf Hp]. unfold timerFires.
  destruct (list_find _ _) as [[i t]|] eqn:Hfind; [|done].
  apply list_find_Some in Hfind as (Hi & Hh & _). subst h.
  set (w1 := with_timers _ w).
  assert (handles_fresh w1) as Hf1 by (by apply handles_fresh_filter).
  destruct (decide (callback t = CbRandomPurr)) as [Hcb|Hcb].
  - assert (purr_timers w1 = []) as Hp1.
    { apply list_elem_of_lookup_2 in Hi.
      assert (t ∈ purr_timers w) as Hin by (by apply list_elem_of_filter).
      destruct (purrInterval (sound w)) as [h|]; [|rewrite Hp in Hin; by apply elem_of_nil in Hin].
      destruct Hp as [d Hp]. rewrite Hp in Hin.
      apply list_elem_of_singleton in Hin. subst t.
      by apply (purr_timers_clear w h d). }
    rewrite Hcb. apply wp_final.
    unfold runCallback, soundManager.playRandomPurr.
    eapply wp_bind_ok; [reflexivity|].
    eapply (wp_call (λ w', handles_fresh w' ∧ purr_timers w' = []));
      [maintain frame_atom | done |].
    intros _ w2 [Hf2 Hp2]. eapply wp_bind_ok; [reflexivity|].
    unfold wp, modify. split.
    + by apply (handles_fresh_setTimeout w2).
    + simpl. erewrite purr_timers_snoc by reflexivity.
      rewrite Hp2. simpl. by eexists.
  - assert (chain_inv w1) as H1.
    { split; [done|]. unfold w1. rewrite (purr_timers_other w i t); done. }
    apply maintains_final; [|done].
    destruct (callback t); [maintain chain_atom..|done].
Qed.

Lemma perform_chain a w : chain_inv w → chain_inv (perform a w).
Proof.
  apply (perform_maintains _ any_call); try done.
  - intros c. destruct c; maintain chain_atom.
  - intros c _. destruct c; maintain chain_atom.
  - intros key. maintain chain_atom.
  - intros t. maintain chain_atom.
  - maintain chain_atom.
  - intros h rnd w'. apply timerFires_chain.
  - intros w'. unfold revealDone. by destruct (pendingReveals w').
  - by destruct a.
Qed.

Lemma reachable_chain w : reachable w → chain_inv w.
Proof.
  intros (e & st & l & acts & ->).
  induction acts as [|a acts IH] using rev_ind.
  - destruct (pageLoad_eq e st l) as [p ->]. split; [split|]; simpl.
    + apply NoDup_singleton.
    + by intros t ->%list_elem_of_singleton.
    + done.
  - rewrite run_snoc. by apply perform_chain.
Qed.

(** X16.  There is one chain of ambient purrs at most, and it does not die
    unnoticed: in every reachable world the pending timers have distinct
    handles, exactly one purr timer is pending when [purrInterval] holds a
    handle (the timer of that handle) and none when it is [null].  So the
    guard of [startAmbientPurr] never lets a second chain start and never
    blocks a start when no purr is scheduled. *)
Theorem one_ambient_purr_chain (w : World) :
  reachable w →
  NoDup (handle <$> timers w)
  ∧ length (purr_timers w)
    = match purrInterval (sound w) with Some _ => 1%nat | None => 0%nat end
  ∧ (∀ h, purrInterval (sound w) = Some h →
       ∃ d, mkTimer h d CbRandomPurr ∈ timers w).
Proof.
  intros [[Hnd _] Hp]%reachable_chain. split; [done|].
  destruct (purrInterval (sound w)) as [h|].
  - destruct Hp as [d Hp]. split; [by rewrite Hp|].
    intros ? [= <-]. exists d.
    assert (mkTimer h d CbRandomPurr ∈ purr_timers w) as Hin.
    { rewrite Hp. by apply list_elem_of_singleton. }
    by apply list_elem_of_filter in Hin as [_ ?].
  - split; [by rewrite Hp | done].
Qed.

Lemma one_ambient_purr_chain_witness : length (purr_timers first_visit) = 1%nat.
Proof.
  destruct (one_ambient_purr_chain first_visit reachable_first_visit)
    as (_ & H & _).
  rewrite H. vm_compute. reflexivity.
Defined.

(** * Sound needs an audio context *)

Ltac context_atom :=
  idtac; match goal with H : context_before_sound _ |- _ =>
    first [ exact H
          | intros ?; rewrite sounds_silent by done; by apply H
          | by intros ? ]
  end.

Lemma audible_context e :
  maintains context_before_sound context_before_sound (soundManager.audible e).
Proof.
  intros w Hw. unfold wp. rewrite audible_eq.
  destruct (isEnabled (sound w) && audioContext (sound w)) eqn:E; simpl.
  - apply andb_true_iff in E as [_ E]. intros Hc. simpl in Hc. congruence.
  - by rewrite with_trace_nil.
Qed.
#[export] Hint Resolve audible_context : tour.

Lemma perform_context a w :
  context_before_sound w → context_before_sound (perform a w).
Proof.
  apply (perform_maintains _ any_call); try done.
  - intros c. destruct c; maintain context_atom.
  - intros c _. destruct c; maintain context_atom.
  - intros key. maintain context_atom.
  - intros t. maintain context_atom.
  - maintain context_atom.
  - intros h rnd w' Hw'. apply timerFires_maintains; [done| |done].
    intros cb. destruct cb; maintain context_atom.
  - intros w'. unfold revealDone. by destruct (pendingReveals w').
  - by destruct a.
Qed.

Lemma reachable_context w : reachable w → context_before_sound w.
Proof.
  intros (e & st & l & acts & ->).
  induction acts as [|a acts IH] using rev_ind.
  - by destruct (pageLoad_eq e st l) as [p ->].
  - rewrite run_snoc. by apply perform_context.
Qed.

(** X17.  Nothing is heard before an audio context exists: in every
    reachable world, if [audioContext] is still [null] then no sound has
    been played, whoever asked for it. *)
Theorem no_sound_before_audio_context (w : World) :
  reachable w →
  (audioContext (sound w) = false → sounds w = [])
  ∧ (sounds w ≠ [] → audioContext (sound w) = true).
Proof.
  intros H%reachable_context. split; [done|].
  destruct (audioContext (sound w)) eqn:E; [done|].
  intros Hne. destruct Hne. by apply H.
Qed.

Lemma no_sound_before_audio_context_witness :
  sounds (pageLoad full_env empty_storage home_page) = [].
Proof.
  destruct (no_sound_before_audio_context
              (pageLoad full_env empty_storage home_page)) as [H _].
  - by exists full_env, empty_storage, home_page, [].
  - apply H. vm_compute. reflexivity.
Defined.

(** The collaborators of a page do not come and go. *)
Lemma run_env acts w : env (run acts w) = env w.
Proof.
  apply (run_maintains (λ w', env w' = env w) any_call); try done.
  - intros c. destruct c; maintain frame_atom.
  - intros c _. destruct c; maintain frame_atom.
  - intros key. maintain frame_atom.
  - intros t. maintain frame_atom.
  - maintain frame_atom.
  - intros h rnd w' Hw'. apply timerFires_maintains; [done| |done].
    intros cb. destruct cb; maintain frame_atom.
  - intros w'. unfold revealDone. by destruct (pendingReveals w').
  - apply Forall_forall. by intros [].
Qed.

Lemma init_unsupported :
  maintains unsupported unsupported soundManager.init.
Proof.
  intros w [He Hc]. unfold soundManager.init.
  eapply wp_bind_ok; [reflexivity|]. rewrite Hc.
  eapply wp_bind_ok; [reflexivity|]. rewrite He.
  eapply wp_bind_ok; [reflexivity|]. by unfold wp, modify.
Qed.
#[export] Hint Resolve init_unsupported : tour.

Lemma perform_unsupported a w : unsupported w → unsupported (perform a w).
Proof.
  apply (perform_maintains _ any_call); try done.
  - intros c. destruct c; maintain frame_atom.
  - intros c _. destruct c; maintain frame_atom.
  - intros key. maintain frame_atom.
  - intros t. maintain frame_atom.
  - maintain frame_atom.
  - intros h rnd w' Hw'. apply timerFires_maintains; [done| |done].
    intros cb. destruct cb; maintain frame_atom.
  - intros w'. unfold revealDone. by destruct (pendingReveals w').
  - by destruct a.
Qed.

(** X18.  In a browser without Web Audio the page stays silent: whatever
    happens on it, no audio context is ever created and no sound is played.
    Each call of [init] logs the warning again and leaves the sound manager
    disabled. *)
Theorem silent_without_web_audio (e : Env) (st : Storage) (l : Location)
    (acts : list Action) :
  audioSupported e = false →
  audioContext (sound (run acts (pageLoad e st l))) = false
  ∧ sounds (run acts (pageLoad e st l)) = []
  ∧ (hasSoundManager e = true →
     isEnabled (sound (run (acts ++ [Sound SndInit]) (pageLoad e st l)))
     = false
     ∧ last (trace (run (acts ++ [Sound SndInit]) (pageLoad e st l)))
       = Some (ConsoleWarn "Web Audio API not supported")).
Proof.
  intros He.
  assert (unsupported (run acts (pageLoad e st l))) as [He' Hc].
  { induction acts as [|a acts IH] using rev_ind.
    - by destruct (pageLoad_eq e st l) as [p ->].
    - rewrite run_snoc. by apply perform_unsupported. }
  split; [done|]. split.
  - apply reachable_context; [|done]. by eexists _, _, _, _.
  - intros Hs. rewrite run_snoc.
    assert (env (run acts (pageLoad e st l)) = e) as Hew.
    { rewrite run_env. by destruct (pageLoad_eq e st l) as [p ->]. }
    set (w := run acts (pageLoad e st l)) in *. clearbody w.
    simpl. unfold listener. rewrite Hew, Hs.
    unfold soundManager.init.
    erewrite bind_ok by reflexivity. rewrite Hc.
    erewrite bind_ok by reflexivity. rewrite He'.
    erewrite bind_ok by reflexivity. simpl. split; [done|].
    by rewrite last_snoc.
Qed.

Lemma silent_without_web_audio_witness :
  sounds (run [TimerFires 1 zero; TimerFires 2 zero; KeyDown "Enter"]
            (pageLoad no_web_audio empty_storage home_page)) = [].
Proof.
  destruct (silent_without_web_audio no_web_audio empty_storage home_page
              [TimerFires 1 zero; TimerFires 2 zero; KeyDown "Enter"])
    as (_ & H & _); [reflexivity|].
  exact H.
Defined.

(** * The volume and the first interaction *)

Lemma clamp_in_range v :
  QArith_base.Qle (ms 0) (Qminmax.Qmax (ms 0) (Qminmax.Qmin (ms 1) v))
  ∧ QArith_base.Qle (Qminmax.Qmax (ms 0) (Qminmax.Qmin (ms 1) v)) (ms 1).
Proof.
  split.
  - apply Qminmax.Q.le_max_l.
  - apply Qminmax.Q.max_lub; [done | apply Qminmax.Q.le_min_l].
Qed.

Ltac volume_atom :=
  idtac; match goal with H : volume_in_range _ |- _ =>
    first [ exact H | apply clamp_in_range ]
  end.

Lemma perform_volume a w : volume_in_range w → volume_in_range (perform a w).
Proof.
  apply (perform_maintains _ any_call); try done.
  - intros c. destruct c; maintain volume_atom.
  - intros c _. destruct c; maintain volume_atom.
  - intros key. maintain volume_atom.
  - intros t. maintain volume_atom.
  - maintain volume_atom.
  - intros h rnd w' Hw'. apply timerFires_maintains; [done| |done].
    intros cb. destruct cb; maintain volume_atom.
  - intros w'. unfold revealDone. by destruct (pendingReveals w').
  - by destruct a.
Qed.

(** X19.  The volume stays between 0 and 1: it does in every reachable
    world, and [setVolume] stores its argument when that lies in the
    interval, 0 when it lies below and 1 when it lies above.  (Volumes are
    exact rationals here; a [NaN] argument is outside this statement.) *)
Theorem volume_stays_in_unit_interval (w : World) (v : QArith_base.Q) :
  (reachable w →
   QArith_base.Qle (ms 0) (volume (sound w))
   ∧ QArith_base.Qle (volume (sound w)) (ms 1))
  ∧ (QArith_base.Qle (ms 0) v → QArith_base.Qle v (ms 1) →
     QArith_base.Qeq (volume (sound (final (soundManager.setVolume v w)))) v)
  ∧ (QArith_base.Qle v (ms 0) →
     QArith_base.Qeq (volume (sound (final (soundManager.setVolume v w)))) (ms 0))
  ∧ (QArith_base.Qle (ms 1) v →
     QArith_base.Qeq (volume (sound (final (soundManager.setVolume v w)))) (ms 1)).
Proof.
  split_and!.
  - intros (e & st & l & acts & ->).
    induction acts as [|a acts IH] using rev_ind.
    + by destruct (pageLoad_eq e st l) as [p ->].
    + rewrite run_snoc. by apply perform_volume.
  - intros H0 H1. simpl.
    rewrite Qminmax.Q.min_r by done. by rewrite Qminmax.Q.max_r.
  - intros H0. simpl.
    assert (QArith_base.Qle v (ms 1)) as H1.
    { eapply QArith_base.Qle_trans; [exact H0 | done]. }
    rewrite Qminmax.Q.min_r by done. by rewrite Qminmax.Q.max_l.
  - intros H1. simpl.
    rewrite Qminmax.Q.min_l by done. by rewrite Qminmax.Q.max_r.
Qed.

Lemma volume_stays_in_unit_interval_witness :
  QArith_base.Qle (volume (sound first_visit)) (ms 1).
Proof.
  destruct (volume_stays_in_unit_interval first_visit (ms 2)) as [H _].
  by destruct (H reachable_first_visit).
Defined.

(** X20.  The sounds are initialised once: [initSoundsOnInteraction]
    returns in every world, leaves [soundsInitialized] set, and run again
    in the world it leaves it does nothing at all. *)
Theorem sounds_are_initialised_once (w : World) :
  ∃ w1, initSoundsOnInteraction w = Ok tt w1
    ∧ soundsInitialized w1 = true
    ∧ initSoundsOnInteraction w1 = Ok tt w1.
Proof.
  assert (∀ w1, soundsInitialized w1 = true →
                initSoundsOnInteraction w1 = Ok tt w1) as Hdone.
  { intros w1 H1. unfold initSoundsOnInteraction.
    erewrite bind_ok by reflexivity. by rewrite H1. }
  destruct (soundsInitialized w) eqn:E.
  { exists w. rewrite Hdone; done. }
  assert (wp initSoundsOnInteraction
            (λ _ w', soundsInitialized w' = true) never w) as H.
  { unfold initSoundsOnInteraction.
    eapply wp_bind_ok; [reflexivity|]. rewrite E.
    eapply wp_bind_ok; [reflexivity|].
    wp_maintain (λ w', soundsInitialized w' = true) never frame_atom. done. }
  unfold wp, never in H.
  destruct (initSoundsOnInteraction w) as [[] w1|]; [|done].
  exists w1. split_and!; [done | done | by apply Hdone].
Qed.

(** * The step counter *)

Ltac counter_atom :=
  idtac; match goal with H : counter_inv _ |- _ =>
    first [ exact H
          | destruct H as [? ?]; split;
            [ assumption
            | apply Forall_app; split; [assumption | by repeat constructor] ] ]
  end.

Lemma renderStep_counter : maintains counter_inv never renderStep.
Proof.
  intros w [Hi Hc]. unfold renderStep.
  destruct (getCurrentStep_defined w Hi) as (step & Hstep & _).
  eapply wp_bind_ok; [exact Hstep|].
  eapply wp_bind_ok; [reflexivity|].
  set (P := λ w', counter_inv w'
                  ∧ currentStep (state w') = currentStep (state w)
                  ∧ tourSteps w' = tourSteps w).
  assert (P w) as HP by done.
  assert (∀ A (m : Exec A), maintains counter_inv never m →
            maintains (λ w', currentStep (state w') = currentStep (state w)
                             ∧ tourSteps w' = tourSteps w) never m →
            maintains P never m) as Hboth.
  { intros A m H1 H2 w' (Hw1 & Hw2). 
    pose proof (wp_conj _ _ _ _ _ _ (H1 w' Hw1) (H2 w' Hw2)) as H.
    eapply wp_mono; [exact H | by intros ? ? [? ?] | by intros ? [[] _]]. }
  eapply (wp_call P); [apply Hboth; [maintain counter_atom | maintain frame_atom]
                      | exact HP |].
  intros _ w1 H1.
  eapply wp_bind_ok; [reflexivity|].
  eapply (wp_call P); [apply Hboth; [maintain counter_atom | maintain frame_atom]
                      | exact H1 |].
  intros _ w2 H2.
  eapply (wp_call P); [apply Hboth; [maintain counter_atom | maintain frame_atom]
                      | exact H2 |].
  intros _ w3 ([Hi3 Hc3] & Hs3 & Ht3).
  destruct (hasSpeechBubble (env w)); [|done]. unfold when.
  eapply wp_bind_ok; [reflexivity|].
  eapply wp_bind_ok; [reflexivity|].
  eapply wp_bind_ok; [reflexivity|].
  wp_maintain counter_inv never counter_atom.
  split; [exact Hi3|]. apply Forall_app. split; [done|].
  constructor; [|done]. simpl. red in Hi3. lia.
Qed.
#[export] Hint Resolve renderStep_counter : tour.

Lemma counter_inv_index w i :
  counter_inv w → (0 ≤ i < Z.of_nat (length (tourSteps w)))%Z →
  counter_inv (with_state (set_currentStep i) w).
Proof. intros [_ Hc] Hi. by split. Qed.

Lemma nextStep_counter : maintains counter_inv never nextStep.
Proof.
  intros w Hw. pose proof Hw as [Hi Hc]. unfold nextStep.
  eapply wp_bind_ok; [reflexivity|]. eapply wp_bind_ok; [reflexivity|].
  destruct (isActive (state w)); simpl; [|done].
  destruct (getCurrentStep_defined w Hi) as (step & Hstep & _).
  destruct (isTyping (state w) && hasSpeechBubble (env w)).
  - eapply wp_bind_ok; [exact Hstep|].
    wp_maintain counter_inv never counter_atom.
  - eapply wp_bind_ok; [reflexivity|].
    destruct (Z.ltb_spec (currentStep (state w))
                (Z.of_nat (length (tourSteps w)) - 1)) as [Hlt|Hge].
    + eapply wp_bind_ok; [reflexivity|].
      wp_maintain counter_inv never counter_atom.
      split; [|done]. red in Hi |- *. simpl. lia.
    + eapply wp_bind_ok; [exact Hstep|].
      wp_maintain counter_inv never counter_atom.
Qed.

Lemma prevStep_counter : maintains counter_inv never prevStep.
Proof.
  intros w Hw. pose proof Hw as [Hi Hc]. unfold prevStep.
  eapply wp_bind_ok; [reflexivity|].
  destruct (isActive (state w)); simpl; [|done].
  destruct (Z.ltb_spec 0 (currentStep (state w))) as [Hlt|Hge]; [|done].
  eapply wp_bind_ok; [reflexivity|].
  apply renderStep_counter. split; [|done]. red in Hi |- *. simpl. lia.
Qed.

Lemma startTour_counter : maintains counter_inv never startTour.
Proof.
  intros w [_ Hc]. unfold startTour.
  eapply wp_bind_ok; [reflexivity|].
  set (P := λ w', Forall counter_ok (trace w')).
  eapply (wp_call P); [|exact Hc|].
  { maintain ltac:(idtac; match goal with H : P _ |- _ =>
      first [exact H
            | apply Forall_app; split; [exact H | by repeat constructor]] end). }
  intros _ w1 H1. unfold loadTourForCurrentPage.
  destruct (getCurrentPage_pure w1) as [p Hp].
  eapply wp_bind_ok;
    [unfold mbind, Exec_bind; rewrite Hp; reflexivity|].
  eapply wp_bind_ok; [reflexivity|].
  wp_maintain counter_inv never counter_atom.
  split; [|exact H1].
  red. simpl. pose proof (getTourStepsForPage_nonempty p).
  destruct (getTourStepsForPage p); [done | simpl; lia].
Qed.
#[export] Hint Resolve nextStep_counter prevStep_counter startTour_counter : tour.

Lemma perform_counter a w : counter_inv w → counter_inv (perform a w).
Proof.
  apply (perform_maintains _ any_call); try done.
  - intros c. apply maintains_never. destruct c; maintain counter_atom.
  - intros c _. destruct c; maintain counter_atom.
  - intros key. apply maintains_never. maintain counter_atom.
  - intros t. apply maintains_never. maintain counter_atom.
  - maintain counter_atom.
  - intros h rnd w' Hw'. apply timerFires_maintains; [done| |done].
    intros cb. destruct cb;
      [maintain counter_atom | apply maintains_never; maintain counter_atom..].
  - intros w'. unfold revealDone. by destruct (pendingReveals w').
  - by destruct a.
Qed.

(** X21.  The step counter never shows nonsense: every call
    [speechBubble.setStep(c, n)] made on a page, in any run, has
    [1 <= c <= n]. *)
Theorem step_counter_is_in_range (w : World) (c n : Z) :
  reachable w → BubbleSetStep c n ∈ trace w → (1 ≤ c ≤ n)%Z.
Proof.
  intros (e & st & l & acts & ->) Hin.
  assert (counter_inv (run acts (pageLoad e st l))) as [_ H].
  { clear Hin. induction acts as [|a acts IH] using rev_ind.
    - destruct (pageLoad_tour e st l) as (_ & Hi & _). split; [done|].
      destruct (pageLoad_eq e st l) as [p ->]. simpl. constructor.
    - rewrite run_snoc. by apply perform_counter. }
  rewrite Forall_forall in H. by apply (H _ Hin).
Qed.

Lemma step_counter_is_in_range_witness :
  BubbleSetStep 2 6 ∈ trace second_step_shown ∧ (1 ≤ 2 ≤ 6)%Z.
Proof.
  assert (BubbleSetStep 2 6 ∈ trace second_step_shown) as Hin.
  { apply list_elem_of_lookup. exists 12%nat. vm_compute. reflexivity. }
  split; [exact Hin|].
  exact (step_counter_is_in_range second_step_shown 2 6
           second_step_shown_reachable Hin).
Defined.

(** * The single-page variant as a whole *)

Ltac stays_atom :=
  idtac; match goal with H : stays_on_page _ _ |- _ =>
    first [ exact H
          | destruct H as (? & ? & ? & ? & ? & ?); split_and!; try done;
            first [ by rewrite sounds_silent
                  | by (unfold storage; simpl; rewrite lookup_insert_ne)
                  | by (unfold storage; simpl; rewrite lookup_delete_ne) ] ]
  end.

(** X22.  The single-page script keeps to its page: none of its commands
    (start, restart, skip, next, prev) requests a navigation, sets or
    clears a timer, changes the URL, touches the sound manager, plays a
    sound or writes the cross-page flag, in any world. *)
Theorem single_page_commands_stay_on_page (c : Command) (w : World) :
  pendingNav (final (SinglePage.runCommand c w)) = pendingNav w
  ∧ timers (final (SinglePage.runCommand c w)) = timers w
  ∧ location (final (SinglePage.runCommand c w)) = location w
  ∧ sound (final (SinglePage.runCommand c w)) = sound w
  ∧ sounds (final (SinglePage.runCommand c w)) = sounds w
  ∧ storage (final (SinglePage.runCommand c w)) !! TOUR_ACTIVE_KEY
    = storage w !! TOUR_ACTIVE_KEY.
Proof.
  assert (maintains (stays_on_page w) (stays_on_page w)
            (SinglePage.runCommand c)) as H.
  { destruct c; maintain stays_atom. }
  apply (maintains_final _ _ _ H). by split_and!.
Qed.

Lemma single_page_nextStep_index :
  maintains index_in_range never SinglePage.nextStep.
Proof.
  intros w Hw. unfold SinglePage.nextStep.
  eapply wp_bind_ok; [reflexivity|]. eapply wp_bind_ok; [reflexivity|].
  destruct (isActive (state w)); simpl; [|done].
  destruct (getCurrentStep_defined w Hw) as (step & Hstep & _).
  destruct (isTyping (state w) && hasSpeechBubble (env w)).
  - eapply wp_bind_ok; [exact Hstep|].
    wp_maintain index_in_range never index_atom.
  - eapply wp_bind_ok; [reflexivity|].
    destruct (Z.ltb_spec (currentStep (state w))
                (Z.of_nat (length (tourSteps w)) - 1)) as [Hlt|Hge].
    + eapply wp_bind_ok; [reflexivity|].
      apply single_page_renderStep_index.
      red in Hw |- *. simpl. lia.
    + wp_maintain index_in_range never index_atom.
Qed.

Lemma single_page_prevStep_index :
  maintains index_in_range never SinglePage.prevStep.
Proof.
  intros w Hw. unfold SinglePage.prevStep.
  eapply wp_bind_ok; [reflexivity|].
  destruct (isActive (state w)); simpl; [|done].
  destruct (Z.ltb_spec 0 (currentStep (state w))) as [Hlt|Hge]; [|done].
  eapply wp_bind_ok; [reflexivity|].
  apply single_page_renderStep_index. red in Hw |- *. simpl. lia.
Qed.

Lemma single_page_startTour_index w :
  wp SinglePage.startTour (λ _, index_in_range) never w.
Proof.
  unfold SinglePage.startTour.
  eapply wp_bind_ok; [reflexivity|].
  unfold SinglePage.loadTourForCurrentPage.
  destruct (getCurrentPage_pure w) as [p Hp].
  eapply wp_bind_ok;
    [unfold mbind, Exec_bind; rewrite Hp; reflexivity|].
  eapply wp_bind_ok; [reflexivity|].
  eapply (wp_call index_in_range); [maintain index_atom| |].
  { red. simpl. pose proof (single_page_nonempty p).
    destruct (SinglePage.getTourStepsForPage p); [done | simpl; lia]. }
  intros _ w1 H1.
  eapply (wp_call index_in_range); [maintain index_atom|done|].
  intros _ w2 H2.
  eapply (wp_call index_in_range); [maintain index_atom|done|].
  intros _ w3 H3. by apply single_page_renderStep_index.
Qed.

(** X23.  The index invariant holds for the single-page script as well: a
    start leaves the index inside the script, and from a world where it is
    inside, every command returns and leaves it inside. *)
Theorem single_page_index_stays_in_range (w0 w : World) (c : Command) :
  index_in_range (final (SinglePage.startTour w0))
  ∧ (index_in_range w →
     returned (SinglePage.runCommand c w) = true
     ∧ index_in_range (final (SinglePage.runCommand c w))).
Proof.
  split.
  - apply wp_final. eapply wp_mono; [apply single_page_startTour_index|done..].
  - intros Hw.
    assert (maintains index_in_range never (SinglePage.runCommand c)) as H.
    { destruct c; simpl.
      - intros w' _. apply single_page_startTour_index.
      - intros w' _. apply single_page_startTour_index.
      - unfold SinglePage.skipTour, SinglePage.completeTour.
        maintain index_atom.
      - apply single_page_nextStep_index.
      - apply single_page_prevStep_index. }
    destruct (never_final _ _ _ H Hw). done.
Qed.

Lemma single_page_index_stays_in_range_witness :
  index_in_range (final (SinglePage.runCommand CmdNext single_page_started)).
Proof.
  destruct (single_page_index_stays_in_range
              (initialWorld full_env empty_storage home_page)
              single_page_started CmdNext) as [H0 H].
  destruct (H H0) as [_ H']. exact H'.
Defined.

(** X24.  The two scripts decide alike when nothing is carried over: in a
    world where the cross-page flag does not read as set, the settle
    callback of the single-page [initTour] and that of the multi-page one
    have the same result. *)
Theorem settle_agrees_without_flag (w : World) :
  isTourActive w = Ok false w →
  SinglePage.initTour_settled w = initTour_settled w.
Proof.
  rewrite isTourActive_eq. intros [= Hf].
  assert (reads_true TOUR_ACTIVE_KEY (localStorage w) = false) as Hr
    by exact Hf.
  rewrite initTour_settled_eq. cbv zeta. rewrite Hr.
  unfold SinglePage.initTour_settled, setupKeyboardNav, setupButtonControls.
  unfold mbind at 1 2 3, Exec_bind at 1 2 3, modify at 1 2.
  set (w1 := with_navListeners _ (with_navListeners _ w)). simpl.
  unfold shouldStartFromUrl, gets.
  change (location w1) with (location w).
  destruct (searchParams_has _ _); [done|].
  unfold mbind at 1 2, Exec_bind at 1 2, isHomePage, gets.
  rewrite hasCompletedTour_eq.
  change (mode (localStorage w1)) with (mode (localStorage w)).
  change (storage w1) with (items (localStorage w)).
  change (location w1) with (location w).
  fold (reads_true STORAGE_KEY (localStorage w)).
  by destruct (_ && _).
Qed.

Lemma settle_agrees_without_flag_witness :
  SinglePage.initTour_settled (settling full_env empty_storage home_page "/")
  = initTour_settled (settling full_env empty_storage home_page "/").
Proof.
  apply settle_agrees_without_flag. vm_compute. reflexivity.
Defined.

(** * The rhythm of the ambient purr, and exceptions *)

Ltac delays_atom :=
  idtac; match goal with H : purr_delays_ok _ |- _ =>
    first [ exact H
          | intros ? [?| ->%list_elem_of_singleton]%elem_of_app;
            [by apply H | first [discriminate | intros _; by left]]
          | intros ? [_ ?]%list_elem_of_filter; by apply H ]
  end.

Lemma playRandomPurr_delays rnd :
  QArith_base.Qle (ms 0) rnd → QArith_base.Qlt rnd (ms 1) →
  maintains purr_delays_ok purr_delays_ok (soundManager.playRandomPurr rnd).
Proof.
  intros H0 H1 w Hw. unfold soundManager.playRandomPurr.
  eapply wp_bind_ok; [reflexivity|].
  eapply (wp_call purr_delays_ok); [maintain delays_atom | exact Hw |].
  intros _ w1 Hw1. eapply wp_bind_ok; [reflexivity|].
  unfold wp, modify.
  intros t [Ht| ->%list_elem_of_singleton]%elem_of_app; [by apply Hw1|].
  intros _. right. simpl. unfold ms, QArith_base.inject_Z in *.
  split; Lqa.lra.
Qed.

Lemma perform_delays a w :
  unit_random a → purr_delays_ok w → purr_delays_ok (perform a w).
Proof.
  intros Ha Hw. destruct a as [c|c|key|t|h rnd|]; simpl.
  - apply maintains_final; [|done]. destruct c; maintain delays_atom.
  - apply listener_maintains; [|done]. destruct c; maintain delays_atom.
  - repeat apply listener_maintains; [maintain delays_atom..|done].
  - repeat apply listener_maintains; [maintain delays_atom..|done].
  - destruct Ha as [H0 H1]. unfold timerFires.
    destruct (list_find _ _) as [[? t]|]; [|done].
    apply maintains_final.
    + destruct (callback t);
        [maintain delays_atom..|by apply playRandomPurr_delays].
    + intros t' [_ Ht']%list_elem_of_filter. by apply Hw.
  - unfold revealDone. by destruct (pendingReveals w).
Qed.

(** X25.  The ambient purr keeps its distance: as long as [Math.random]
    answers within its range, every purr timer pending on a page was
    scheduled with a delay of two seconds (the first of a chain) or of five
    to ten seconds (all later ones). *)
Theorem ambient_purr_delays (e : Env) (st : Storage) (l : Location)
    (acts : list Action) (t : Timer) :
  Forall unit_random acts →
  t ∈ timers (run acts (pageLoad e st l)) → callback t = CbRandomPurr →
  delay t = ms 2000
  ∨ (QArith_base.Qle (ms 5000) (delay t)
     ∧ QArith_base.Qle (delay t) (ms 10000)).
Proof.
  intros Hacts.
  assert (purr_delays_ok (run acts (pageLoad e st l))) as H; [|apply H].
  induction acts as [|a acts IH] using rev_ind.
  - destruct (pageLoad_eq e st l) as [p ->].
    intros t' ->%list_elem_of_singleton. discriminate.
  - apply Forall_app in Hacts as [Hacts Ha]. apply Forall_inv in Ha.
    rewrite run_snoc. apply perform_delays; auto.
Qed.

Lemma ambient_purr_delays_witness :
  purr_delay_ok (ms 2000).
Proof.
  apply (ambient_purr_delays full_env empty_storage home_page
           [TimerFires 1 zero; TimerFires 2 zero]
           (mkTimer 3 (ms 2000) CbRandomPurr)).
  - repeat constructor; vm_compute; discriminate.
  - apply list_elem_of_lookup. exists 0%nat. vm_compute. reflexivity.
  - reflexivity.
Defined.

(** X26.  Exceptions are confined to two places.  In every reachable world
    each command of [window.portfolioTour], the key listener, the click
    listener for a target that is an element, the first-interaction
    listener, the timer callbacks that start or resume the tour or purr,
    and every method of the sound manager return normally.  The click
    listener throws for a target that is not an element.  The settle
    callback of [initTour] throws in exactly one case: no tour is carried
    over, the URL holds the marker, and the browser refuses the path of
    the document as a reference; it returns on every document whose path
    starts with one slash and not with two. *)
Theorem exceptions_are_confined (w : World) :
  reachable w →
  (∀ c, returned (runCommand c w) = true)
  ∧ (∀ key, returned (onKeydown key w) = true)
  ∧ (∀ t, returned (clickListener (Some t) w) = true)
  ∧ returned (clickListener None w) = false
  ∧ returned (initSoundsOnInteraction w) = true
  ∧ (∀ cb rnd, cb ≠ CbInitSettled → returned (runCallback cb rnd w) = true)
  ∧ (∀ rnd, returned (runCallback CbInitSettled rnd w) = false ↔
       isTourActive w = Ok false w
       ∧ shouldStartFromUrl w = Ok true w
       ∧ resolveReference (env w) (pathname (location w)) = None)
  ∧ (∀ rnd, isAbsolutePath (pathname (location w)) = true →
       returned (runCallback CbInitSettled rnd w) = true)
  ∧ (∀ c, returned (runSoundCall c w) = true).
Proof.
  intros (_ & Hi & _)%reachable_tour.
  assert (∀ A (m : Exec A), maintains index_in_range never m →
            returned (m w) = true) as H.
  { intros A m Hm. by destruct (never_final _ _ _ Hm Hi). }
  assert (returned (initTour_settled w) = false ↔
          isTourActive w = Ok false w
          ∧ shouldStartFromUrl w = Ok true w
          ∧ resolveReference (env w) (pathname (location w)) = None)
    as Hsettle.
  { rewrite isTourActive_eq. unfold shouldStartFromUrl, gets.
    fold (storage w). change (storage w) with (items (localStorage w)).
    fold (reads_true TOUR_ACTIVE_KEY (localStorage w)).
    destruct (reads_true TOUR_ACTIVE_KEY (localStorage w)) eqn:Hf.
    { rewrite initTour_settled_eq. cbv zeta. rewrite Hf.
      split; [done | by intros ([=] & _)]. }
    destruct (searchParams_has TOUR_PARAM (search (location w))) eqn:Hu.
    - rewrite (initTour_settled_marker w Hf Hu).
      destruct (resolveReference _ _); simpl; [|done].
      split; [done | by intros (_ & _ & [=])].
    - rewrite initTour_settled_eq. cbv zeta. rewrite Hf, Hu.
      split; [|by intros (_ & [=] & _)].
      destruct (_ && _); [done|]. by destruct (hasCatGuide (env w)). }
  split_and!.
  - intros c. apply H, runCommand_index.
  - intros key. apply H. maintain index_atom.
  - intros t. apply H. simpl. maintain index_atom.
  - done.
  - apply H. maintain index_atom.
  - intros cb rnd Hcb. apply H. destruct cb; [done | maintain index_atom..].
  - intros rnd. exact Hsettle.
  - intros rnd Habs. simpl.
    destruct (returned (initTour_settled w)); [done|].
    destruct (proj1 Hsettle eq_refl) as (_ & _ & E).
    unfold resolveReference in E. by rewrite Habs in E.
  - intros c. apply H. destruct c; maintain index_atom.
Qed.

Lemma exceptions_are_confined_witness :
  returned (onKeydown "Escape" first_visit) = true
  ∧ returned
      (runCallback CbInitSettled zero
         (settling full_env empty_storage foreign_with_marker
            "//evil.example/x"))
    = false.
Proof.
  split.
  - destruct (exceptions_are_confined first_visit reachable_first_visit)
      as (_ & H & _).
    apply H.
  - reflexivity.
Defined.

(** * The voice *)

Section CleanMessage.
Import Voice.

Lemma collapse_from_single_spaced b s : single_spaced b (collapse_from b s).
Proof.
  revert b. induction s as [|c s IH]; intros b; simpl; [done|].
  destruct (is_space c) eqn:Hc.
  - destruct b; [apply IH|]. simpl. split_and!; [done..|apply IH].
  - simpl. rewrite Hc. apply IH.
Qed.

Lemma single_spaced_weaken b s : single_spaced b s → single_spaced false s.
Proof.
  destruct s as [|c s]; simpl; [done|].
  destruct (is_space c); [|done]. by intros (? & _ & ?).
Qed.

Lemma single_spaced_app_l b s t : single_spaced b (s ++ t) → single_spaced b s.
Proof.
  revert b. induction s as [|c s IH]; intros b; simpl; [done|].
  destruct (is_space c).
  - intros (? & ? & ?). split_and!; [done..|by apply IH].
  - apply IH.
Qed.

Lemma trimStart_spec s :
  ∃ t, s = t ++ trimStart s ∧ Forall (λ c, is_space c = true) t
       ∧ (∀ c, head (trimStart s) = Some c → is_space c = false).
Proof.
  induction s as [|c s (t & Hs & Ht & Hh)]; simpl.
  - exists []. by split_and!.
  - destruct (is_space c) eqn:Hc.
    + exists (c :: t). split_and!; [by rewrite Hs at 1 | by constructor | done].
    + exists []. split_and!; [done | done |]. simpl. by intros ? [= <-].
Qed.

Lemma trimStart_single_spaced b s :
  single_spaced b s → single_spaced false (trimStart s).
Proof.
  revert b. induction s as [|c s IH]; intros b; simpl; [done|].
  destruct (is_space c) eqn:Hc.
  - intros (_ & _ & H). by apply (IH true).
  - intros H. simpl. by rewrite Hc.
Qed.

Lemma trimEnd_spec s :
  ∃ t, s = trimEnd s ++ t ∧ Forall (λ c, is_space c = true) t
       ∧ (∀ c, last (trimEnd s) = Some c → is_space c = false).
Proof.
  unfold trimEnd.
  destruct (trimStart_spec (reverse s)) as (t & Hs & Ht & Hh).
  exists (reverse t). split_and!.
  - rewrite <- reverse_app, <- Hs. by rewrite reverse_involutive.
  - by apply Forall_reverse.
  - intros c. rewrite last_reverse. apply Hh.
Qed.

Lemma head_app_Some {A} (s t : list A) c :
  head s = Some c → head (s ++ t) = Some c.
Proof. by destruct s. Qed.

Lemma trimStart_id s :
  (∀ c, head s = Some c → is_space c = false) → trimStart s = s.
Proof.
  destruct s as [|c s]; simpl; [done|]. intros H. by rewrite (H c).
Qed.

Lemma trimEnd_id s :
  (∀ c, last s = Some c → is_space c = false) → trimEnd s = s.
Proof.
  intros H. unfold trimEnd. rewrite trimStart_id.
  - apply reverse_involutive.
  - intros c Hc. apply H. by rewrite <- (reverse_involutive s), last_reverse.
Qed.

Lemma collapse_from_id b s : single_spaced b s → collapse_from b s = s.
Proof.
  revert b. induction s as [|c s IH]; intros b; simpl; [done|].
  destruct (is_space c).
  - intros (-> & -> & H). by rewrite (IH true).
  - intros H. by rewrite (IH false).
Qed.

Lemma single_spaced_lookup b s i x y :
  single_spaced b s → s !! i = Some x → s !! S i = Some y →
  is_space x && is_space y = false.
Proof.
  revert b i. induction s as [|c s IH]; intros b i; [done|].
  destruct i as [|i]; simpl.
  - intros H [= <-] Hy. destruct (is_space c) eqn:Hc; [|done].
    destruct H as (_ & _ & H). destruct s as [|d s]; [done|].
    injection Hy as <-. simpl in H.
    destruct (is_space d); [|done]. by destruct H as (_ & ? & _).
  - intros H. destruct (is_space c).
    + destruct H as (_ & _ & H). by apply (IH true).
    + by apply (IH false).
Qed.

Lemma single_spaced_plain b s c :
  single_spaced b s → c ∈ s → is_space c = true → c = 32%N.
Proof.
  revert b. induction s as [|d s IH]; intros b H Hin Hc;
    [by apply elem_of_nil in Hin|].
  simpl in H. apply elem_of_cons in Hin as [->|Hin].
  - rewrite Hc in H. by destruct H.
  - destruct (is_space d); [destruct H as (_ & _ & H)|]; by eapply IH.
Qed.

Lemma strip_markdown_id s :
  (∀ c, c ∈ s → is_markdown c = false) → strip_markdown s = s.
Proof.
  unfold strip_markdown. induction s as [|c s IH]; [done|]. intros H.
  rewrite filter_cons_True by (apply H; by left).
  rewrite IH; [done|]. intros d Hd. apply H. by right.
Qed.

(** X27.  What [speakMessage] hands to the speech synthesis is tidy, for
    every message: none of the characters [*], [_], [~] and the backquote is
    left, white space occurs only as single plain spaces, never two in a
    row and neither at the start nor at the end; cleaning a cleaned
    message changes nothing. *)
Theorem cleanMessage_is_tidy (message : list N) :
  (∀ c, c ∈ cleanMessage message → is_markdown c = false)
  ∧ (∀ c, c ∈ cleanMessage message → is_space c = true → c = 32%N)
  ∧ (∀ i x y, cleanMessage message !! i = Some x →
       cleanMessage message !! S i = Some y →
       is_space x && is_space y = false)
  ∧ (∀ c, head (cleanMessage message) = Some c → is_space c = false)
  ∧ (∀ c, last (cleanMessage message) = Some c → is_space c = false)
  ∧ cleanMessage (cleanMessage message) = cleanMessage message.
Proof.
  set (r := cleanMessage message).
  set (s1 := strip_markdown message).
  set (s2 := collapse_spaces s1).
  destruct (trimStart_spec s2) as (t1 & E1 & _ & Hhead).
  destruct (trimEnd_spec (trimStart s2)) as (t2 & E2 & _ & Hlast).
  change (trimEnd (trimStart s2)) with r in E2, Hlast.
  assert (∀ c, c ∈ r → c ∈ s2) as Hsub.
  { intros c Hc. rewrite E1, E2. set_solver. }
  assert (∀ c, c ∈ r → is_markdown c = false) as Hmd.
  { intros c Hc%Hsub. clear -Hc. unfold s2, collapse_spaces in Hc.
    assert (∀ b s, c ∈ collapse_from b s → c = 32%N ∨ c ∈ s) as H.
    { clear. intros b s. revert b.
      induction s as [|d s IH]; intros b; simpl; [by right|].
      destruct (is_space d).
      - destruct b.
        + intros [?|?]%IH; [by left | right; by right].
        + intros [->|[?|?]%IH]%elem_of_cons;
            [by left | by left | right; by right].
      - intros [->|[?|?]%IH]%elem_of_cons;
          [right; by left | by left | right; by right]. }
    apply H in Hc as [->|Hc]; [done|].
    by apply list_elem_of_filter in Hc as [? _]. }
  assert (single_spaced false r) as Hss.
  { apply (single_spaced_app_l _ _ t2). rewrite <- E2.
    apply (trimStart_single_spaced false), collapse_from_single_spaced. }
  assert (∀ c, head r = Some c → is_space c = false) as Hh.
  { intros c Hc. apply Hhead. rewrite E2. by apply head_app_Some. }
  split_and!; [done | intros c; by apply (single_spaced_plain false)
               | intros i x y; by apply (single_spaced_lookup false)
               | done | done |].
  unfold cleanMessage at 1. fold r.
  assert (strip_markdown r = r) as ->.
  { by apply strip_markdown_id. }
  unfold collapse_spaces. rewrite collapse_from_id by done.
  unfold trim. rewrite trimStart_id by done. by apply trimEnd_id.
Qed.

End CleanMessage.

Lemma cleanMessage_is_tidy_witness :
  Voice.cleanMessage
    (Voice.cleanMessage (Voice.literal "  *Purr*   _meow_  "))
  = Voice.literal "Purr meow".
Proof.
  destruct (cleanMessage_is_tidy (Voice.literal "  *Purr*   _meow_  "))
    as (_ & _ & _ & _ & _ & H).
  rewrite H. vm_compute. reflexivity.
Defined.

Section Voices.
Variable toLowerCase : list N → list N.
Import Voice.

Lemma find_Some_elem {A} (f : A → bool) (l : list A) x :
  List.find f l = Some x → x ∈ l ∧ f x = true.
Proof.
  induction l as [|a l IH]; simpl; [done|].
  destruct (f a) eqn:Ha.
  - intros [= <-]. split; [by left | done].
  - intros [? ?]%IH. split; [by right | done].
Qed.

Lemma find_None_all {A} (f : A → bool) (l : list A) :
  List.find f l = None ↔ ∀ x, x ∈ l → f x = false.
Proof.
  induction l as [|a l IH]; simpl.
  - split; [intros _ x Hx; by apply elem_of_nil in Hx | done].
  - destruct (f a) eqn:Ha.
    + split; [done|]. intros H. rewrite (H a) in Ha; [done | by left].
    + rewrite IH. split.
      * intros H x [->|Hx]%elem_of_cons; auto.
      * intros H x Hx. apply H. by right.
Qed.

(** The loop over the names answers the first voice that includes the
    first name that any voice includes. *)
Lemma firstByName_Some names vs v :
  firstByName names vs = Some v ↔
  ∃ i n, names !! i = Some n
    ∧ List.find (λ v, includes n (name v)) vs = Some v
    ∧ ∀ j m, (j < i)%nat → names !! j = Some m →
        List.find (λ v, includes m (name v)) vs = None.
Proof.
  induction names as [|n names IH]; simpl.
  - split; [done|]. by intros (i & n & ? & _).
  - destruct (List.find (λ v, includes n (name v)) vs) as [v0|] eqn:Hn.
    + split.
      * intros [= <-]. exists 0%nat, n. split_and!; [done..|]. intros; lia.
      * intros (i & m & Hi & Hfind & Hbefore). destruct i as [|i].
        -- injection Hi as <-. congruence.
        -- specialize (Hbefore 0%nat n ltac:(lia) eq_refl). congruence.
    + rewrite IH. split.
      * intros (i & m & Hi & Hfind & Hbefore). exists (S i), m.
        split_and!; [done..|]. intros [|j] m' Hj Hm'.
        -- by injection Hm' as <-.
        -- apply (Hbefore j); [lia | done].
      * intros (i & m & Hi & Hfind & Hbefore). destruct i as [|i].
        -- injection Hi as <-. congruence.
        -- exists i, m. split_and!; [done..|]. intros j m' Hj Hm'.
           apply (Hbefore (S j)); [lia | done].
Qed.

(** X28.  [findCuteVoice] chooses among the voices the browser offers,
    and by the order of [cuteVoiceNames]: with no voice it changes nothing;
    with at least one it sets [preferredVoice] to one of them.  The voice
    it sets is the first voice that includes the first of the preferred
    names that any voice includes; when no voice includes a preferred
    name, it is the first voice that sounds female by the fallback test.
    (This holds whatever [toLowerCase] does.) *)
Theorem findCuteVoice_chooses (s : State) (vs : list SpeechSynthesisVoice) :
  vs = (if speechSynth s then voices s else []) →
  (vs = [] → findCuteVoice toLowerCase s = s)
  ∧ (vs ≠ [] →
     ∃ v, v ∈ vs
       ∧ findCuteVoice toLowerCase s = set_preferredVoice (Some v) s)
  ∧ (∀ i n v, cuteVoiceNames !! i = Some n →
       List.find (λ v, includes n (name v)) vs = Some v →
       (∀ j m, (j < i)%nat → cuteVoiceNames !! j = Some m →
          ∀ v', v' ∈ vs → includes m (name v') = false) →
       preferredVoice (findCuteVoice toLowerCase s) = Some v)
  ∧ (∀ v, (∀ n v', n ∈ cuteVoiceNames → v' ∈ vs →
             includes n (name v') = false) →
       List.find (soundsFemale toLowerCase) vs = Some v →
       preferredVoice (findCuteVoice toLowerCase s) = Some v).
Proof.
  intros Hvs. unfold findCuteVoice. rewrite <- Hvs. clear Hvs.
  split_and!.
  - by intros ->.
  - intros Hne.
    destruct (firstByName cuteVoiceNames vs) as [v|] eqn:H1.
    { apply firstByName_Some in H1 as (_ & _ & _ & [? _]%find_Some_elem & _).
      by exists v. }
    destruct (List.find (soundsFemale toLowerCase) vs) as [v|] eqn:H2.
    { apply find_Some_elem in H2 as [? _]. by exists v. }
    destruct vs as [|v vs']; [done|]. exists v. split; [by left | done].
  - intros i n v Hi Hfind Hbefore.
    assert (firstByName cuteVoiceNames vs = Some v) as ->; [|done].
    apply firstByName_Some. exists i, n. split_and!; [done..|].
    intros j m Hj Hm. apply find_None_all. intros v' Hv'. by apply (Hbefore j m).
  - intros v Hnone Hfind.
    assert (firstByName cuteVoiceNames vs = None) as ->.
    { destruct (firstByName cuteVoiceNames vs) as [v0|] eqn:H1; [|done].
      apply firstByName_Some in H1 as (i & n & Hi & [Hin Hinc]%find_Some_elem & _).
      rewrite (Hnone n v0) in Hinc; [done | | done].
      by eapply list_elem_of_lookup_2. }
    by rewrite Hfind.
Qed.

Lemma findCuteVoice_frame s :
  ∃ v, findCuteVoice toLowerCase s = set_preferredVoice v s.
Proof.
  unfold findCuteVoice.
  repeat match goal with
  | |- context [match ?x with _ => _ end] => destruct x
  end; try by eexists.
  exists (preferredVoice s). by destruct s.
Qed.

Lemma findCuteVoice_speech s :
  speech_inv s → speech_inv (findCuteVoice toLowerCase s).
Proof. destruct (findCuteVoice_frame s) as [v ->]. by intros ?. Qed.

Lemma iter_findCuteVoice_speech n s :
  speech_inv s → speech_inv (Nat.iter n (findCuteVoice toLowerCase) s).
Proof.
  intros Hs. induction n as [|n IH]; [done|]. simpl.
  by apply findCuteVoice_speech.
Qed.

Ltac speech_solve :=
  split_and!; simpl in *;
  try first [ done | lia | congruence
            | by intros ? ?%elem_of_nil | solve [auto] ].

Lemma call_speech c s : speech_inv s → speech_inv (call toLowerCase c s).
Proof.
  intros (Hlen & Hq & Hoff & Hav & Hno). destruct c; simpl.
  - unfold initVoice. destruct (synthAvailable s) eqn:Ha; simpl.
    + destruct (0 <? length (voices s))%nat;
        [apply findCuteVoice_speech|]; speech_solve.
    + assert (speechSynth s = false) as Hs.
      { destruct (speechSynth s); [|done]. by specialize (Hav eq_refl). }
      specialize (Hno Hs). speech_solve.
  - unfold speakMessage.
    destruct (negb (voiceEnabled s) || negb (speechSynth s)) eqn:Hg;
      [by split_and!|].
    apply orb_false_iff in Hg as [He%negb_false_iff Hs%negb_false_iff].
    unfold stopSpeaking. rewrite Hs. speech_solve.
    intros u ->%list_elem_of_singleton. split_and!; try done. by eexists.
  - unfold stopSpeaking. destruct (speechSynth s) eqn:Hs; [speech_solve|].
    assert (queue s = []) as Hnil by (by apply Hno).
    unfold speech_inv. simpl. rewrite Hnil, Hs. speech_solve.
  - unfold setVoiceEnabled, stopSpeaking. simpl.
    destruct enabled; simpl; [speech_solve|].
    destruct (speechSynth s) eqn:Hs; [speech_solve|].
    assert (queue s = []) as Hnil by (by apply Hno).
    unfold speech_inv. simpl. rewrite Hnil, Hs. speech_solve.
  - unfold onVoicesChanged. apply iter_findCuteVoice_speech.
    by split_and!.
  - unfold onUtteranceEnd. destruct (queue s) as [|u q] eqn:Hqs.
    + speech_solve.
    + destruct q; [|simpl in Hlen; lia]. speech_solve.
Qed.

Lemma findCuteVoice_available s :
  synthAvailable (findCuteVoice toLowerCase s) = synthAvailable s.
Proof. by destruct (findCuteVoice_frame s) as [v ->]. Qed.

Lemma call_available c s :
  synthAvailable (call toLowerCase c s) = synthAvailable s.
Proof.
  destruct c; simpl.
  - unfold initVoice. destruct (negb (synthAvailable s)); [done|].
    destruct (0 <? _)%nat; [|done]. by rewrite findCuteVoice_available.
  - unfold speakMessage, stopSpeaking.
    by destruct (voiceEnabled s), (speechSynth s).
  - unfold stopSpeaking. by destruct (speechSynth s).
  - unfold setVoiceEnabled, stopSpeaking. simpl.
    by destruct enabled, (speechSynth s).
  - unfold onVoicesChanged.
    induction (voiceschanged s) as [|n IHn]; [done|]. simpl.
    by rewrite findCuteVoice_available.
  - done.
Qed.

Lemma calls_speech available vs cs :
  speech_inv (calls toLowerCase cs (initial available vs))
  ∧ synthAvailable (calls toLowerCase cs (initial available vs)) = available.
Proof.
  induction cs as [|c cs [IH Ha]] using rev_ind.
  - split; [|done]. unfold speech_inv. speech_solve.
  - unfold calls in *. rewrite foldl_app. simpl. split.
    + by apply call_speech.
    + by rewrite call_available.
Qed.

(** X29.  The voice never talks over itself, and it can be silenced:
    whatever sequence of [initVoice], [speakMessage], [stopSpeaking] and
    [setVoiceEnabled] calls and browser events a page sees, at most one
    utterance is queued, it is the current one, its text is a cleaned
    message and it has the pitch and rate of the script; nothing is queued
    while the voice is switched off, and nothing ever in a browser without
    speech synthesis. *)
Theorem speech_never_overlaps (available : bool)
    (vs : list SpeechSynthesisVoice) (cs : list Call) :
  (length (queue (calls toLowerCase cs (initial available vs))) ≤ 1)%nat
  ∧ (∀ u, u ∈ queue (calls toLowerCase cs (initial available vs)) →
       currentUtterance (calls toLowerCase cs (initial available vs)) = Some u
       ∧ (∃ message, text u = cleanMessage message)
       ∧ pitch u = QArith_base.Qmake 13 10
       ∧ rate u = QArith_base.Qmake 21 20)
  ∧ (voiceEnabled (calls toLowerCase cs (initial available vs)) = false →
     queue (calls toLowerCase cs (initial available vs)) = [])
  ∧ (available = false →
     queue (calls toLowerCase cs (initial available vs)) = []).
Proof.
  destruct (calls_speech available vs cs) as [(H1 & H2 & H3 & H4 & H5) Ha].
  split_and!; try done.
  intros ->. apply H5.
  destruct (speechSynth _) eqn:E; [|done]. specialize (H4 eq_refl). congruence.
Qed.
End Voices.

Lemma findCuteVoice_chooses_witness :
  Voice.preferredVoice
    (Voice.findCuteVoice Voice.asciiLower
       (Voice.set_speechSynth true (Voice.initial true sample_voices)))
  = Some (Voice.mkVoice (Voice.literal "Karen") (Voice.literal "en-AU")).
Proof.
  destruct (findCuteVoice_chooses Voice.asciiLower
              (Voice.set_speechSynth true (Voice.initial true sample_voices))
              sample_voices eq_refl) as (_ & _ & H & _).
  apply (H 1%nat (Voice.literal "Karen")); [reflexivity | reflexivity |].
  intros [|j] m Hj Hm v' Hv'; [|lia].
  injection Hm as <-.
  repeat (apply elem_of_cons in Hv' as [->|Hv']; [reflexivity|]).
  by apply elem_of_nil in Hv'.
Defined.

Lemma speech_never_overlaps_witness :
  Voice.queue
    (Voice.calls Voice.asciiLower
       [Voice.CallInitVoice; Voice.CallSpeakMessage (Voice.literal "Meow!");
        Voice.CallSetVoiceEnabled false;
        Voice.CallSpeakMessage (Voice.literal "Purr")]
       (Voice.initial true sample_voices))
  = [].
Proof.
  destruct (speech_never_overlaps Voice.asciiLower true sample_voices
              [Voice.CallInitVoice;
               Voice.CallSpeakMessage (Voice.literal "Meow!");
               Voice.CallSetVoiceEnabled false;
               Voice.CallSpeakMessage (Voice.literal "Purr")])
    as (_ & _ & H & _).
  apply H. vm_compute. reflexivity.
Defined.

(** * The script and the page *)

Section ScriptOfPath.
Variable path : string.
Hypothesis path_absolute : isAbsolutePath path = true.

Lemma loadTourForCurrentPage_script :
  maintains (script_of_path path) never loadTourForCurrentPage.
Proof.
  intros w [Hp Hs]. unfold wp.
  erewrite loadTourForCurrentPage_eq by apply getCurrentPage_eq.
  split; [done|]. simpl. by rewrite Hp.
Qed.

Lemma clearTourParam_script :
  maintains (script_of_path path) never clearTourParam.
Proof.
  intros w [Hp Hs]. unfold wp. rewrite clearTourParam_eq.
  unfold resolveReference. rewrite Hp, path_absolute. by split.
Qed.

Lemma loadTourForCurrentPage_script' :
  maintains (script_of_path path) (script_of_path path) loadTourForCurrentPage.
Proof. apply maintains_never, loadTourForCurrentPage_script. Qed.

Lemma clearTourParam_script' :
  maintains (script_of_path path) (script_of_path path) clearTourParam.
Proof. apply maintains_never, clearTourParam_script. Qed.
#[local] Hint Resolve loadTourForCurrentPage_script' clearTourParam_script'
  : tour.

Lemma perform_script a w :
  script_of_path path w → script_of_path path (perform a w).
Proof.
  apply (perform_maintains _ any_call); try done.
  - intros c. destruct c; maintain frame_atom.
  - intros c _. destruct c; maintain frame_atom.
  - intros key. maintain frame_atom.
  - intros t. maintain frame_atom.
  - maintain frame_atom.
  - intros h rnd w' Hw'. apply timerFires_maintains; [done| |done].
    intros cb. destruct cb; maintain frame_atom.
  - intros w'. unfold revealDone. by destruct (pendingReveals w').
  - by destruct a.
Qed.
End ScriptOfPath.

(** X30.  The script always is the one of the page: on a document whose
    path starts with one slash and not with two, whatever happens after the
    page has loaded, the path of the document stays the one it was loaded
    with (the URL marker is stripped, the path is not touched), so the
    current page stays the same, and [tourSteps] is the script the registry
    hands out for it. *)
Theorem script_matches_page (e : Env) (st : Storage) (l : Location)
    (acts : list Action) (p : string) :
  isAbsolutePath (pathname l) = true →
  getCurrentPage (initialWorld e st l) = Ok p (initialWorld e st l) →
  pathname (location (run acts (pageLoad e st l))) = pathname l
  ∧ getCurrentPage (run acts (pageLoad e st l))
    = Ok p (run acts (pageLoad e st l))
  ∧ tourSteps (run acts (pageLoad e st l)) = getTourStepsForPage p.
Proof.
  intros Habs. rewrite getCurrentPage_eq. intros [= Hp]. simpl in Hp.
  assert (script_of_path (pathname l) (run acts (pageLoad e st l))) as [H1 H2].
  { induction acts as [|a acts IH] using rev_ind.
    - unfold pageLoad, startup, initTour.
      erewrite bind_ok.
      2:{ erewrite bind_ok by (by apply loadTourForCurrentPage_eq, getCurrentPage_eq).
          reflexivity. }
      done.
    - rewrite run_snoc. by apply perform_script. }
  split; [done|]. rewrite getCurrentPage_eq, H1, Hp. split; [done|].
  by rewrite H2, Hp.
Qed.

Lemma script_matches_page_witness :
  tourSteps (run [TimerFires 1 zero; TimerFires 2 zero; KeyDown "Enter"]
               (pageLoad full_env empty_storage home_with_marker))
  = homeTour.
Proof.
  destruct (script_matches_page full_env empty_storage home_with_marker
              [TimerFires 1 zero; TimerFires 2 zero; KeyDown "Enter"] "/")
    as (_ & _ & H); [reflexivity | vm_compute; reflexivity |].
  rewrite H. reflexivity.
Defined.
